(** * WeCom gateway: a shallow embedding of the reception and delivery fabric

    The development follows the TypeScript sources: the envelope codec
    (crypto.ts), the target resolver (target.ts), the access-token cache
    (agent/api-client.ts), the stream and conversation store
    (monitor/state.ts) and the Bot webhook handler (monitor.ts).

    JavaScript strings are sequences of UTF-16 code units; Node Buffers are
    byte sequences.  Both are modelled as such, because several properties
    of the gateway depend on the difference between the two. *)

From Stdlib Require Import NArith ZArith Lia Bool List.
From Stdlib Require Import Strings.Byte Strings.String.
From stdpp Require Import base option list gmap sorting.
Import ListNotations.

Local Open Scope N_scope.

(** ** JavaScript strings and Node's UTF-8 codec *)

Module Js.

(** A JavaScript string: its UTF-16 code units. *)
Abbreviation jsstring := (list N).

(** A Node [Buffer]. *)
Abbreviation Buffer := (list byte).

Definition is_code_unit (u : N) : bool := u <? 0x10000.

Definition is_high_surrogate (u : N) : bool := (0xD800 <=? u) && (u <=? 0xDBFF).
Definition is_low_surrogate (u : N) : bool := (0xDC00 <=? u) && (u <=? 0xDFFF).

(** [String.prototype.isWellFormed]: every surrogate is part of a pair. *)
Fixpoint isWellFormed (s : jsstring) : bool :=
  match s with
  | [] => true
  | u :: rest =>
      if is_high_surrogate u then
        match rest with
        | v :: rest' => is_low_surrogate v && isWellFormed rest'
        | [] => false
        end
      else if is_low_surrogate u then false
      else is_code_unit u && isWellFormed rest
  end.

(** The code points [Buffer.from(s, "utf8")] encodes: a surrogate pair is one
    supplementary code point, an unpaired surrogate becomes U+FFFD. *)
Fixpoint code_points (s : jsstring) : list N :=
  match s with
  | [] => []
  | u :: rest =>
      if is_high_surrogate u then
        match rest with
        | v :: rest' =>
            if is_low_surrogate v
            then (0x10000 + (u - 0xD800) * 0x400 + (v - 0xDC00)) :: code_points rest'
            else 0xFFFD :: code_points rest
        | [] => [0xFFFD]
        end
      else if is_low_surrogate u then 0xFFFD :: code_points rest
      else u :: code_points rest
  end.

(** The byte of value [n mod 256]. *)
Definition byte_of_N (n : N) : byte :=
  match Byte.of_N (n mod 256) with
  | Some b => b
  | None => x00
  end.

Definition utf8_of_code_point (c : N) : Buffer :=
  if c <? 0x80 then [byte_of_N c]
  else if c <? 0x800 then
    [byte_of_N (0xC0 + c / 0x40); byte_of_N (0x80 + c mod 0x40)]
  else if c <? 0x10000 then
    [byte_of_N (0xE0 + c / 0x1000);
     byte_of_N (0x80 + (c / 0x40) mod 0x40);
     byte_of_N (0x80 + c mod 0x40)]
  else
    [byte_of_N (0xF0 + c / 0x40000);
     byte_of_N (0x80 + (c / 0x1000) mod 0x40);
     byte_of_N (0x80 + (c / 0x40) mod 0x40);
     byte_of_N (0x80 + c mod 0x40)].

(** [Buffer.from(s, "utf8")]. *)
Definition Buffer_from_utf8 (s : jsstring) : Buffer :=
  flat_map utf8_of_code_point (code_points s).

(** [Buffer.byteLength(s, "utf8")]. *)
Definition byteLength (s : jsstring) : nat := length (Buffer_from_utf8 s).

(** The UTF-8 decoder of the Encoding Standard, which [buf.toString("utf8")]
    runs with replacement: the code point under construction, the number of
    continuation bytes still to come, and the bounds on the next byte. *)
Record decoder := {
  dec_code_point : N;
  dec_needed : nat;
  dec_lower : N;
  dec_upper : N
}.

Definition utf8_lead (b : N) : list N * option decoder :=
  if b <=? 0x7F then ([b], None)
  else if (0xC2 <=? b) && (b <=? 0xDF) then
    ([], Some {| dec_code_point := N.land b 0x1F; dec_needed := 1;
                 dec_lower := 0x80; dec_upper := 0xBF |})
  else if (0xE0 <=? b) && (b <=? 0xEF) then
    ([], Some {| dec_code_point := N.land b 0xF; dec_needed := 2;
                 dec_lower := if b =? 0xE0 then 0xA0 else 0x80;
                 dec_upper := if b =? 0xED then 0x9F else 0xBF |})
  else if (0xF0 <=? b) && (b <=? 0xF4) then
    ([], Some {| dec_code_point := N.land b 0x7; dec_needed := 3;
                 dec_lower := if b =? 0xF0 then 0x90 else 0x80;
                 dec_upper := if b =? 0xF4 then 0x8F else 0xBF |})
  else ([0xFFFD], None).

Definition utf8_step (st : option decoder) (b : N) : list N * option decoder :=
  match st with
  | None => utf8_lead b
  | Some d =>
      if (dec_lower d <=? b) && (b <=? dec_upper d) then
        let c := N.lor (N.shiftl (dec_code_point d) 6) (N.land b 0x3F) in
        match dec_needed d with
        | S (S n) =>
            ([], Some {| dec_code_point := c; dec_needed := S n;
                         dec_lower := 0x80; dec_upper := 0xBF |})
        | _ => ([c], None)
        end
      else
        (* the byte is put back and read again by a fresh decoder *)
        let '(out, st') := utf8_lead b in (0xFFFD :: out, st')
  end.

Fixpoint utf8_run (st : option decoder) (bs : Buffer) : list N :=
  match bs with
  | [] => match st with None => [] | Some _ => [0xFFFD] end
  | b :: bs' =>
      let '(out, st') := utf8_step st (Byte.to_N b) in
      out ++ utf8_run st' bs'
  end.

Definition utf16_of_code_point (c : N) : jsstring :=
  if c <? 0x10000 then [c]
  else [0xD800 + (c - 0x10000) / 0x400; 0xDC00 + (c - 0x10000) mod 0x400].

(** [buf.toString("utf8")]. *)
Definition Buffer_toString_utf8 (bs : Buffer) : jsstring :=
  flat_map utf16_of_code_point (utf8_run None bs).

(** A string literal of the source text (the sources are UTF-8 files). *)
Definition lit (s : string) : jsstring :=
  Buffer_toString_utf8 (list_byte_of_string s).

(** Truthiness of a string: [Boolean(s)]. *)
Definition truthy (s : jsstring) : bool :=
  match s with [] => false | _ :: _ => true end.

(** WhiteSpace and LineTerminator code points (ECMA-262, 12.2 and 12.3),
    the characters [String.prototype.trim] strips. *)
Definition is_white_space (u : N) : bool :=
  ((0x09 <=? u) && (u <=? 0x0D))
  || (u =? 0x20) || (u =? 0xA0) || (u =? 0x1680)
  || ((0x2000 <=? u) && (u <=? 0x200A))
  || (u =? 0x2028) || (u =? 0x2029) || (u =? 0x202F) || (u =? 0x205F)
  || (u =? 0x3000) || (u =? 0xFEFF).

Fixpoint trimStart (s : jsstring) : jsstring :=
  match s with
  | u :: rest => if is_white_space u then trimStart rest else s
  | [] => []
  end.

Definition trimEnd (s : jsstring) : jsstring := reverse (trimStart (reverse s)).

Definition trim (s : jsstring) : jsstring := trimEnd (trimStart s).

Fixpoint startsWith (s prefix : jsstring) : bool :=
  match prefix, s with
  | [], _ => true
  | p :: prefix', u :: s' => (u =? p) && startsWith s' prefix'
  | _ :: _, [] => false
  end.

Definition endsWith (s suffix : jsstring) : bool :=
  startsWith (reverse s) (reverse suffix).

End Js.

Import Js.

Example lit_ascii : lit "wr1" = [119; 114; 49].
Proof. reflexivity. Qed.

Example lit_cjk : lit "已收到" = [0x5DF2; 0x6536; 0x5230].
Proof. vm_compute. reflexivity. Qed.

Example encode_lone_surrogate :
  Buffer_from_utf8 [0xD800] = [xef; xbf; xbd].
Proof. vm_compute. reflexivity. Qed.

Example decode_stray_continuation :
  Buffer_toString_utf8 [x98; x80; x61] = [0xFFFD; 0xFFFD; 0x61].
Proof. vm_compute. reflexivity. Qed.

Example decode_emoji :
  Buffer_toString_utf8 [xf0; x9f; x98; x80] = [0xD83D; 0xDE00].
Proof. vm_compute. reflexivity. Qed.

Example decode_truncated_lead :
  Buffer_toString_utf8 [xe2; x82; x41] = [0xFFFD; 0x41].
Proof. vm_compute. reflexivity. Qed.

(** ** Facts about the UTF-8 codec *)

Module Utf8Facts.

Lemma to_N_byte_of_N (n : N) : n < 256 -> Byte.to_N (byte_of_N n) = n.
Proof.
  intros Hn. unfold byte_of_N. rewrite N.mod_small by exact Hn.
  destruct (Byte.of_N n) as [b|] eqn:E.
  - apply Byte.to_of_N in E. exact E.
  - apply Byte.of_N_None_iff in E. lia.
Qed.

Lemma land_low_bits (a : N) (n : N) : N.land a (N.ones n) = a mod 2 ^ n.
Proof. apply N.land_ones. Qed.

Lemma lor_shiftl_small (a y n : N) :
  y < 2 ^ n -> N.lor (N.shiftl a n) y = a * 2 ^ n + y.
Proof.
  intros Hy.
  assert (Hdisj : N.land (N.shiftl a n) y = 0).
  { apply N.bits_inj_0. intros i. rewrite N.land_spec.
    destruct (N.ltb_spec i n) as [Hlt|Hge].
    - rewrite N.shiftl_spec_low by exact Hlt. reflexivity.
    - replace y with (y mod 2 ^ n) by (apply N.mod_small; exact Hy).
      rewrite N.mod_pow2_bits_high by exact Hge. apply andb_false_r. }
  rewrite <- N.lxor_lor by exact Hdisj.
  rewrite <- N.add_nocarry_lxor by exact Hdisj.
  rewrite N.shiftl_mul_pow2. reflexivity.
Qed.

Definition is_scalar (c : N) : Prop :=
  c < 0x110000 /\ ~ (0xD800 <= c <= 0xDFFF).

Lemma land_offset (k q n : N) :
  q < 2 ^ n -> N.land (k * 2 ^ n + q) (N.ones n) = q.
Proof.
  intros Hq. rewrite N.land_ones, N.add_comm, N.Div0.mod_add.
  apply N.mod_small. exact Hq.
Qed.

Ltac split_cmp :=
  repeat match goal with
  | |- context [(?a <=? ?b)%N] => destruct (N.leb_spec a b); try lia
  | |- context [(?a <? ?b)%N] => destruct (N.ltb_spec a b); try lia
  | |- context [(?a =? ?b)%N] => destruct (N.eqb_spec a b); try lia
  end.

Lemma continuation_value (acc r : N) :
  r < 64 ->
  N.lor (N.shiftl acc 6) (N.land (0x80 + r) 0x3F) = acc * 64 + r.
Proof.
  intros Hr.
  change (0x80 + r) with (2 * 2 ^ 6 + r). change 0x3F with (N.ones 6).
  rewrite land_offset by exact Hr.
  rewrite lor_shiftl_small by exact Hr. reflexivity.
Qed.

Lemma utf8_run_encoded (c : N) (rest : Buffer) :
  is_scalar c ->
  utf8_run None (utf8_of_code_point c ++ rest) = c :: utf8_run None rest.
Proof.
  intros [Hlt Hns]. unfold utf8_of_code_point.
  destruct (N.ltb_spec c 0x80) as [H1|H1];
    [| destruct (N.ltb_spec c 0x800) as [H2|H2];
       [| destruct (N.ltb_spec c 0x10000) as [H3|H3]]].
  - cbn [app utf8_run]. rewrite to_N_byte_of_N by lia.
    unfold utf8_step, utf8_lead. split_cmp. reflexivity.
  - pose proof (N.div_mod c 0x40 ltac:(lia)) as Hc.
    pose proof (N.mod_lt c 0x40 ltac:(lia)) as Hr.
    remember (c / 0x40) as q eqn:Eq. remember (c mod 0x40) as r eqn:Er.
    cbn [app utf8_run]. rewrite !to_N_byte_of_N by lia.
    unfold utf8_step at 1. unfold utf8_lead. split_cmp.
    cbn [andb].
    cbn [andb app utf8_run utf8_step dec_lower dec_upper dec_needed dec_code_point].
    split_cmp. cbn [andb app].
    rewrite continuation_value by exact Hr.
    change (0xC0 + q) with (6 * 2 ^ 5 + q). change 0x1F with (N.ones 5).
    rewrite land_offset by (simpl; lia).
    f_equal. lia.
  - pose proof (N.div_mod c 0x40 ltac:(lia)) as Hc.
    pose proof (N.mod_lt c 0x40 ltac:(lia)) as Hr.
    pose proof (N.div_mod (c / 0x40) 0x40 ltac:(lia)) as Hc'.
    pose proof (N.mod_lt (c / 0x40) 0x40 ltac:(lia)) as Hb.
    rewrite N.Div0.div_div in Hc'. change (0x40 * 0x40) with 0x1000 in Hc'.
    remember (c / 0x1000) as a eqn:Ea. remember ((c / 0x40) mod 0x40) as b eqn:Eb.
    remember (c mod 0x40) as r eqn:Er. remember (c / 0x40) as q eqn:Eq.
    cbn [app utf8_run]. rewrite !to_N_byte_of_N by lia.
    unfold utf8_step at 1; unfold utf8_lead; split_cmp;
    cbn [andb app utf8_run utf8_step dec_lower dec_upper dec_needed dec_code_point];
    split_cmp; cbn [andb app utf8_run utf8_step dec_lower dec_upper dec_needed dec_code_point];
      split_cmp; cbn [andb app];
      rewrite !continuation_value by assumption;
      change (0xE0 + a) with (14 * 2 ^ 4 + a); change 0xF with (N.ones 4);
      rewrite land_offset by (simpl; lia); f_equal; lia.
  - pose proof (N.div_mod c 0x40 ltac:(lia)) as Hc.
    pose proof (N.mod_lt c 0x40 ltac:(lia)) as Hr.
    pose proof (N.div_mod (c / 0x40) 0x40 ltac:(lia)) as Hc'.
    pose proof (N.mod_lt (c / 0x40) 0x40 ltac:(lia)) as Hb.
    rewrite N.Div0.div_div in Hc'. change (0x40 * 0x40) with 0x1000 in Hc'.
    pose proof (N.div_mod (c / 0x1000) 0x40 ltac:(lia)) as Hc''.
    pose proof (N.mod_lt (c / 0x1000) 0x40 ltac:(lia)) as Ha.
    rewrite N.Div0.div_div in Hc''. change (0x1000 * 0x40) with 0x40000 in Hc''.
    remember (c / 0x40000) as z eqn:Ez.
    remember ((c / 0x1000) mod 0x40) as a eqn:Ea.
    remember ((c / 0x40) mod 0x40) as b eqn:Eb.
    remember (c mod 0x40) as r eqn:Er.
    remember (c / 0x40) as q eqn:Eq. remember (c / 0x1000) as q' eqn:Eq'.
    cbn [app utf8_run]. rewrite !to_N_byte_of_N by lia.
    unfold utf8_step at 1; unfold utf8_lead; split_cmp;
    cbn [andb app utf8_run utf8_step dec_lower dec_upper dec_needed dec_code_point];
    split_cmp; cbn [andb app utf8_run utf8_step dec_lower dec_upper dec_needed dec_code_point];
      split_cmp; cbn [andb app utf8_run utf8_step dec_lower dec_upper dec_needed dec_code_point];
      split_cmp; cbn [andb app];
      rewrite !continuation_value by assumption;
      change (0xF0 + z) with (30 * 2 ^ 3 + z); change 0x7 with (N.ones 3);
      rewrite land_offset by (simpl; lia); f_equal; lia.
Qed.

Lemma utf8_run_encoded_list (cps : list N) (rest : Buffer) :
  Forall is_scalar cps ->
  utf8_run None (flat_map utf8_of_code_point cps ++ rest)
  = cps ++ utf8_run None rest.
Proof.
  induction 1 as [|c cps Hc _ IH]; [reflexivity|].
  cbn [flat_map]. rewrite <- app_assoc, utf8_run_encoded by exact Hc.
  rewrite IH. reflexivity.
Qed.

(** Induction over a string two code units at a time. *)
Lemma jsstring_pair_ind (P : jsstring -> Prop) :
  P [] ->
  (forall u, P [u]) ->
  (forall u v rest, P rest -> P (v :: rest) -> P (u :: v :: rest)) ->
  forall s, P s.
Proof.
  intros H0 H1 H2 s.
  assert (H : P s /\ forall u, P (u :: s)); [|exact (proj1 H)].
  induction s as [|v rest [IHa IHb]]; split; auto.
Qed.

Definition code_units (s : jsstring) : Prop := Forall (fun u => u < 0x10000) s.

Lemma code_points_scalar (s : jsstring) :
  code_units s -> Forall is_scalar (code_points s).
Proof.
  unfold is_scalar.
  induction s as [|u|u v rest IH1 IH2] using jsstring_pair_ind; intros Hs.
  - constructor.
  - apply Forall_cons_1 in Hs as [Hu _]. cbn.
    unfold is_high_surrogate, is_low_surrogate.
    split_cmp; cbn [andb]; repeat constructor; lia.
  - pose proof Hs as Hs'.
    apply Forall_cons_1 in Hs' as [Hu Hvr].
    pose proof Hvr as Hvr'. apply Forall_cons_1 in Hvr' as [Hv Hr].
    specialize (IH1 Hr). specialize (IH2 Hvr).
    cbn [code_points] in IH2 |- *.
    unfold is_high_surrogate, is_low_surrogate in *.
    revert IH2. split_cmp; cbn [andb]; intros IH2;
      repeat (constructor; [lia|]); assumption.
Qed.

(** [s.toWellFormed()]: unpaired surrogates replaced by U+FFFD. *)
Definition toWellFormed (s : jsstring) : jsstring :=
  flat_map utf16_of_code_point (code_points s).

(** Encoding then decoding a string yields its well-formed version. *)
Lemma toString_from_utf8 (s : jsstring) :
  code_units s ->
  Buffer_toString_utf8 (Buffer_from_utf8 s) = toWellFormed s.
Proof.
  intros Hs. unfold Buffer_toString_utf8, Buffer_from_utf8, toWellFormed.
  rewrite <- (app_nil_r (flat_map utf8_of_code_point _)).
  rewrite utf8_run_encoded_list by (apply code_points_scalar; exact Hs).
  cbn [utf8_run]. rewrite app_nil_r. reflexivity.
Qed.

Lemma isWellFormed_code_units (s : jsstring) :
  isWellFormed s = true -> code_units s.
Proof.
  unfold code_units.
  induction s as [|u|u v rest IH1 IH2] using jsstring_pair_ind; cbn [isWellFormed].
  - constructor.
  - unfold is_high_surrogate, is_low_surrogate, is_code_unit.
    split_cmp; cbn [andb]; intros; try discriminate; repeat constructor; lia.
  - cbn [isWellFormed] in IH2. revert IH2.
    unfold is_high_surrogate, is_low_surrogate, is_code_unit.
    split_cmp; cbn [andb]; intros IH2 Hw; try discriminate;
      repeat (constructor; [lia|]);
      first [ solve [auto]
            | specialize (IH2 Hw); apply Forall_cons_1 in IH2; apply IH2 ].
Qed.

Lemma toWellFormed_id (s : jsstring) :
  isWellFormed s = true -> toWellFormed s = s.
Proof.
  unfold toWellFormed.
  induction s as [|u|u v rest IH1 IH2] using jsstring_pair_ind;
    cbn [isWellFormed code_points].
  - reflexivity.
  - unfold is_high_surrogate, is_low_surrogate, is_code_unit.
    split_cmp; cbn [andb]; intros; try discriminate.
    all: cbn [flat_map app]; unfold utf16_of_code_point; split_cmp; reflexivity.
  - cbn [isWellFormed code_points] in IH2. revert IH2.
    unfold is_high_surrogate, is_low_surrogate, is_code_unit.
    split_cmp; cbn [andb]; intros IH2 Hw; try discriminate.
    all: cbn [flat_map]; try rewrite (IH1 Hw); try rewrite (IH2 Hw).
    all: unfold utf16_of_code_point; split_cmp; cbn [app]; try reflexivity.
    replace (65536 + (u - 55296) * 1024 + (v - 56320) - 65536)
      with ((v - 56320) + (u - 55296) * 1024) by lia.
    rewrite N.div_add, N.Div0.mod_add by lia.
    rewrite N.div_small, N.mod_small by lia.
    f_equal; [lia|]. f_equal. lia.
Qed.

(** A well-formed string survives the UTF-8 round trip. *)
Lemma utf8_roundtrip (s : jsstring) :
  isWellFormed s = true ->
  Buffer_toString_utf8 (Buffer_from_utf8 s) = s.
Proof.
  intros Hw. rewrite toString_from_utf8 by (apply isWellFormed_code_units; exact Hw).
  apply toWellFormed_id. exact Hw.
Qed.

Lemma truthy_nonempty (s : jsstring) : truthy s = true <-> s <> [].
Proof. destruct s; cbn; split; congruence. Qed.

End Utf8Facts.

(** ** Regular expressions

    The patterns of the target resolver, run by a backtracking matcher in
    the order of ECMA-262: alternatives left to right, [+] greedy. *)

Module Regex.

Inductive atom :=
| Chr (c : N)   (* a pattern character *)
| Digit.        (* \d *)

Inductive regex :=
| Eps
| Atom (a : atom)
| Bol                       (* ^ *)
| Eol                       (* $ *)
| Seq (r1 r2 : regex)
| Alt (r1 r2 : regex)
| Plus (a : atom).          (* a+ *)

Record RegExp := { source : regex; ignoreCase : bool }.

(** Canonicalize of ECMA-262 22.2.5.6 without the [u] flag.  An upper-cased
    code unit of 128 or more is never mapped below 128, so against ASCII
    pattern characters only the ASCII letters need their upper case. *)
Definition canonicalize (c : N) : N :=
  if (0x61 <=? c) && (c <=? 0x7A) then c - 0x20 else c.

Definition atom_matches (ic : bool) (a : atom) (c : N) : bool :=
  match a with
  | Chr p => if ic then canonicalize c =? canonicalize p else c =? p
  | Digit => (0x30 <=? c) && (c <=? 0x39)
  end.

(** A match state is the index reached and the input left; the result of
    a matcher is the list of states it can end in, by priority. *)
Fixpoint plus_states (ic : bool) (a : atom) (pos : nat) (s : jsstring)
  : list (nat * jsstring) :=
  match s with
  | c :: s' =>
      if atom_matches ic a c
      then plus_states ic a (S pos) s' ++ [(S pos, s')]
      else []
  | [] => []
  end.

Fixpoint states (ic : bool) (r : regex) (pos : nat) (s : jsstring)
  : list (nat * jsstring) :=
  match r with
  | Eps => [(pos, s)]
  | Atom a =>
      match s with
      | c :: s' => if atom_matches ic a c then [(S pos, s')] else []
      | [] => []
      end
  | Bol => match pos with O => [(pos, s)] | S _ => [] end
  | Eol => match s with [] => [(pos, s)] | _ :: _ => [] end
  | Seq r1 r2 =>
      flat_map (fun st => states ic r2 (fst st) (snd st)) (states ic r1 pos s)
  | Alt r1 r2 => states ic r1 pos s ++ states ic r2 pos s
  | Plus a => plus_states ic a pos s
  end.

(** The leftmost match: its start index and the input after it. *)
Fixpoint search (re : RegExp) (pos : nat) (s : jsstring)
  : option (nat * jsstring) :=
  match states (ignoreCase re) (source re) pos s with
  | (_, rest) :: _ => Some (pos, rest)
  | [] =>
      match s with
      | [] => None
      | _ :: s' => search re (S pos) s'
      end
  end.

(** [re.test(s)]. *)
Definition test (re : RegExp) (s : jsstring) : bool :=
  match search re 0 s with Some _ => true | None => false end.

(** [s.replace(re, by)], for a pattern without the [g] flag. *)
Definition replace (re : RegExp) (s by_ : jsstring) : jsstring :=
  match search re 0 s with
  | Some (start, rest) => firstn start s ++ by_ ++ rest
  | None => s
  end.

(** The pattern of a literal text. *)
Fixpoint text (s : jsstring) : regex :=
  match s with
  | [] => Eps
  | c :: s' => Seq (Atom (Chr c)) (text s')
  end.

End Regex.

(** ** Target resolver (target.ts) *)

Module Target.
Import Regex.

Record WecomTarget := {
  touser : option jsstring;
  toparty : option jsstring;
  totag : option jsstring;
  chatid : option jsstring
}.

Definition noTarget : WecomTarget :=
  {| touser := None; toparty := None; totag := None; chatid := None |}.

(** /^(wecom-agent|wecom|wechatwork|wework|qywx):/i *)
Definition namespace_re : RegExp :=
  {| source :=
       Seq Bol
         (Seq (Alt (text (lit "wecom-agent"))
              (Alt (text (lit "wecom"))
              (Alt (text (lit "wechatwork"))
              (Alt (text (lit "wework")) (text (lit "qywx"))))))
              (text (lit ":")));
     ignoreCase := true |}.

(** /^party:/i and its siblings *)
Definition prefix_re (p : string) : RegExp :=
  {| source := Seq Bol (text (lit p)); ignoreCase := true |}.

(** /^(wr|wc)/i *)
Definition chat_re : RegExp :=
  {| source := Seq Bol (Alt (text (lit "wr")) (text (lit "wc")));
     ignoreCase := true |}.

(** /^\d+$/ *)
Definition digits_re : RegExp :=
  {| source := Seq Bol (Seq (Plus Digit) Eol); ignoreCase := false |}.

Definition resolveWecomTarget (raw : option jsstring) : option WecomTarget :=
  match raw with
  | None => None
  | Some raw =>
      if negb (truthy (trim raw)) then None else
      let clean := replace namespace_re (trim raw) [] in
      if test (prefix_re "party:") clean then
        Some {| touser := None; totag := None; chatid := None;
                toparty := Some (trim (replace (prefix_re "party:") clean [])) |}
      else if test (prefix_re "dept:") clean then
        Some {| touser := None; totag := None; chatid := None;
                toparty := Some (trim (replace (prefix_re "dept:") clean [])) |}
      else if test (prefix_re "tag:") clean then
        Some {| touser := None; toparty := None; chatid := None;
                totag := Some (trim (replace (prefix_re "tag:") clean [])) |}
      else if test (prefix_re "group:") clean then
        Some {| touser := None; toparty := None; totag := None;
                chatid := Some (trim (replace (prefix_re "group:") clean [])) |}
      else if test (prefix_re "chat:") clean then
        Some {| touser := None; toparty := None; totag := None;
                chatid := Some (trim (replace (prefix_re "chat:") clean [])) |}
      else if test (prefix_re "user:") clean then
        Some {| toparty := None; totag := None; chatid := None;
                touser := Some (trim (replace (prefix_re "user:") clean [])) |}
      else if test chat_re clean then
        Some {| touser := None; toparty := None; totag := None;
                chatid := Some clean |}
      else if test digits_re clean then
        Some {| touser := None; totag := None; chatid := None;
                toparty := Some clean |}
      else
        Some {| toparty := None; totag := None; chatid := None;
                touser := Some clean |}
  end.

End Target.

Example resolve_party :
  Target.resolveWecomTarget (Some (lit "wecom:Party: 12 ")) =
  Some {| Target.touser := None; Target.toparty := Some (lit "12");
          Target.totag := None; Target.chatid := None |}.
Proof. vm_compute. reflexivity. Qed.

Example resolve_digits :
  Target.resolveWecomTarget (Some (lit "1001")) =
  Some {| Target.touser := None; Target.toparty := Some (lit "1001");
          Target.totag := None; Target.chatid := None |}.
Proof. vm_compute. reflexivity. Qed.

Example resolve_blank : Target.resolveWecomTarget (Some (lit "  ")) = None.
Proof. vm_compute. reflexivity. Qed.

Example resolve_upper_chat :
  Target.resolveWecomTarget (Some (lit "WR1")) =
  Some {| Target.touser := None; Target.toparty := None;
          Target.totag := None; Target.chatid := Some (lit "WR1") |}.
Proof. vm_compute. reflexivity. Qed.

(** *** The resolver's rules as the specification words them *)

Module TargetSpec.

Inductive kind := User | Department | Tag | Chat.

Definition lower (c : N) : N :=
  if (0x41 <=? c) && (c <=? 0x5A) then c + 0x20 else c.

(** [s] starts with [p], letter case apart. *)
Fixpoint has_prefix_ci (p s : jsstring) : bool :=
  match p, s with
  | [], _ => true
  | a :: p', c :: s' => (lower c =? lower a) && has_prefix_ci p' s'
  | _ :: _, [] => false
  end.

Definition namespaces : list jsstring :=
  [lit "wecom-agent:"; lit "wecom:"; lit "wechatwork:"; lit "wework:"; lit "qywx:"].

(** Strip one leading namespace prefix, if there is one. *)
Fixpoint strip_first (ps : list jsstring) (s : jsstring) : jsstring :=
  match ps with
  | [] => s
  | p :: ps' => if has_prefix_ci p s then skipn (length p) s else strip_first ps' s
  end.

Definition strip_namespace (s : jsstring) : jsstring := strip_first namespaces s.

Definition is_digit (c : N) : bool := (0x30 <=? c) && (c <=? 0x39).

Definition all_digits (s : jsstring) : bool := truthy s && forallb is_digit s.

(** The rules with the chat heuristic read as the claim words it: a
    remainder starting with the lower-case letters [wr] or [wc]. *)
Definition claimed_kind (s : jsstring) : kind :=
  let r := strip_namespace s in
  if has_prefix_ci (lit "party:") r || has_prefix_ci (lit "dept:") r then Department
  else if has_prefix_ci (lit "tag:") r then Tag
  else if has_prefix_ci (lit "group:") r || has_prefix_ci (lit "chat:") r then Chat
  else if has_prefix_ci (lit "user:") r then User
  else if startsWith r (lit "wr") || startsWith r (lit "wc") then Chat
  else if all_digits r then Department
  else User.

(** The rules with the chat heuristic matched in either letter case. *)
Definition amended_kind (s : jsstring) : kind :=
  let r := strip_namespace s in
  if has_prefix_ci (lit "party:") r || has_prefix_ci (lit "dept:") r then Department
  else if has_prefix_ci (lit "tag:") r then Tag
  else if has_prefix_ci (lit "group:") r || has_prefix_ci (lit "chat:") r then Chat
  else if has_prefix_ci (lit "user:") r then User
  else if has_prefix_ci (lit "wr") r || has_prefix_ci (lit "wc") r then Chat
  else if all_digits r then Department
  else User.

(** The field of a target that a kind stands for. *)
Definition field (k : kind) (t : Target.WecomTarget) : option jsstring :=
  match k with
  | User => Target.touser t
  | Department => Target.toparty t
  | Tag => Target.totag t
  | Chat => Target.chatid t
  end.

Definition count_set (o : option jsstring) : nat :=
  match o with Some _ => 1 | None => 0 end.

(** How many of the four fields are set. *)
Definition fields_set (t : Target.WecomTarget) : nat :=
  (count_set (Target.touser t) + count_set (Target.toparty t)
   + count_set (Target.totag t) + count_set (Target.chatid t))%nat.

End TargetSpec.

Module TargetFacts.
Import Regex Target TargetSpec Utf8Facts.

Lemma canonicalize_lower (c p : N) :
  (canonicalize c =? canonicalize p) = (lower c =? lower p).
Proof.
  unfold canonicalize, lower.
  repeat match goal with
  | |- context [(?a <=? ?b)%N] => destruct (N.leb_spec a b)
  end; cbn [andb];
  match goal with
  | |- (?a =? ?b) = (?c =? ?d) =>
      destruct (N.eqb_spec a b), (N.eqb_spec c d); try reflexivity; lia
  end.
Qed.

Lemma states_text (p : jsstring) (pos : nat) (s : jsstring) :
  states true (text p) pos s =
  if has_prefix_ci p s then [((pos + length p)%nat, skipn (length p) s)] else [].
Proof.
  revert pos s. induction p as [|a p IH]; intros pos s; cbn.
  - rewrite Nat.add_0_r. reflexivity.
  - destruct s as [|c s]; [reflexivity|].
    rewrite canonicalize_lower.
    destruct (lower c =? lower a); cbn; [|reflexivity].
    rewrite app_nil_r, IH.
    destruct (has_prefix_ci p s); [|reflexivity].
    rewrite Nat.add_succ_r. reflexivity.
Qed.

Lemma search_bol_later (ic : bool) (r : regex) (pos : nat) (s : jsstring) :
  search {| source := Seq Bol r; ignoreCase := ic |} (S pos) s = None.
Proof.
  revert pos. induction s as [|c s IH]; intros pos; cbn; [reflexivity|].
  apply IH.
Qed.

Lemma search_bol (ic : bool) (r : regex) (s : jsstring) :
  search {| source := Seq Bol r; ignoreCase := ic |} 0 s =
  match states ic r 0 s with
  | st :: _ => Some (0%nat, snd st)
  | [] => None
  end.
Proof.
  destruct s as [|c s]; cbn; rewrite app_nil_r.
  - destruct (states ic r 0 []) as [|[? ?] ?]; reflexivity.
  - destruct (states ic r 0 (c :: s)) as [|[? ?] ?]; [|reflexivity].
    apply search_bol_later.
Qed.

Lemma test_prefix (p : string) (s : jsstring) :
  test (prefix_re p) s = has_prefix_ci (lit p) s.
Proof.
  unfold test, prefix_re. rewrite search_bol, states_text.
  destruct (has_prefix_ci (lit p) s); reflexivity.
Qed.

Lemma test_chat (s : jsstring) :
  test chat_re s = has_prefix_ci (lit "wr") s || has_prefix_ci (lit "wc") s.
Proof.
  unfold test, chat_re. rewrite search_bol. cbn [states].
  rewrite !states_text.
  destruct (has_prefix_ci (lit "wr") s), (has_prefix_ci (lit "wc") s); reflexivity.
Qed.

Lemma states_seq_text (p q : jsstring) (pos : nat) (s : jsstring) :
  states true (Seq (text p) (text q)) pos s = states true (text (p ++ q)) pos s.
Proof.
  revert pos s. induction p as [|a p IH]; intros pos s.
  - cbn. rewrite app_nil_r. reflexivity.
  - cbn [app text]. cbn [states] in *.
    destruct s as [|c s]; [reflexivity|].
    destruct (atom_matches true (Chr a) c); [|reflexivity].
    cbn [flat_map]. rewrite !app_nil_r. cbn [fst snd]. apply IH.
Qed.

Lemma states_namespace (pos : nat) (s : jsstring) :
  states true
    (Seq (Alt (text (lit "wecom-agent"))
         (Alt (text (lit "wecom"))
         (Alt (text (lit "wechatwork"))
         (Alt (text (lit "wework")) (text (lit "qywx"))))))
         (text (lit ":"))) pos s =
  flat_map (fun p => states true (text p) pos s) namespaces.
Proof.
  pose proof (states_seq_text (lit "wecom-agent") (lit ":") pos s) as H1.
  pose proof (states_seq_text (lit "wecom") (lit ":") pos s) as H2.
  pose proof (states_seq_text (lit "wechatwork") (lit ":") pos s) as H3.
  pose proof (states_seq_text (lit "wework") (lit ":") pos s) as H4.
  pose proof (states_seq_text (lit "qywx") (lit ":") pos s) as H5.
  cbn [states] in *. rewrite !flat_map_app, H1, H2, H3, H4, H5.
  unfold namespaces. cbn [flat_map]. rewrite app_nil_r.
  reflexivity.
Qed.

Lemma replace_namespace (s : jsstring) :
  replace namespace_re s [] = strip_namespace s.
Proof.
  unfold replace, namespace_re. rewrite search_bol, states_namespace.
  unfold strip_namespace. generalize namespaces as ps.
  induction ps as [|p ps IH]; [reflexivity|].
  cbn [flat_map strip_first]. rewrite states_text.
  destruct (has_prefix_ci p s); [reflexivity|]. exact IH.
Qed.

Lemma eol_after_digits (pos : nat) (s : jsstring) :
  flat_map (fun st => states false Eol (fst st) (snd st))
    (plus_states false Digit pos s) =
  if all_digits s then [((pos + length s)%nat, [])] else [].
Proof.
  revert pos. induction s as [|c s IH]; intros pos; [reflexivity|].
  cbn [plus_states]. change (atom_matches false Digit c) with (is_digit c).
  assert (Hall : all_digits (c :: s) =
                 is_digit c && match s with [] => true | _ :: _ => all_digits s end).
  { destruct s; reflexivity. }
  rewrite Hall. destruct (is_digit c); [|reflexivity]. cbn [andb].
  rewrite flat_map_app, IH. destruct s as [|d s].
  - cbn. rewrite Nat.add_1_r. reflexivity.
  - destruct (all_digits (d :: s)); cbn [flat_map fst snd states app length];
      rewrite ?Nat.add_succ_r; reflexivity.
Qed.

Lemma test_digits (s : jsstring) : test digits_re s = all_digits s.
Proof.
  unfold test, digits_re. rewrite search_bol. cbn [states].
  rewrite eol_after_digits. destruct (all_digits s); reflexivity.
Qed.

(** Whitespace-only input resolves to nothing. *)
Lemma resolveWecomTarget_blank (raw : jsstring) :
  trim raw = [] -> resolveWecomTarget (Some raw) = None.
Proof. intros H. unfold resolveWecomTarget. rewrite H. reflexivity. Qed.

(** C8, as amended: for every input that is not empty after trimming, the
    resolver returns a target with exactly one of the four fields set, and
    the field is the one the rules select on the trimmed input: one
    namespace prefix stripped, then the explicit prefixes, then the
    heuristics, all matched in either letter case. *)
Theorem resolveWecomTarget_one_field (raw : jsstring) :
  trim raw <> [] ->
  exists t,
    resolveWecomTarget (Some raw) = Some t
    /\ fields_set t = 1%nat
    /\ is_Some (field (amended_kind (trim raw)) t).
Proof.
  intros Hne. apply truthy_nonempty in Hne.
  unfold resolveWecomTarget, amended_kind. rewrite Hne. cbn [negb].
  rewrite replace_namespace, !test_prefix, test_chat, test_digits.
  generalize (strip_namespace (trim raw)) as r. intros r.
  repeat match goal with
  | |- context [has_prefix_ci ?p r] => destruct (has_prefix_ci p r)
  end;
  try destruct (all_digits r);
  cbn [orb]; eexists; (split; [reflexivity|]); split;
    solve [reflexivity | eexists; reflexivity].
Qed.

Lemma resolveWecomTarget_one_field_witness :
  trim (lit " qywx:Dept:7") <> []
  /\ exists t,
       resolveWecomTarget (Some (lit " qywx:Dept:7")) = Some t
       /\ fields_set t = 1%nat
       /\ is_Some (field (amended_kind (trim (lit " qywx:Dept:7"))) t).
Proof.
  assert (H : trim (lit " qywx:Dept:7") <> []) by (vm_compute; discriminate).
  split; [exact H|]. exact (resolveWecomTarget_one_field _ H).
Defined.

(** C8 as stated fails on two inputs: a non-empty input of white space
    yields no target at all, and a remainder starting with upper-case [WR],
    which the stated rules send to a user, is resolved to a chat. *)
Lemma resolveWecomTarget_claim_fails :
  (lit " " <> [] /\ resolveWecomTarget (Some (lit " ")) = None)
  /\ (claimed_kind (lit "WR1") = User
      /\ resolveWecomTarget (Some (lit "WR1")) =
         Some {| touser := None; toparty := None; totag := None;
                 chatid := Some (lit "WR1") |}).
Proof.
  split; split; try (vm_compute; reflexivity). vm_compute. discriminate.
Qed.

End TargetFacts.

(** ** Stream and conversation store (monitor/state.ts) *)

(** [buf.toString("hex")]. *)
Definition hex_digit (n : N) : N := if n <? 10 then 0x30 + n else 0x57 + n.

Definition Buffer_toString_hex (bs : Buffer) : jsstring :=
  flat_map (fun b => [hex_digit (Byte.to_N b / 16); hex_digit (Byte.to_N b mod 16)]) bs.

(** [String(n)] for a non-negative integer: its decimal digits. *)
Fixpoint decimal_digits (fuel : nat) (n : N) (acc : jsstring) : jsstring :=
  match fuel with
  | O => acc
  | S fuel' =>
      let acc' := (0x30 + n mod 10) :: acc in
      if n <? 10 then acc' else decimal_digits fuel' (n / 10) acc'
  end.

Definition String_of_N (n : N) : jsstring :=
  decimal_digits (S (N.to_nat (N.log2 n))) n [].

Module Limits.
Definition STREAM_TTL_MS : Z := 10 * 60 * 1000.
Definition ACTIVE_REPLY_TTL_MS : Z := 60 * 60 * 1000.
Definition DEFAULT_DEBOUNCE_MS : Z := 500.
Definition STREAM_MAX_BYTES : N := 20480.
Definition REQUEST_TIMEOUT_MS : Z := 15000.
Definition TOKEN_REFRESH_BUFFER_MS : Z := 60000.
End Limits.

(** The fields of an inbound Bot message that the store and the handler
    read. *)
Module Msg.
Record t := {
  msgid : option jsstring;
  msgtype : option jsstring;
  chattype : option jsstring;
  chatid : option jsstring;
  response_url : option jsstring;
  from_userid : option jsstring;      (* msg.from?.userid *)
  legacy_userid : option jsstring;    (* fromuserid ?? from_userid ?? fromUserId *)
  stream_id : option jsstring;        (* msg.stream?.id *)
  event_eventtype : option jsstring   (* msg.event?.eventtype *)
}.
End Msg.

(** The fields of a webhook target that the handler reads. *)
Module WebhookTarget.
Record t := {
  accountId : jsstring;
  streamPlaceholderContent : option jsstring;
  welcomeText : option jsstring;
  debounceMs : option Z;
  egressProxyUrl : option jsstring
}.
End WebhookTarget.

Module StreamState.
Inductive fallback := media | timeout | error.
Record t := {
  streamId : jsstring;
  msgid : option jsstring;
  conversationKey : option jsstring;
  batchKey : option jsstring;
  createdAt : Z;
  updatedAt : Z;
  started : bool;
  finished : bool;
  content : jsstring;
  images : list (jsstring * jsstring);   (* base64, md5; absent = empty *)
  fallbackMode : option fallback;
  dmContent : option jsstring
}.

Definition touch (now : Z) (s : t) : t :=
  {| streamId := streamId s; msgid := msgid s;
     conversationKey := conversationKey s; batchKey := batchKey s;
     createdAt := createdAt s; updatedAt := now;
     started := started s; finished := finished s; content := content s;
     images := images s; fallbackMode := fallbackMode s;
     dmContent := dmContent s |}.

Definition set_started (b : bool) (s : t) : t :=
  {| streamId := streamId s; msgid := msgid s;
     conversationKey := conversationKey s; batchKey := batchKey s;
     createdAt := createdAt s; updatedAt := updatedAt s;
     started := b; finished := finished s; content := content s;
     images := images s; fallbackMode := fallbackMode s;
     dmContent := dmContent s |}.

Definition set_finished (b : bool) (s : t) : t :=
  {| streamId := streamId s; msgid := msgid s;
     conversationKey := conversationKey s; batchKey := batchKey s;
     createdAt := createdAt s; updatedAt := updatedAt s;
     started := started s; finished := b; content := content s;
     images := images s; fallbackMode := fallbackMode s;
     dmContent := dmContent s |}.

Definition set_content (c : jsstring) (s : t) : t :=
  {| streamId := streamId s; msgid := msgid s;
     conversationKey := conversationKey s; batchKey := batchKey s;
     createdAt := createdAt s; updatedAt := updatedAt s;
     started := started s; finished := finished s; content := c;
     images := images s; fallbackMode := fallbackMode s;
     dmContent := dmContent s |}.
End StreamState.

Module PendingInbound.
Record t := {
  streamId : jsstring;
  conversationKey : jsstring;
  batchKey : jsstring;
  target : WebhookTarget.t;
  msg : Msg.t;
  contents : list jsstring;
  msgids : list jsstring;
  nonce : jsstring;
  timestamp : jsstring;
  timeout : option nat;        (* the timer handle, or null *)
  readyToFlush : bool;         (* absent = false *)
  createdAt : Z
}.

(** [contents.push(c)], [msgids.push(m)] when there is one, and a new
    timer handle: the in-place changes of a merge. *)
Definition merge (c : jsstring) (m : list jsstring) (h : nat) (p : t) : t :=
  {| streamId := streamId p; conversationKey := conversationKey p;
     batchKey := batchKey p; target := target p; msg := msg p;
     contents := contents p ++ [c]; msgids := msgids p ++ m;
     nonce := nonce p; timestamp := timestamp p;
     timeout := Some h; readyToFlush := readyToFlush p;
     createdAt := createdAt p |}.

Definition set_flush (h : option nat) (ready : bool) (p : t) : t :=
  {| streamId := streamId p; conversationKey := conversationKey p;
     batchKey := batchKey p; target := target p; msg := msg p;
     contents := contents p; msgids := msgids p;
     nonce := nonce p; timestamp := timestamp p;
     timeout := h; readyToFlush := ready;
     createdAt := createdAt p |}.
End PendingInbound.

Module Conversation.
Record t := {
  activeBatchKey : jsstring;
  queue : list jsstring;
  nextSeq : N
}.
End Conversation.

Module Store.

Inductive status := active_new | active_merged | queued_new | queued_merged.

(** The maps of [StreamStore], the timers it has set and not yet cleared or
    seen fire, and the calls it has made to the flush handler. *)
Record StreamStore := {
  streams : gmap (list N) StreamState.t;
  msgidToStreamId : gmap (list N) (list N);
  pendingInbounds : gmap (list N) PendingInbound.t;
  conversationState : gmap (list N) Conversation.t;
  streamIdToBatchKey : gmap (list N) (list N);
  batchStreamIdToAckStreamIds : gmap (list N) (list (list N));
  timers : gmap nat (list N * Z);   (* handle : batch key to flush, delay *)
  nextTimer : nat;
  flushed : list PendingInbound.t   (* arguments of onFlush, oldest first *)
}.

Definition empty : StreamStore :=
  {| streams := ∅; msgidToStreamId := ∅; pendingInbounds := ∅;
     conversationState := ∅; streamIdToBatchKey := ∅;
     batchStreamIdToAckStreamIds := ∅; timers := ∅; nextTimer := 0;
     flushed := [] |}.

Definition with_streams (f : gmap (list N) StreamState.t -> gmap (list N) StreamState.t)
  (st : StreamStore) : StreamStore :=
  {| streams := f (streams st); msgidToStreamId := msgidToStreamId st;
     pendingInbounds := pendingInbounds st;
     conversationState := conversationState st;
     streamIdToBatchKey := streamIdToBatchKey st;
     batchStreamIdToAckStreamIds := batchStreamIdToAckStreamIds st;
     timers := timers st; nextTimer := nextTimer st; flushed := flushed st |}.

Definition with_msgids (f : gmap (list N) (list N) -> gmap (list N) (list N))
  (st : StreamStore) : StreamStore :=
  {| streams := streams st; msgidToStreamId := f (msgidToStreamId st);
     pendingInbounds := pendingInbounds st;
     conversationState := conversationState st;
     streamIdToBatchKey := streamIdToBatchKey st;
     batchStreamIdToAckStreamIds := batchStreamIdToAckStreamIds st;
     timers := timers st; nextTimer := nextTimer st; flushed := flushed st |}.

Definition with_pending
  (f : gmap (list N) PendingInbound.t -> gmap (list N) PendingInbound.t)
  (st : StreamStore) : StreamStore :=
  {| streams := streams st; msgidToStreamId := msgidToStreamId st;
     pendingInbounds := f (pendingInbounds st);
     conversationState := conversationState st;
     streamIdToBatchKey := streamIdToBatchKey st;
     batchStreamIdToAckStreamIds := batchStreamIdToAckStreamIds st;
     timers := timers st; nextTimer := nextTimer st; flushed := flushed st |}.

Definition with_conversations
  (f : gmap (list N) Conversation.t -> gmap (list N) Conversation.t)
  (st : StreamStore) : StreamStore :=
  {| streams := streams st; msgidToStreamId := msgidToStreamId st;
     pendingInbounds := pendingInbounds st;
     conversationState := f (conversationState st);
     streamIdToBatchKey := streamIdToBatchKey st;
     batchStreamIdToAckStreamIds := batchStreamIdToAckStreamIds st;
     timers := timers st; nextTimer := nextTimer st; flushed := flushed st |}.

Definition with_batches (f : gmap (list N) (list N) -> gmap (list N) (list N))
  (st : StreamStore) : StreamStore :=
  {| streams := streams st; msgidToStreamId := msgidToStreamId st;
     pendingInbounds := pendingInbounds st;
     conversationState := conversationState st;
     streamIdToBatchKey := f (streamIdToBatchKey st);
     batchStreamIdToAckStreamIds := batchStreamIdToAckStreamIds st;
     timers := timers st; nextTimer := nextTimer st; flushed := flushed st |}.

Definition with_acks
  (f : gmap (list N) (list (list N)) -> gmap (list N) (list (list N)))
  (st : StreamStore) : StreamStore :=
  {| streams := streams st; msgidToStreamId := msgidToStreamId st;
     pendingInbounds := pendingInbounds st;
     conversationState := conversationState st;
     streamIdToBatchKey := streamIdToBatchKey st;
     batchStreamIdToAckStreamIds := f (batchStreamIdToAckStreamIds st);
     timers := timers st; nextTimer := nextTimer st; flushed := flushed st |}.

(** [setTimeout(() => this.requestFlush(batchKey), ms)]: the handle. *)
Definition setTimeout (batchKey : jsstring) (ms : Z) (st : StreamStore)
  : StreamStore * nat :=
  ({| streams := streams st; msgidToStreamId := msgidToStreamId st;
      pendingInbounds := pendingInbounds st;
      conversationState := conversationState st;
      streamIdToBatchKey := streamIdToBatchKey st;
      batchStreamIdToAckStreamIds := batchStreamIdToAckStreamIds st;
      timers := <[nextTimer st := (batchKey, ms)]> (timers st);
      nextTimer := S (nextTimer st); flushed := flushed st |},
   nextTimer st).

(** [if (h) clearTimeout(h)]. *)
Definition clearTimeout (h : option nat) (st : StreamStore) : StreamStore :=
  match h with
  | None => st
  | Some h =>
      {| streams := streams st; msgidToStreamId := msgidToStreamId st;
         pendingInbounds := pendingInbounds st;
         conversationState := conversationState st;
         streamIdToBatchKey := streamIdToBatchKey st;
         batchStreamIdToAckStreamIds := batchStreamIdToAckStreamIds st;
         timers := delete h (timers st);
         nextTimer := nextTimer st; flushed := flushed st |}
  end.

(** [this.onFlush(pending)]. *)
Definition onFlush (p : PendingInbound.t) (st : StreamStore) : StreamStore :=
  {| streams := streams st; msgidToStreamId := msgidToStreamId st;
     pendingInbounds := pendingInbounds st;
     conversationState := conversationState st;
     streamIdToBatchKey := streamIdToBatchKey st;
     batchStreamIdToAckStreamIds := batchStreamIdToAckStreamIds st;
     timers := timers st; nextTimer := nextTimer st;
     flushed := flushed st ++ [p] |}.

(** An optional string that is present and not empty. *)
Definition truthy_opt (o : option jsstring) : option jsstring :=
  match o with
  | Some s => if truthy s then Some s else None
  | None => None
  end.

Record createStreamParams := {
  cs_msgid : option jsstring;
  cs_conversationKey : option jsstring;
  cs_batchKey : option jsstring
}.

(** [createStream(params)]; [rnd] is what [crypto.randomBytes(16)] returns
    and [now] what [Date.now()] does. *)
Definition createStream (params : createStreamParams) (rnd : Buffer) (now : Z)
  (st : StreamStore) : StreamStore * jsstring :=
  let streamId := Buffer_toString_hex rnd in
  let st1 :=
    match truthy_opt (cs_msgid params) with
    | Some m => with_msgids (insert m streamId) st
    | None => st
    end in
  let st2 :=
    with_streams (insert streamId
      {| StreamState.streamId := streamId;
         StreamState.msgid := cs_msgid params;
         StreamState.conversationKey := cs_conversationKey params;
         StreamState.batchKey := cs_batchKey params;
         StreamState.createdAt := now; StreamState.updatedAt := now;
         StreamState.started := false; StreamState.finished := false;
         StreamState.content := [];
         StreamState.images := []; StreamState.fallbackMode := None;
         StreamState.dmContent := None |}) st1 in
  let st3 :=
    match truthy_opt (cs_batchKey params) with
    | Some b => with_batches (insert streamId b) st2
    | None => st2
    end in
  (st3, streamId).

Definition getStream (streamId : jsstring) (st : StreamStore)
  : option StreamState.t := streams st !! streamId.

Definition getStreamByMsgId (msgid : jsstring) (st : StreamStore)
  : option jsstring := msgidToStreamId st !! msgid.

Definition setStreamIdForMsgId (msgid streamId : jsstring) (st : StreamStore)
  : StreamStore :=
  let key := trim msgid in
  let value := trim streamId in
  if negb (truthy key) || negb (truthy value) then st
  else with_msgids (insert key value) st.

Definition addAckStreamForBatch (batchStreamId ackStreamId : jsstring)
  (st : StreamStore) : StreamStore :=
  let b := trim batchStreamId in
  let a := trim ackStreamId in
  if negb (truthy b) || negb (truthy a) then st
  else
    let l := default [] (batchStreamIdToAckStreamIds st !! b) in
    with_acks (insert b (l ++ [a])) st.

Definition drainAckStreamsForBatch (batchStreamId : jsstring)
  (st : StreamStore) : StreamStore * list jsstring :=
  let key := trim batchStreamId in
  if negb (truthy key) then (st, [])
  else
    (with_acks (delete key) st,
     default [] (batchStreamIdToAckStreamIds st !! key)).

(** [updateStream(streamId, mutator)]. *)
Definition updateStream (streamId : jsstring)
  (mutator : StreamState.t -> StreamState.t) (now : Z) (st : StreamStore)
  : StreamStore :=
  match streams st !! streamId with
  | Some s => with_streams (insert streamId (StreamState.touch now (mutator s))) st
  | None => st
  end.

Definition markStarted (streamId : jsstring) (now : Z) :=
  updateStream streamId (StreamState.set_started true) now.

Definition markFinished (streamId : jsstring) (now : Z) :=
  updateStream streamId (StreamState.set_finished true) now.

Record addPendingParams := {
  ap_conversationKey : jsstring;
  ap_target : WebhookTarget.t;
  ap_msg : Msg.t;
  ap_msgContent : jsstring;
  ap_nonce : jsstring;
  ap_timestamp : jsstring;
  ap_debounceMs : option Z
}.

(** [msg.msgid ? [msg.msgid] : []]. *)
Definition msgid_list (m : Msg.t) : list jsstring :=
  match truthy_opt (Msg.msgid m) with Some x => [x] | None => [] end.

(** A new batch: its stream, its pending entry and its debounce timer. *)
Definition newBatch (params : addPendingParams) (batchKey : jsstring)
  (rnd : Buffer) (now : Z) (st : StreamStore) : StreamStore * jsstring :=
  let '(st1, streamId) :=
    createStream {| cs_msgid := Msg.msgid (ap_msg params);
                    cs_conversationKey := Some (ap_conversationKey params);
                    cs_batchKey := Some batchKey |} rnd now st in
  let '(st2, h) :=
    setTimeout batchKey (default Limits.DEFAULT_DEBOUNCE_MS (ap_debounceMs params)) st1 in
  let pending :=
    {| PendingInbound.streamId := streamId;
       PendingInbound.conversationKey := ap_conversationKey params;
       PendingInbound.batchKey := batchKey;
       PendingInbound.target := ap_target params;
       PendingInbound.msg := ap_msg params;
       PendingInbound.contents := [ap_msgContent params];
       PendingInbound.msgids := msgid_list (ap_msg params);
       PendingInbound.nonce := ap_nonce params;
       PendingInbound.timestamp := ap_timestamp params;
       PendingInbound.timeout := Some h;
       PendingInbound.readyToFlush := false;
       PendingInbound.createdAt := now |} in
  (with_pending (insert batchKey pending) st2, streamId).

(** The merge of a message into the pending entry stored under [key]. *)
Definition mergeInto (params : addPendingParams) (key : jsstring)
  (p : PendingInbound.t) (st : StreamStore) : StreamStore :=
  let st1 := clearTimeout (PendingInbound.timeout p) st in
  let '(st2, h) :=
    setTimeout key (default Limits.DEFAULT_DEBOUNCE_MS (ap_debounceMs params)) st1 in
  with_pending
    (insert key (PendingInbound.merge (ap_msgContent params)
                   (msgid_list (ap_msg params)) h p)) st2.

(** The active pending entry that accepts a merge: the active batch is not
    the initial one, is still pending, and its stream has not started. *)
Definition mergeableActive (conversationKey : jsstring) (conv : Conversation.t)
  (st : StreamStore) : option PendingInbound.t :=
  let activeBatchKey := Conversation.activeBatchKey conv in
  match pendingInbounds st !! activeBatchKey with
  | Some activePending =>
      if bool_decide (activeBatchKey = conversationKey) then None
      else
        let activeStarted :=
          match streams st !! PendingInbound.streamId activePending with
          | Some s => StreamState.started s
          | None => false
          end in
        if activeStarted then None else Some activePending
  | None => None
  end.

(** The queued pending entry: [state.queue[0]] when it is a non-empty key
    with a pending entry. *)
Definition queuedPending (conv : Conversation.t) (st : StreamStore)
  : option (jsstring * PendingInbound.t) :=
  match truthy_opt (head (Conversation.queue conv)) with
  | Some queuedBatchKey =>
      match pendingInbounds st !! queuedBatchKey with
      | Some existingQueued => Some (queuedBatchKey, existingQueued)
      | None => None
      end
  | None => None
  end.

Definition addPendingMessage (params : addPendingParams) (rnd : Buffer)
  (now : Z) (st : StreamStore) : StreamStore * (jsstring * status) :=
  let conversationKey := ap_conversationKey params in
  match conversationState st !! conversationKey with
  | None =>
      let batchKey := conversationKey in
      let '(st1, streamId) := newBatch params batchKey rnd now st in
      (with_conversations
         (insert conversationKey
            {| Conversation.activeBatchKey := batchKey;
               Conversation.queue := []; Conversation.nextSeq := 1 |}) st1,
       (streamId, active_new))
  | Some state =>
      match mergeableActive conversationKey state st with
      | Some activePending =>
          (mergeInto params (Conversation.activeBatchKey state) activePending st,
           (PendingInbound.streamId activePending, active_merged))
      | None =>
          match queuedPending state st with
          | Some (queuedBatchKey, existingQueued) =>
              (mergeInto params queuedBatchKey existingQueued st,
               (PendingInbound.streamId existingQueued, queued_merged))
          | None =>
              let seq := Conversation.nextSeq state in
              let batchKey := conversationKey ++ lit "#q" ++ String_of_N seq in
              let state' :=
                {| Conversation.activeBatchKey := Conversation.activeBatchKey state;
                   Conversation.queue := [batchKey];
                   Conversation.nextSeq := seq + 1 |} in
              let '(st1, streamId) := newBatch params batchKey rnd now st in
              (with_conversations (insert conversationKey state') st1,
               (streamId, queued_new))
          end
      end
  end.

(** [flushPending(pendingKey)]. *)
Definition flushPending (pendingKey : jsstring) (st : StreamStore) : StreamStore :=
  match pendingInbounds st !! pendingKey with
  | None => st
  | Some pending =>
      let st1 := with_pending (delete pendingKey) st in
      let st2 := clearTimeout (PendingInbound.timeout pending) st1 in
      onFlush (PendingInbound.set_flush None false pending) st2
  end.

(** [requestFlush(batchKey)]. *)
Definition requestFlush (batchKey : jsstring) (st : StreamStore) : StreamStore :=
  match pendingInbounds st !! batchKey with
  | None => st
  | Some pending =>
      let isActive :=
        match conversationState st !! PendingInbound.conversationKey pending with
        | Some state => bool_decide (Conversation.activeBatchKey state = batchKey)
        | None => false
        end in
      if isActive then flushPending batchKey st
      else
        let st1 := clearTimeout (PendingInbound.timeout pending) st in
        with_pending
          (insert batchKey (PendingInbound.set_flush None true pending)) st1
  end.

(** A timer set by the store runs out: its callback is [requestFlush]. *)
Definition fireTimer (h : nat) (st : StreamStore) : StreamStore :=
  match timers st !! h with
  | None => st
  | Some (batchKey, _) =>
      (* the spent timer leaves the timer table before its callback runs *)
      requestFlush batchKey (clearTimeout (Some h) st)
  end.

(** The conversation whose active batch [streamId] belongs to, as
    [onStreamFinished] resolves it. *)
Definition activeConversationOf (streamId : jsstring) (st : StreamStore)
  : option (jsstring * Conversation.t) :=
  match truthy_opt (streamIdToBatchKey st !! streamId) with
  | None => None
  | Some batchKey =>
      match streams st !! streamId with
      | None => None
      | Some state =>
          match truthy_opt (StreamState.conversationKey state) with
          | None => None
          | Some conversationKey =>
              match conversationState st !! conversationKey with
              | None => None
              | Some conv =>
                  if bool_decide (Conversation.activeBatchKey conv = batchKey)
                  then Some (conversationKey, conv)
                  else None
              end
          end
      end
  end.

(** [onStreamFinished(streamId)]. *)
Definition onStreamFinished (streamId : jsstring) (st : StreamStore) : StreamStore :=
  match activeConversationOf streamId st with
  | None => st
  | Some (conversationKey, conv) =>
      match truthy_opt (head (Conversation.queue conv)) with
      | None => with_conversations (delete conversationKey) st
      | Some next =>
          let conv' :=
            {| Conversation.activeBatchKey := next;
               Conversation.queue := tail (Conversation.queue conv);
               Conversation.nextSeq := Conversation.nextSeq conv |} in
          let st1 := with_conversations (insert conversationKey conv') st in
          match pendingInbounds st1 !! next with
          | None => st1
          | Some pending =>
              if PendingInbound.readyToFlush pending
              then flushPending next st1
              else st1
          end
      end
  end.

(** The tests of [prune]: a stream not updated since the cutoff, and a
    pending entry older than the time to live. *)
Definition stream_expired (streamCutoff : Z) (s : StreamState.t) : bool :=
  (StreamState.updatedAt s <? streamCutoff)%Z.

Definition pending_expired (now : Z) (p : PendingInbound.t) : bool :=
  (Limits.STREAM_TTL_MS <? now - PendingInbound.createdAt p)%Z.

(** [prune(now)], loop by loop: the expired streams go, each with the
    msg-id mapping that still points to it; then the mappings to streams
    that are gone; then the expired pending entries, their timers cleared;
    then the conversation entries whose active batch is known neither to the
    pending entries nor to the batch map and whose queue is empty. *)
Definition prune (now : Z) (st : StreamStore) : StreamStore :=
  let streamCutoff := (now - Limits.STREAM_TTL_MS)%Z in
  let streams' :=
    filter (fun kv => stream_expired streamCutoff (snd kv) = false) (streams st) in
  let msgids1 :=
    filter (fun kv =>
              match streams st !! snd kv with
              | Some s =>
                  stream_expired streamCutoff s
                  && bool_decide (truthy_opt (StreamState.msgid s) = Some (fst kv))
              | None => false
              end = false)
      (msgidToStreamId st) in
  let msgids2 :=
    filter (fun kv => bool_decide (is_Some (streams' !! snd kv)) = true) msgids1 in
  let pending' :=
    filter (fun kv => pending_expired now (snd kv) = false) (pendingInbounds st) in
  let cleared (h : nat) : bool :=
    existsb (fun kv => pending_expired now (snd kv)
                       && bool_decide (PendingInbound.timeout (snd kv) = Some h))
      (map_to_list (pendingInbounds st)) in
  let timers' := filter (fun kv => cleared (fst kv) = false) (timers st) in
  let activeExists (conv : Conversation.t) : bool :=
    bool_decide (is_Some (pending' !! Conversation.activeBatchKey conv))
    || existsb (fun kv => bool_decide (snd kv = Conversation.activeBatchKey conv))
         (map_to_list (streamIdToBatchKey st)) in
  let hasQueue (conv : Conversation.t) : bool :=
    negb (length (Conversation.queue conv) =? 0)%nat in
  let conversations' :=
    filter (fun kv => negb (activeExists (snd kv)) && negb (hasQueue (snd kv)) = false)
      (conversationState st) in
  {| streams := streams'; msgidToStreamId := msgids2;
     pendingInbounds := pending';
     conversationState := conversations';
     streamIdToBatchKey := streamIdToBatchKey st;
     batchStreamIdToAckStreamIds := batchStreamIdToAckStreamIds st;
     timers := timers'; nextTimer := nextTimer st; flushed := flushed st |}.

End Store.

(** *** Runs of the store and the states they reach *)

Module StoreRun.
Import Store.

(** [rnd] is sixteen bytes, as [crypto.randomBytes(16)] returns them, and
    the identifier they encode is new to the store: no stream, batch or
    pending entry carries it. *)
Definition fresh (rnd : Buffer) (st : StreamStore) : Prop :=
  let sid := Buffer_toString_hex rnd in
  length rnd = 16%nat
  /\ streams st !! sid = None
  /\ streamIdToBatchKey st !! sid = None
  /\ forall k p, pendingInbounds st !! k = Some p -> PendingInbound.streamId p <> sid.

(** The calls made on a store, by the webhook handler, the agent driver,
    the timers and the periodic pruning. *)
Inductive command :=
| AddPendingMessage (params : addPendingParams) (rnd : Buffer) (now : Z)
| TimerFires (h : nat)
| OnStreamFinished (streamId : jsstring)
| UpdateStream (streamId : jsstring) (mutator : StreamState.t -> StreamState.t) (now : Z)
| CreateStream (msgid : option jsstring) (rnd : Buffer) (now : Z)
| SetStreamIdForMsgId (msgid streamId : jsstring)
| AddAckStreamForBatch (batchStreamId ackStreamId : jsstring)
| DrainAckStreamsForBatch (batchStreamId : jsstring)
| Prune (now : Z).

Definition exec (c : command) (st : StreamStore) : StreamStore :=
  match c with
  | AddPendingMessage params rnd now => fst (addPendingMessage params rnd now st)
  | TimerFires h => fireTimer h st
  | OnStreamFinished streamId => onStreamFinished streamId st
  | UpdateStream streamId mutator now => updateStream streamId mutator now st
  | CreateStream msgid rnd now =>
      fst (createStream {| cs_msgid := msgid; cs_conversationKey := None;
                           cs_batchKey := None |} rnd now st)
  | SetStreamIdForMsgId msgid streamId => setStreamIdForMsgId msgid streamId st
  | AddAckStreamForBatch b a => addAckStreamForBatch b a st
  | DrainAckStreamsForBatch b => fst (drainAckStreamsForBatch b st)
  | Prune now => prune now st
  end.

(** What a command draws from the random source has to be new. *)
Definition draws_fresh (c : command) (st : StreamStore) : Prop :=
  match c with
  | AddPendingMessage _ rnd _ => fresh rnd st
  | CreateStream _ rnd _ => fresh rnd st
  | _ => True
  end.

Inductive reachable : StreamStore -> Prop :=
| reachable_empty : reachable Store.empty
| reachable_step c st :
    reachable st -> draws_fresh c st -> reachable (exec c st).

Fixpoint run (cs : list command) (st : StreamStore) : StreamStore :=
  match cs with
  | [] => st
  | c :: cs' => run cs' (exec c st)
  end.

(** The invariants of the reachable states.  For the pending entries:
    the store attributes the entry's stream to the entry's batch, entries
    under different keys have different streams, a stream identifier is not
    empty and has no white space around it, an entry that is not ready
    to flush has a live timer that will request its flush, and a timer
    handle held by an entry was set for that entry's key. *)
Record pending_ok
  (pend : gmap (list N) PendingInbound.t) (batches : gmap (list N) (list N))
  (tm : gmap nat (list N * Z)) (next : nat) : Prop := {
  pending_batch :
    forall k p, pend !! k = Some p -> k <> [] ->
      batches !! PendingInbound.streamId p = Some k;
  pending_streams_distinct :
    forall k1 k2 p1 p2, pend !! k1 = Some p1 -> pend !! k2 = Some p2 ->
      PendingInbound.streamId p1 = PendingInbound.streamId p2 -> k1 = k2;
  pending_ids :
    forall k p, pend !! k = Some p ->
      trim (PendingInbound.streamId p) = PendingInbound.streamId p
      /\ PendingInbound.streamId p <> [];
  timer_armed :
    forall k p, pend !! k = Some p -> PendingInbound.readyToFlush p = false ->
      exists h d, PendingInbound.timeout p = Some h /\ tm !! h = Some (k, d);
  timer_handles :
    forall h x, tm !! h = Some x -> (h < next)%nat;
  timer_owner :
    forall k p h, pend !! k = Some p -> PendingInbound.timeout p = Some h ->
      (h < next)%nat /\ (tm !! h = None \/ exists d, tm !! h = Some (k, d))
}.

(** For the conversation entries: a queued batch key differs from the
    conversation's own key and is not empty, and at most one is queued. *)
Record queues_ok (convs : gmap (list N) Conversation.t) : Prop := {
  queue_keys :
    forall c conv q, convs !! c = Some conv ->
      q ∈ Conversation.queue conv -> q <> c /\ q <> [];
  queue_short :
    forall c conv, convs !! c = Some conv ->
      (length (Conversation.queue conv) <= 1)%nat
}.

Definition consistent (st : StreamStore) : Prop :=
  pending_ok (pendingInbounds st) (streamIdToBatchKey st) (timers st) (nextTimer st)
  /\ queues_ok (conversationState st).

End StoreRun.

(** *** The invariants are kept *)

Module StoreInvariants.
Import Store StoreRun.

Lemma pending_ok_empty : pending_ok ∅ ∅ ∅ 0.
Proof. split; intros *; rewrite ?lookup_empty; intros; discriminate. Qed.

Lemma queues_ok_empty : queues_ok ∅.
Proof. split; intros *; rewrite lookup_empty; intros; discriminate. Qed.

Section PendingSteps.
Variables (pend : gmap (list N) PendingInbound.t) (batches : gmap (list N) (list N)).
Variables (tm : gmap nat (list N * Z)) (next : nat).
Hypothesis Hok : pending_ok pend batches tm next.

Lemma pending_ok_delete (k : jsstring) :
  pending_ok (delete k pend) batches tm next.
Proof.
  destruct Hok as [H1 H2 Hid H3 H4 H5].
  split; intros *; rewrite ?lookup_delete_Some; intros; destruct_and?; eauto.
Qed.

(** A timer set for key [k] may be cleared, or fire, once no entry at [k]
    still waits for it. *)
Lemma pending_ok_clear (k : jsstring) (h : nat) :
  (forall p, pend !! k = Some p -> PendingInbound.readyToFlush p = true) ->
  (tm !! h = None \/ exists d, tm !! h = Some (k, d)) ->
  pending_ok pend batches (delete h tm) next.
Proof.
  intros Hready Hh. destruct Hok as [H1 H2 Hid H3 H4 H5].
  split; eauto.
  - intros k' p Hp Hnr. destruct (H3 k' p Hp Hnr) as (h' & d & Ht & Hl).
    exists h', d. split; [exact Ht|].
    rewrite lookup_delete_ne; [exact Hl|]. intros ->.
    destruct Hh as [Hh|[d' Hh]]; rewrite Hh in Hl; [discriminate|].
    injection Hl as -> ->. rewrite (Hready p Hp) in Hnr. discriminate.
  - intros h' x. rewrite lookup_delete_Some. intros [_ Hl]. eauto.
  - intros k' p h' Hp Ht. destruct (H5 k' p h' Hp Ht) as [Hlt Hl].
    split; [exact Hlt|]. destruct (decide (h = h')) as [->|Hne].
    + left. apply lookup_delete_eq.
    + rewrite lookup_delete_ne by exact Hne. exact Hl.
Qed.

(** The entry at [k] gives up its timer and is marked ready. *)
Lemma pending_ok_ready (k : jsstring) (p p' : PendingInbound.t) :
  pend !! k = Some p ->
  PendingInbound.streamId p' = PendingInbound.streamId p ->
  PendingInbound.timeout p' = None ->
  PendingInbound.readyToFlush p' = true ->
  pending_ok (<[k := p']> pend) batches tm next.
Proof.
  intros Hp Hsid Hto Hr. destruct Hok as [H1 H2 Hid H3 H4 H5].
  split; eauto.
  - intros k' q. rewrite lookup_insert_Some.
    intros [[<- <-]|[_ Hq]] Hne; [rewrite Hsid|]; eauto.
  - intros k1 k2 q1 q2. rewrite !lookup_insert_Some.
    intros [[<- <-]|[? Hq1]] [[<- <-]|[? Hq2]]; rewrite ?Hsid; eauto.
  - intros k' q. rewrite lookup_insert_Some.
    intros [[<- <-]|[_ Hq]]; [rewrite Hsid|]; eauto.
  - intros k' q. rewrite lookup_insert_Some.
    intros [[<- <-]|[_ Hq]] Hnr; [congruence|eauto].
  - intros k' q h. rewrite lookup_insert_Some.
    intros [[<- <-]|[_ Hq]] Ht; [congruence|eauto].
Qed.

(** The entry stored at [k] is given the next timer handle. *)
Lemma pending_ok_arm (k : jsstring) (p' : PendingInbound.t) (d : Z) :
  (k <> [] -> batches !! PendingInbound.streamId p' = Some k) ->
  (forall k2 p2, pend !! k2 = Some p2 ->
     PendingInbound.streamId p2 = PendingInbound.streamId p' -> k2 = k) ->
  (trim (PendingInbound.streamId p') = PendingInbound.streamId p'
   /\ PendingInbound.streamId p' <> []) ->
  PendingInbound.timeout p' = Some next ->
  pending_ok (<[k := p']> pend) batches (<[next := (k, d)]> tm) (S next).
Proof.
  intros Hb Hd Hshape Hto. destruct Hok as [H1 H2 Hid H3 H4 H5].
  assert (Hfree : tm !! next = None).
  { destruct (tm !! next) eqn:E; [|reflexivity]. apply H4 in E. lia. }
  split.
  - intros k' q. rewrite lookup_insert_Some.
    intros [[<- <-]|[_ Hq]] Hne; eauto.
  - intros k1 k2 q1 q2. rewrite !lookup_insert_Some.
    intros [[<- <-]|[? Hq1]] [[<- <-]|[? Hq2]] E; eauto.
    symmetry. eauto.
  - intros k' q. rewrite lookup_insert_Some.
    intros [[<- <-]|[_ Hq]]; eauto.
  - intros k' q. rewrite lookup_insert_Some.
    intros [[<- <-]|[_ Hq]] Hnr.
    + exists next, d. split; [exact Hto|]. apply lookup_insert_eq.
    + destruct (H3 k' q Hq Hnr) as (h & d' & Ht & Hl).
      exists h, d'. split; [exact Ht|].
      rewrite lookup_insert_ne; [exact Hl|]. intros <-. congruence.
  - intros h x. rewrite lookup_insert_Some.
    intros [[<- _]|[_ Hl]]; [lia|]. apply H4 in Hl. lia.
  - intros k' q h. rewrite lookup_insert_Some.
    intros [[<- <-]|[_ Hq]] Ht.
    + rewrite Hto in Ht. injection Ht as <-. split; [lia|].
      right. exists d. apply lookup_insert_eq.
    + destruct (H5 k' q h Hq Ht) as [Hlt Hl]. split; [lia|].
      rewrite lookup_insert_ne by lia. exact Hl.
Qed.

(** A stream that no pending entry carries is attributed to a batch. *)
Lemma pending_ok_attribute (sid b : jsstring) :
  (forall k p, pend !! k = Some p -> PendingInbound.streamId p <> sid) ->
  pending_ok pend (<[sid := b]> batches) tm next.
Proof.
  intros Hsid. destruct Hok as [H1 H2 Hid H3 H4 H5].
  split; eauto.
  intros k p Hp Hne. rewrite lookup_insert_ne; eauto.
  intros E. exact (Hsid k p Hp (eq_sym E)).
Qed.

End PendingSteps.

Lemma owner_delete (tm : gmap nat (list N * Z)) (k : jsstring) (h a : nat) :
  (tm !! a = None \/ exists d, tm !! a = Some (k, d)) ->
  delete h tm !! a = None \/ exists d, delete h tm !! a = Some (k, d).
Proof.
  intros Ha. destruct (decide (h = a)) as [->|Hne].
  - left. apply lookup_delete_eq.
  - rewrite lookup_delete_ne by exact Hne. exact Ha.
Qed.

Section QueueSteps.
Variable convs : gmap (list N) Conversation.t.
Hypothesis Hok : queues_ok convs.

Lemma queues_ok_delete (c : jsstring) : queues_ok (delete c convs).
Proof.
  destruct Hok as [H1 H2].
  split; intros *; rewrite lookup_delete_Some; intros [_ ?]; eauto.
Qed.

Lemma queues_ok_insert (c : jsstring) (conv : Conversation.t) :
  (forall q, q ∈ Conversation.queue conv -> q <> c /\ q <> []) ->
  (length (Conversation.queue conv) <= 1)%nat ->
  queues_ok (<[c := conv]> convs).
Proof.
  intros Hq Hl. destruct Hok as [H1 H2].
  split; intros *; rewrite lookup_insert_Some; intros [[<- <-]|[_ ?]]; eauto.
Qed.

End QueueSteps.

Lemma trimStart_head (u : N) (s : jsstring) :
  is_white_space u = false -> trimStart (u :: s) = u :: s.
Proof. intros H. cbn. rewrite H. reflexivity. Qed.

(** A string without white space is its own trim. *)
Lemma trim_no_white_space (s : jsstring) :
  Forall (fun u => is_white_space u = false) s -> trim s = s.
Proof.
  intros Hs. unfold trim, trimEnd.
  assert (Hstart : forall t, Forall (fun u => is_white_space u = false) t ->
                     trimStart t = t).
  { intros t Ht. destruct Ht; [reflexivity|]. apply trimStart_head. assumption. }
  rewrite (Hstart s Hs). rewrite Hstart; [apply reverse_involutive|].
  apply Forall_reverse. exact Hs.
Qed.

Lemma hex_digit_no_white_space (n : N) :
  n < 16 -> is_white_space (hex_digit n) = false.
Proof.
  intros Hn. unfold hex_digit, is_white_space.
  destruct (N.ltb_spec n 10);
    repeat match goal with
    | |- context [(?a <=? ?b)%N] => destruct (N.leb_spec a b); try lia
    | |- context [(?a =? ?b)%N] => destruct (N.eqb_spec a b); try lia
    end; reflexivity.
Qed.

Lemma hex_no_white_space (bs : Buffer) :
  Forall (fun u => is_white_space u = false) (Buffer_toString_hex bs).
Proof.
  unfold Buffer_toString_hex. induction bs as [|b bs IH]; cbn [flat_map app].
  - constructor.
  - pose proof (Byte.to_N_bounded b) as Hb.
    pose proof (N.div_mod (Byte.to_N b) 16 ltac:(lia)) as Hd.
    pose proof (N.mod_lt (Byte.to_N b) 16 ltac:(lia)) as Hm.
    remember (Byte.to_N b / 16) as q eqn:Eq.
    remember (Byte.to_N b mod 16) as r eqn:Er.
    repeat constructor; try assumption; apply hex_digit_no_white_space; lia.
Qed.

(** The identifier of sixteen random bytes: not empty, nothing to trim. *)
Lemma hex_id_shape (rnd : Buffer) :
  length rnd = 16%nat ->
  trim (Buffer_toString_hex rnd) = Buffer_toString_hex rnd
  /\ Buffer_toString_hex rnd <> [].
Proof.
  intros Hl. split; [apply trim_no_white_space, hex_no_white_space|].
  destruct rnd; [discriminate|]. discriminate.
Qed.

Lemma lit_queue_mark : lit "#q" = [35; 113].
Proof. reflexivity. Qed.

(** The key of a queued batch is longer than the conversation key. *)
Lemma queued_key_fresh (c : jsstring) (seq : N) :
  c ++ lit "#q" ++ String_of_N seq <> c /\ c ++ lit "#q" ++ String_of_N seq <> [].
Proof.
  rewrite lit_queue_mark. split; intros E.
  - apply (f_equal length) in E. rewrite length_app in E. cbn in E. lia.
  - destruct c; discriminate.
Qed.

Lemma truthy_opt_Some (o : option jsstring) (s : jsstring) :
  truthy_opt o = Some s -> o = Some s /\ s <> [].
Proof.
  destruct o as [x|]; cbn; [|discriminate].
  destruct x; cbn; [discriminate|]. intros [= <-]. split; congruence.
Qed.

Lemma truthy_opt_Some_iff (s : jsstring) :
  s <> [] -> truthy_opt (Some s) = Some s.
Proof. destruct s; cbn; congruence. Qed.

(** [createStream] keeps the invariants when the identifier is new. *)
Lemma consistent_createStream params rnd now st :
  consistent st -> fresh rnd st ->
  consistent (fst (createStream params rnd now st)).
Proof.
  intros [Hp Hq] (_ & _ & _ & Hf). unfold createStream.
  destruct (truthy_opt (cs_msgid params)), (truthy_opt (cs_batchKey params));
    cbn; split; try assumption; apply pending_ok_attribute; assumption.
Qed.

Lemma consistent_newBatch params k rnd now st :
  consistent st -> fresh rnd st ->
  consistent (fst (newBatch params k rnd now st)).
Proof.
  intros [Hp Hq] (Hlen & _ & _ & Hf). unfold newBatch, createStream, setTimeout.
  pose proof (hex_id_shape rnd Hlen) as Hshape.
  cbn [cs_batchKey cs_msgid cs_conversationKey].
  assert (Hnew : forall k2 p2, pendingInbounds st !! k2 = Some p2 ->
            PendingInbound.streamId p2 = Buffer_toString_hex rnd -> k2 = k).
  { intros k2 p2 Hp2 E. exfalso. exact (Hf k2 p2 Hp2 E). }
  destruct (truthy_opt (Some k)) as [k'|] eqn:Ek.
  - apply truthy_opt_Some in Ek as [[= <-] Hk].
    destruct (truthy_opt (Msg.msgid _)); cbn; (split; [|assumption]).
    all: apply pending_ok_arm; cbn;
      [apply pending_ok_attribute; assumption
      |intros _; apply lookup_insert_eq|exact Hnew|exact Hshape|reflexivity].
  - assert (Hk : k = []).
    { destruct k; [reflexivity|discriminate]. }
    destruct (truthy_opt (Msg.msgid _)); cbn; (split; [|assumption]).
    all: apply pending_ok_arm; cbn;
      [assumption|intros Hne; congruence|exact Hnew|exact Hshape|reflexivity].
Qed.

Lemma consistent_mergeInto params k p st :
  consistent st -> pendingInbounds st !! k = Some p ->
  consistent (mergeInto params k p st).
Proof.
  intros [Hp Hq] Hk. unfold mergeInto, setTimeout, clearTimeout.
  pose proof Hp as [H1 H2 Hid H3 H4 H5].
  set (p0 := PendingInbound.set_flush None true p).
  assert (Hr : pending_ok (<[k := p0]> (pendingInbounds st))
                 (streamIdToBatchKey st) (timers st) (nextTimer st)).
  { apply (pending_ok_ready _ _ _ _ Hp k p); [assumption|reflexivity..]. }
  assert (Hready : forall q, <[k := p0]> (pendingInbounds st) !! k = Some q ->
                     PendingInbound.readyToFlush q = true).
  { intros q. rewrite lookup_insert_eq. intros [= <-]. reflexivity. }
  assert (Hfinal : forall tm',
    pending_ok (<[k := p0]> (pendingInbounds st)) (streamIdToBatchKey st) tm' (nextTimer st) ->
    forall d m c,
    pending_ok
      (<[k := PendingInbound.merge c m (nextTimer st) p]> (pendingInbounds st))
      (streamIdToBatchKey st) (<[nextTimer st := (k, d)]> tm') (S (nextTimer st))).
  { intros tm' Hok d m c.
    replace (<[k := PendingInbound.merge c m (nextTimer st) p]> (pendingInbounds st))
      with (<[k := PendingInbound.merge c m (nextTimer st) p]>
              (<[k := p0]> (pendingInbounds st)))
      by apply insert_insert_eq.
    apply pending_ok_arm; [exact Hok| | | |reflexivity].
    - intros Hne. cbn. eauto.
    - intros k2 p2. rewrite lookup_insert_Some. cbn.
      intros [[<- <-]|[_ Hp2]] E; eauto.
    - cbn. eauto. }
  destruct (PendingInbound.timeout p) as [h|] eqn:Eh; cbn;
    (split; [|assumption]); apply Hfinal; [|exact Hr].
  apply (pending_ok_clear _ _ _ _ Hr k h Hready).
  destruct (H5 k p h Hk Eh) as [_ Hown]. exact Hown.
Qed.

Lemma consistent_flushPending k st :
  consistent st -> consistent (flushPending k st).
Proof.
  intros [Hp Hq]. unfold flushPending, onFlush, clearTimeout.
  destruct (pendingInbounds st !! k) as [p|] eqn:Hk; [|split; assumption].
  pose proof Hp as [H1 H2 Hid H3 H4 H5].
  pose proof (pending_ok_delete _ _ _ _ Hp k) as Hd.
  destruct (PendingInbound.timeout p) as [h|] eqn:Eh; cbn;
    (split; [|assumption]); [|exact Hd].
  apply (pending_ok_clear _ _ _ _ Hd k h).
  - intros q. rewrite lookup_delete_eq. discriminate.
  - destruct (H5 k p h Hk Eh) as [_ Hown]. exact Hown.
Qed.

Lemma consistent_requestFlush k st :
  consistent st -> consistent (requestFlush k st).
Proof.
  intros Hc. unfold requestFlush.
  destruct (pendingInbounds st !! k) as [p|] eqn:Hk; [|assumption].
  match goal with |- consistent (if ?b then _ else _) => destruct b end;
    [apply consistent_flushPending; assumption|].
  destruct Hc as [Hp Hq]. unfold clearTimeout.
  pose proof Hp as [H1 H2 Hid H3 H4 H5].
  set (p0 := PendingInbound.set_flush None true p).
  assert (Hr : pending_ok (<[k := p0]> (pendingInbounds st))
                 (streamIdToBatchKey st) (timers st) (nextTimer st)).
  { apply (pending_ok_ready _ _ _ _ Hp k p); [assumption|reflexivity..]. }
  destruct (PendingInbound.timeout p) as [h|] eqn:Eh; cbn;
    (split; [|assumption]); [|exact Hr].
  apply (pending_ok_clear _ _ _ _ Hr k h).
  - intros q. rewrite lookup_insert_eq. intros [= <-]. reflexivity.
  - destruct (H5 k p h Hk Eh) as [_ Hown]. exact Hown.
Qed.

Lemma consistent_fired k h st :
  consistent st ->
  (timers st !! h = None \/ exists d, timers st !! h = Some (k, d)) ->
  consistent (requestFlush k (clearTimeout (Some h) st)).
Proof.
  intros [Hp Hq] Hh. unfold requestFlush, flushPending, onFlush. cbn.
  pose proof Hp as [H1 H2 Hid H3 H4 H5].
  destruct (pendingInbounds st !! k) as [p|] eqn:Hk.
  - assert (Hown : forall a, PendingInbound.timeout p = Some a ->
        delete h (timers st) !! a = None
        \/ exists d, delete h (timers st) !! a = Some (k, d)).
    { intros a Ea. apply owner_delete. destruct (H5 k p a Hk Ea) as [_ Ho]. exact Ho. }
    match goal with |- consistent (if ?b then _ else _) => destruct b end.
    + cbn.
      pose proof (pending_ok_delete _ _ _ _ Hp k) as Hd.
      assert (Hnone : forall q, delete k (pendingInbounds st) !! k = Some q ->
                PendingInbound.readyToFlush q = true).
      { intros q. rewrite lookup_delete_eq. discriminate. }
      pose proof (pending_ok_clear _ _ _ _ Hd k h Hnone Hh) as Hc.
      destruct (PendingInbound.timeout p) as [a|] eqn:Ea; cbn;
        (split; [|assumption]); [|exact Hc].
      apply (pending_ok_clear _ _ _ _ Hc k a Hnone). apply Hown. reflexivity.
    + set (p0 := PendingInbound.set_flush None true p).
      assert (Hr : pending_ok (<[k := p0]> (pendingInbounds st))
                     (streamIdToBatchKey st) (timers st) (nextTimer st)).
      { apply (pending_ok_ready _ _ _ _ Hp k p); [assumption|reflexivity..]. }
      assert (Hready : forall q, <[k := p0]> (pendingInbounds st) !! k = Some q ->
                PendingInbound.readyToFlush q = true).
      { intros q. rewrite lookup_insert_eq. intros [= <-]. reflexivity. }
      pose proof (pending_ok_clear _ _ _ _ Hr k h Hready Hh) as Hc.
      destruct (PendingInbound.timeout p) as [a|] eqn:Ea; cbn;
        (split; [|assumption]); [|exact Hc].
      apply (pending_ok_clear _ _ _ _ Hc k a Hready). apply Hown. reflexivity.
  - split; [|assumption]. cbn. apply (pending_ok_clear _ _ _ _ Hp k h); [|exact Hh].
    intros q Hq'. congruence.
Qed.

Lemma consistent_fireTimer h st : consistent st -> consistent (fireTimer h st).
Proof.
  intros Hc. unfold fireTimer.
  destruct (timers st !! h) as [[k d]|] eqn:Eh; [|assumption].
  apply consistent_fired; [assumption|]. right. exists d. exact Eh.
Qed.

Lemma activeConversationOf_Some sid st c conv :
  activeConversationOf sid st = Some (c, conv) ->
  conversationState st !! c = Some conv
  /\ streamIdToBatchKey st !! sid = Some (Conversation.activeBatchKey conv)
  /\ Conversation.activeBatchKey conv <> []
  /\ c <> []
  /\ exists s, streams st !! sid = Some s /\ StreamState.conversationKey s = Some c.
Proof.
  unfold activeConversationOf.
  destruct (truthy_opt (streamIdToBatchKey st !! sid)) as [b|] eqn:Eb; [|discriminate].
  destruct (streams st !! sid) as [s|] eqn:Es; [|discriminate].
  destruct (truthy_opt (StreamState.conversationKey s)) as [c'|] eqn:Ec; [|discriminate].
  destruct (conversationState st !! c') as [conv'|] eqn:Ecv; [|discriminate].
  case_bool_decide as Hact; [|discriminate]. intros [= <- <-].
  apply truthy_opt_Some in Eb as [Eb Hb]. apply truthy_opt_Some in Ec as [Ec Hc].
  subst b. repeat split; eauto.
Qed.

Lemma consistent_onStreamFinished sid st :
  consistent st -> consistent (onStreamFinished sid st).
Proof.
  intros Hc. unfold onStreamFinished.
  destruct (activeConversationOf sid st) as [[c conv]|] eqn:Ea; [|assumption].
  apply activeConversationOf_Some in Ea as (Hcv & _).
  destruct Hc as [Hp Hq]. pose proof Hq as [K1 K2].
  destruct (truthy_opt (head (Conversation.queue conv))) as [next|] eqn:En.
  - set (st1 := with_conversations _ st).
    assert (H1 : consistent st1).
    { split; [exact Hp|]. cbn. apply queues_ok_insert; [assumption| |]; cbn.
      - intros q Hin. apply (K1 c conv q Hcv).
        destruct (Conversation.queue conv); [inversion Hin|].
        apply elem_of_cons. right. exact Hin.
      - specialize (K2 c conv Hcv).
        destruct (Conversation.queue conv); cbn in *; lia. }
    destruct (pendingInbounds st1 !! next) as [p|]; [|exact H1].
    destruct (PendingInbound.readyToFlush p); [|exact H1].
    apply consistent_flushPending. exact H1.
  - split; [exact Hp|]. cbn. apply queues_ok_delete. assumption.
Qed.

Lemma mergeableActive_Some c conv st p :
  mergeableActive c conv st = Some p ->
  pendingInbounds st !! Conversation.activeBatchKey conv = Some p
  /\ Conversation.activeBatchKey conv <> c.
Proof.
  unfold mergeableActive.
  destruct (pendingInbounds st !! Conversation.activeBatchKey conv) as [ap|];
    [|discriminate].
  case_bool_decide; [discriminate|].
  destruct (streams st !! PendingInbound.streamId ap) as [s|];
    [destruct (StreamState.started s)|]; try discriminate;
    intros [= <-]; split; auto.
Qed.

Lemma queuedPending_Some conv st q p :
  queuedPending conv st = Some (q, p) ->
  pendingInbounds st !! q = Some p
  /\ head (Conversation.queue conv) = Some q /\ q <> [].
Proof.
  unfold queuedPending.
  destruct (truthy_opt (head (Conversation.queue conv))) as [q'|] eqn:Eq;
    [|discriminate].
  destruct (pendingInbounds st !! q') as [p'|] eqn:Ep; [|discriminate].
  intros [= <- <-]. apply truthy_opt_Some in Eq as [Eq Hq]. auto.
Qed.

Lemma consistent_addPendingMessage params rnd now st :
  consistent st -> fresh rnd st ->
  consistent (fst (addPendingMessage params rnd now st)).
Proof.
  intros Hc Hf. unfold addPendingMessage.
  destruct (conversationState st !! ap_conversationKey params) as [state|] eqn:Ecv.
  - destruct (mergeableActive _ state st) as [ap|] eqn:Ema.
    { apply mergeableActive_Some in Ema as [Hap _]. cbn.
      apply consistent_mergeInto; assumption. }
    destruct (queuedPending state st) as [[q pq]|] eqn:Eqp.
    { apply queuedPending_Some in Eqp as [Hpq _]. cbn.
      apply consistent_mergeInto; assumption. }
    pose proof (consistent_newBatch params
      (ap_conversationKey params ++ lit "#q" ++ String_of_N (Conversation.nextSeq state))
      rnd now st Hc Hf) as Hn.
    destruct (newBatch params _ rnd now st) as [st1 sid]. cbn in *.
    destruct Hn as [Hp Hq]. split; [exact Hp|]. cbn.
    apply queues_ok_insert; [assumption| |cbn; lia]. cbn.
    intros q Hin. apply list_elem_of_singleton in Hin as ->.
    apply queued_key_fresh.
  - pose proof (consistent_newBatch params (ap_conversationKey params)
      rnd now st Hc Hf) as Hn.
    destruct (newBatch params _ rnd now st) as [st1 sid]. cbn in *.
    destruct Hn as [Hp Hq]. split; [exact Hp|]. cbn.
    apply queues_ok_insert; [assumption| |cbn; lia]. cbn.
    intros q Hin. inversion Hin.
Qed.

(** Pruning takes entries away and clears the timers of the pending
    entries it takes. *)
Lemma consistent_prune now st : consistent st -> consistent (prune now st).
Proof.
  intros [[H1 H2 Hid H3 H4 H5] [K1 K2]]. unfold prune.
  split; split;
    cbn [pendingInbounds streamIdToBatchKey timers nextTimer conversationState].
  - intros k p Hp Hk. apply map_lookup_filter_Some in Hp as [Hp _]. eauto.
  - intros k1 k2 p1 p2 Hp1 Hp2.
    apply map_lookup_filter_Some in Hp1 as [Hp1 _].
    apply map_lookup_filter_Some in Hp2 as [Hp2 _]. eauto.
  - intros k p Hp. apply map_lookup_filter_Some in Hp as [Hp _]. eauto.
  - intros k p Hp Hr. apply map_lookup_filter_Some in Hp as [Hp Hlive].
    cbn [snd] in Hlive.
    destruct (H3 k p Hp Hr) as (h & d & Ht & Htm). exists h, d.
    split; [exact Ht|]. apply map_lookup_filter_Some. split; [exact Htm|].
    cbn [fst]. apply not_true_iff_false. intros Hex.
    apply existsb_exists in Hex as ([k' p'] & Hin & Hb).
    apply list_elem_of_In, elem_of_map_to_list in Hin. cbn [snd] in Hb.
    apply andb_true_iff in Hb as [Hexp Hto]. apply bool_decide_eq_true in Hto.
    destruct (H5 k' p' h Hin Hto) as [_ [Hn|[d' Hs]]]; [congruence|].
    assert (k' = k) by congruence. subst k'.
    assert (p' = p) by congruence. subst p'. congruence.
  - intros h x Hx. apply map_lookup_filter_Some in Hx as [Hx _]. eauto.
  - intros k p h Hp Ht. apply map_lookup_filter_Some in Hp as [Hp _].
    destruct (H5 k p h Hp Ht) as [Hlt Hor]. split; [exact Hlt|].
    match goal with |- ?m !! h = None \/ _ => destruct (m !! h) as [x|] eqn:E end;
      [right|left; reflexivity].
    apply map_lookup_filter_Some in E as [E _].
    destruct Hor as [Hn|[d Hs]]; [congruence|]. exists d. congruence.
  - intros c conv q Hc. apply map_lookup_filter_Some in Hc as [Hc _]. eauto.
  - intros c conv Hc. apply map_lookup_filter_Some in Hc as [Hc _]. eauto.
Qed.

Lemma consistent_exec c st :
  consistent st -> draws_fresh c st -> consistent (exec c st).
Proof.
  intros Hc Hf. destruct c; cbn [exec draws_fresh] in *.
  - apply consistent_addPendingMessage; assumption.
  - apply consistent_fireTimer; assumption.
  - apply consistent_onStreamFinished; assumption.
  - unfold updateStream. destruct (streams st !! streamId); exact Hc.
  - apply consistent_createStream; assumption.
  - unfold setStreamIdForMsgId.
    match goal with |- consistent (if ?b then _ else _) => destruct b end; exact Hc.
  - unfold addAckStreamForBatch.
    match goal with |- consistent (if ?b then _ else _) => destruct b end; exact Hc.
  - unfold drainAckStreamsForBatch.
    match goal with |- consistent (fst (if ?b then _ else _)) => destruct b end; exact Hc.
  - apply consistent_prune; assumption.
Qed.

(** Every reachable state is consistent. *)
Lemma reachable_consistent st : reachable st -> consistent st.
Proof.
  induction 1 as [|c st _ IH Hf].
  - split; [apply pending_ok_empty|apply queues_ok_empty].
  - apply consistent_exec; assumption.
Qed.

End StoreInvariants.

(** *** Queue semantics of the store *)

Module StoreFacts.
Import Store StoreRun StoreInvariants.

Definition is_none {A : Type} (o : option A) : bool :=
  match o with None => true | Some _ => false end.

(** [fresh], computed. *)
Definition freshb (rnd : Buffer) (st : StreamStore) : bool :=
  let sid := Buffer_toString_hex rnd in
  Nat.eqb (length rnd) 16
  && is_none (streams st !! sid)
  && is_none (streamIdToBatchKey st !! sid)
  && forallb (fun kp => negb (bool_decide (PendingInbound.streamId (snd kp) = sid)))
       (map_to_list (pendingInbounds st)).

Definition draws_freshb (c : command) (st : StreamStore) : bool :=
  match c with
  | AddPendingMessage _ rnd _ => freshb rnd st
  | CreateStream _ rnd _ => freshb rnd st
  | _ => true
  end.

Fixpoint run_freshb (cs : list command) (st : StreamStore) : bool :=
  match cs with
  | [] => true
  | c :: cs' => draws_freshb c st && run_freshb cs' (exec c st)
  end.

Lemma freshb_fresh rnd st : freshb rnd st = true -> fresh rnd st.
Proof.
  unfold freshb, fresh. rewrite !andb_true_iff. intros [[[H0 H1] H2] H3].
  repeat split.
  - apply Nat.eqb_eq. exact H0.
  - destruct (streams st !! _); [discriminate|reflexivity].
  - destruct (streamIdToBatchKey st !! _); [discriminate|reflexivity].
  - intros k p Hp E. rewrite forallb_forall in H3.
    specialize (H3 (k, p)). cbn in H3.
    rewrite bool_decide_eq_true_2 in H3 by exact E.
    assert (In (k, p) (map_to_list (pendingInbounds st))) as Hin.
    { apply list_elem_of_In. apply elem_of_map_to_list. exact Hp. }
    specialize (H3 Hin). discriminate.
Qed.

Lemma draws_freshb_fresh c st : draws_freshb c st = true -> draws_fresh c st.
Proof. destruct c; cbn; auto using freshb_fresh. Qed.

Lemma reachable_run cs st :
  reachable st -> run_freshb cs st = true -> reachable (run cs st).
Proof.
  revert st. induction cs as [|c cs IH]; intros st Hr; cbn; [auto|].
  rewrite andb_true_iff. intros [Hc Hcs]. apply IH; [|exact Hcs].
  apply reachable_step; [exact Hr|]. apply draws_freshb_fresh. exact Hc.
Qed.

(** The streams of a batch: the one its pending entry carries and those
    the store attributes to it, which is how [onStreamFinished] finds the
    batch of a stream. *)
Definition batch_stream (st : StreamStore) (batchKey a : jsstring) : Prop :=
  streamIdToBatchKey st !! a = Some batchKey
  \/ exists p, pendingInbounds st !! batchKey = Some p
               /\ PendingInbound.streamId p = a.

Lemma newBatch_pending params k rnd now st :
  pendingInbounds (fst (newBatch params k rnd now st))
  = <[k := {| PendingInbound.streamId := Buffer_toString_hex rnd;
       PendingInbound.conversationKey := ap_conversationKey params;
       PendingInbound.batchKey := k;
       PendingInbound.target := ap_target params;
       PendingInbound.msg := ap_msg params;
       PendingInbound.contents := [ap_msgContent params];
       PendingInbound.msgids := msgid_list (ap_msg params);
       PendingInbound.nonce := ap_nonce params;
       PendingInbound.timestamp := ap_timestamp params;
       PendingInbound.timeout := Some (nextTimer st);
       PendingInbound.readyToFlush := false;
       PendingInbound.createdAt := now |}]> (pendingInbounds st)
  /\ snd (newBatch params k rnd now st) = Buffer_toString_hex rnd
  /\ conversationState (fst (newBatch params k rnd now st)) = conversationState st.
Proof.
  unfold newBatch, createStream, setTimeout.
  destruct (truthy_opt (cs_msgid _)), (truthy_opt (cs_batchKey _)); cbn; auto.
Qed.

Lemma mergeInto_pending params k p st :
  pendingInbounds (mergeInto params k p st)
  = <[k := PendingInbound.merge (ap_msgContent params)
             (msgid_list (ap_msg params)) (nextTimer st) p]> (pendingInbounds st)
  /\ conversationState (mergeInto params k p st) = conversationState st
  /\ msgidToStreamId (mergeInto params k p st) = msgidToStreamId st
  /\ streams (mergeInto params k p st) = streams st.
Proof.
  unfold mergeInto, setTimeout, clearTimeout.
  destruct (PendingInbound.timeout p); cbn; auto.
Qed.

(** C1: when the active batch of a conversation is its initial batch, a
    further message is never merged into it.  The call returns a stream
    other than the active batch's, with status [queued_new] when the
    conversation has no queued batch pending and [queued_merged] when it
    has one, and the pending entry of the initial batch (its contents and
    msg-ids with it) is what it was. *)
Theorem addPendingMessage_initial_active
  (st : StreamStore) (params : addPendingParams) (rnd : Buffer) (now : Z)
  (conv : Conversation.t) :
  reachable st ->
  fresh rnd st ->
  conversationState st !! ap_conversationKey params = Some conv ->
  Conversation.activeBatchKey conv = ap_conversationKey params ->
  let result := addPendingMessage params rnd now st in
  snd (snd result) =
    match queuedPending conv st with
    | Some _ => queued_merged
    | None => queued_new
    end
  /\ (forall a, batch_stream st (ap_conversationKey params) a ->
        fst (snd result) <> a)
  /\ pendingInbounds (fst result) !! ap_conversationKey params
     = pendingInbounds st !! ap_conversationKey params.
Proof.
  intros Hr Hf Hcv Hact result. subst result.
  apply reachable_consistent in Hr as [[I1 J1 _ _ _ _] [K1 _]].
  unfold addPendingMessage. rewrite Hcv.
  assert (Hma : mergeableActive (ap_conversationKey params) conv st = None).
  { unfold mergeableActive. rewrite Hact.
    destruct (pendingInbounds st !! _); [|reflexivity].
    rewrite bool_decide_eq_true_2 by reflexivity. reflexivity. }
  rewrite Hma.
  destruct (queuedPending conv st) as [[q pq]|] eqn:Eq.
  - apply queuedPending_Some in Eq as (Hpq & Hhead & Hq).
    assert (Hqc : q <> ap_conversationKey params).
    { apply (K1 _ conv q Hcv).
      destruct (Conversation.queue conv) as [|q' l]; [discriminate|].
      injection Hhead as ->. apply elem_of_cons. left. reflexivity. }
    destruct (mergeInto_pending params q pq st) as (Ep & _).
    cbn [fst snd]. split; [reflexivity|]. split.
    + intros a [Ha|(p & Hp & Ha)] E.
      * rewrite <- E in Ha. rewrite (I1 q pq Hpq Hq) in Ha. congruence.
      * apply Hqc. apply (J1 q _ pq p Hpq Hp). congruence.
    + rewrite Ep. apply lookup_insert_ne. exact Hqc.
  - destruct (queued_key_fresh (ap_conversationKey params)
                (Conversation.nextSeq conv)) as [Hk _].
    destruct (newBatch_pending params
      (ap_conversationKey params ++ lit "#q" ++ String_of_N (Conversation.nextSeq conv))
      rnd now st) as (Ep & Es & _).
    destruct (newBatch params _ rnd now st) as [st1 sid]. cbn in *.
    split; [reflexivity|]. subst sid. split.
    + destruct Hf as (_ & _ & Hf2 & Hf3).
      intros a [Ha|(p & Hp & Ha)] E.
      * rewrite <- E in Ha. congruence.
      * exact (Hf3 _ p Hp (eq_trans Ha (eq_sym E))).
    + rewrite Ep. apply lookup_insert_ne. exact Hk.
Qed.

(** Inputs for the examples: three messages of conversation [a] and one of
    a conversation whose key is [a]'s first queued batch key. *)
Definition demo_target : WebhookTarget.t :=
  {| WebhookTarget.accountId := lit "default";
     WebhookTarget.streamPlaceholderContent := None;
     WebhookTarget.welcomeText := None;
     WebhookTarget.debounceMs := Some 10%Z;
     WebhookTarget.egressProxyUrl := None |}.

Definition demo_msg (id : string) : Msg.t :=
  {| Msg.msgid := Some (lit id); Msg.msgtype := Some (lit "text");
     Msg.chattype := None; Msg.chatid := None; Msg.response_url := None;
     Msg.from_userid := Some (lit "U"); Msg.legacy_userid := None;
     Msg.stream_id := None; Msg.event_eventtype := None |}.

Definition demo_params (conversationKey id : string) : addPendingParams :=
  {| ap_conversationKey := lit conversationKey; ap_target := demo_target;
     ap_msg := demo_msg id; ap_msgContent := lit id;
     ap_nonce := lit "n"; ap_timestamp := lit "t";
     ap_debounceMs := Some 10%Z |}.

(** Sixteen random bytes, all of value [n]. *)
Definition demo_random (n : N) : Buffer := repeat (byte_of_N n) 16.

Definition one_message : list command :=
  [AddPendingMessage (demo_params "a" "M1") (demo_random 1) 0].

Lemma addPendingMessage_initial_active_witness :
  let st := run one_message Store.empty in
  let params := demo_params "a" "M2" in
  let conv := {| Conversation.activeBatchKey := lit "a";
                 Conversation.queue := []; Conversation.nextSeq := 1 |} in
  let result := addPendingMessage params (demo_random 2) 0 st in
  (reachable st /\ fresh (demo_random 2) st
   /\ conversationState st !! ap_conversationKey params = Some conv
   /\ Conversation.activeBatchKey conv = ap_conversationKey params)
  /\ snd (snd result) =
       match queuedPending conv st with
       | Some _ => queued_merged
       | None => queued_new
       end
  /\ (forall a, batch_stream st (ap_conversationKey params) a ->
        fst (snd result) <> a)
  /\ pendingInbounds (fst result) !! ap_conversationKey params
     = pendingInbounds st !! ap_conversationKey params.
Proof.
  intros st params conv result.
  assert (Hr : reachable st).
  { apply (reachable_run one_message Store.empty reachable_empty).
    vm_compute. reflexivity. }
  assert (Hf : fresh (demo_random 2) st).
  { apply freshb_fresh. vm_compute. reflexivity. }
  assert (Hc : conversationState st !! ap_conversationKey params = Some conv).
  { vm_compute. reflexivity. }
  split; [exact (conj Hr (conj Hf (conj Hc eq_refl)))|].
  exact (addPendingMessage_initial_active st params (demo_random 2) 0 conv
           Hr Hf Hc eq_refl).
Defined.

(** X20: in every state the store reaches, the queue of each
    conversation entry holds at most one batch key (the entry is a record
    with one [activeBatchKey]); and a message that arrives while the
    conversation has a queued batch pending creates no second one: the
    conversation entry stays as it is and the message is merged into the
    queued batch, unless the active batch accepts merges (it is not the
    initial batch, is still pending and its stream has not started), in
    which case the message is merged into the active batch. *)
Theorem queue_holds_one_batch (st : StreamStore) :
  reachable st ->
  (forall c conv, conversationState st !! c = Some conv ->
     (length (Conversation.queue conv) <= 1)%nat)
  /\ (forall params rnd now conv q pq,
        conversationState st !! ap_conversationKey params = Some conv ->
        queuedPending conv st = Some (q, pq) ->
        let result := addPendingMessage params rnd now st in
        conversationState (fst result) = conversationState st
        /\ match mergeableActive (ap_conversationKey params) conv st with
           | None =>
               snd result = (PendingInbound.streamId pq, queued_merged)
               /\ pendingInbounds (fst result) !! q =
                  Some (PendingInbound.merge (ap_msgContent params)
                          (msgid_list (ap_msg params)) (nextTimer st) pq)
           | Some ap =>
               snd result = (PendingInbound.streamId ap, active_merged)
               /\ pendingInbounds (fst result) !! Conversation.activeBatchKey conv =
                  Some (PendingInbound.merge (ap_msgContent params)
                          (msgid_list (ap_msg params)) (nextTimer st) ap)
           end).
Proof.
  intros Hr. apply reachable_consistent in Hr as [_ [_ K2]].
  split; [exact K2|].
  intros params rnd now conv q pq Hcv Hq result. subst result.
  unfold addPendingMessage. rewrite Hcv, Hq.
  destruct (mergeableActive _ conv st) as [ap|]; cbn [fst snd].
  - destruct (mergeInto_pending params (Conversation.activeBatchKey conv) ap st)
      as (Ep & Ec & _).
    rewrite Ep, Ec, lookup_insert_eq. auto.
  - destruct (mergeInto_pending params q pq st) as (Ep & Ec & _).
    rewrite Ep, Ec, lookup_insert_eq. auto.
Qed.

Definition two_messages : list command :=
  [AddPendingMessage (demo_params "a" "M1") (demo_random 1) 0;
   AddPendingMessage (demo_params "a" "M2") (demo_random 2) 0].

Lemma queue_holds_one_batch_witness :
  let st := run two_messages Store.empty in
  reachable st
  /\ (forall c conv, conversationState st !! c = Some conv ->
        (length (Conversation.queue conv) <= 1)%nat)
  /\ (forall params rnd now conv q pq,
        conversationState st !! ap_conversationKey params = Some conv ->
        queuedPending conv st = Some (q, pq) ->
        let result := addPendingMessage params rnd now st in
        conversationState (fst result) = conversationState st
        /\ match mergeableActive (ap_conversationKey params) conv st with
           | None =>
               snd result = (PendingInbound.streamId pq, queued_merged)
               /\ pendingInbounds (fst result) !! q =
                  Some (PendingInbound.merge (ap_msgContent params)
                          (msgid_list (ap_msg params)) (nextTimer st) pq)
           | Some ap =>
               snd result = (PendingInbound.streamId ap, active_merged)
               /\ pendingInbounds (fst result) !! Conversation.activeBatchKey conv =
                  Some (PendingInbound.merge (ap_msgContent params)
                          (msgid_list (ap_msg params)) (nextTimer st) ap)
           end).
Proof.
  intros st.
  assert (Hr : reachable st).
  { apply (reachable_run two_messages Store.empty reachable_empty).
    vm_compute. reflexivity. }
  split; [exact Hr|]. exact (queue_holds_one_batch st Hr).
Defined.

(** Conversation [a] sends two messages, its first batch is flushed and
    finished, its second batch is flushed, and a third message is queued
    as [a#q2].  Then a conversation whose key is [a#q1] sends its first
    message. *)
Definition colliding_keys : list command :=
  [AddPendingMessage (demo_params "a" "M1") (demo_random 1) 0;
   AddPendingMessage (demo_params "a" "M2") (demo_random 2) 0;
   TimerFires 0;
   OnStreamFinished (Buffer_toString_hex (demo_random 1));
   TimerFires 1;
   AddPendingMessage (demo_params "a" "M3") (demo_random 3) 0;
   AddPendingMessage (demo_params "a#q1" "M4") (demo_random 4) 0].

(** C2 at conversation keys that collide: conversation [a] has the queued
    batch [a#q2] pending and its active batch [a#q1] flushed, when the first
    message of the conversation whose key is [a#q1] is filed under the key of
    that active batch.  The next message of [a] is not merged into the queued
    batch of [a]: it is merged into the entry of the other conversation, as
    [active_merged], and the queued batch is left as it was. *)
Lemma merge_bypasses_queued_batch :
  let st := run colliding_keys Store.empty in
  let result := addPendingMessage (demo_params "a" "M5") (demo_random 5) 0 st in
  reachable st
  /\ fresh (demo_random 5) st
  /\ exists conv pq,
       conversationState st !! lit "a" = Some conv
       /\ Conversation.activeBatchKey conv = lit "a#q1"
       /\ queuedPending conv st = Some (lit "a#q2", pq)
       /\ PendingInbound.conversationKey pq = lit "a"
       /\ snd (snd result) = active_merged
       /\ fst (snd result) = Buffer_toString_hex (demo_random 4)
       /\ fst (snd result) <> PendingInbound.streamId pq
       /\ pendingInbounds (fst result) !! lit "a#q2" = Some pq
       /\ (PendingInbound.conversationKey <$> pendingInbounds (fst result) !! lit "a#q1")
          = Some (lit "a#q1")
       /\ (PendingInbound.contents <$> pendingInbounds (fst result) !! lit "a#q1")
          = Some [lit "M4"; lit "M5"].
Proof.
  intros st result. split; [|split].
  - apply (reachable_run colliding_keys Store.empty reachable_empty).
    vm_compute. reflexivity.
  - apply freshb_fresh. vm_compute. reflexivity.
  - destruct (conversationState st !! lit "a") as [conv|] eqn:Ec;
      [|vm_compute in Ec; discriminate].
    destruct (queuedPending conv st) as [[q pq]|] eqn:Eq;
      [|vm_compute in Ec; injection Ec as <-; vm_compute in Eq; discriminate].
    exists conv, pq.
    vm_compute in Ec. injection Ec as <-.
    vm_compute in Eq. injection Eq as <- <-.
    repeat split; try (vm_compute; reflexivity).
    vm_compute. discriminate.
Qed.

(** The conversation entry after its first queued batch became active. *)
Definition promoted (conv : Conversation.t) (next : jsstring) : Conversation.t :=
  {| Conversation.activeBatchKey := next;
     Conversation.queue := tail (Conversation.queue conv);
     Conversation.nextSeq := Conversation.nextSeq conv |}.

(** When [onStreamFinished] finds the conversation of a stream: the stream
    is attributed to a batch, its state is in the store and names the
    conversation, and the batch is the active one of that conversation. *)
Lemma activeConversationOf_found (st : StreamStore) (streamId b c : jsstring)
  (s : StreamState.t) (conv : Conversation.t) :
  streamIdToBatchKey st !! streamId = Some b -> b <> [] ->
  streams st !! streamId = Some s ->
  StreamState.conversationKey s = Some c -> c <> [] ->
  conversationState st !! c = Some conv ->
  Conversation.activeBatchKey conv = b ->
  activeConversationOf streamId st = Some (c, conv).
Proof.
  intros Hb Hbne Hs Hc Hcne Hconv Hact. unfold activeConversationOf.
  rewrite Hb, (truthy_opt_Some_iff b Hbne), Hs, Hc, (truthy_opt_Some_iff c Hcne), Hconv.
  rewrite bool_decide_eq_true_2 by exact Hact. reflexivity.
Qed.

(** What [onStreamFinished] does in a state the store reaches, by what its
    lookup finds.  When the conversation of the stream is found, the queue
    is popped.  With no queued batch the conversation entry is deleted, and
    the next [addPendingMessage] of the conversation returns [active_new].
    With a queued batch key, that batch becomes the active one.  If its
    pending entry is in the store, the entry is handed to the flush handler
    now if it is ready to flush, and otherwise stays pending, untouched, with
    its debounce timer live: when that timer fires, the entry (filed under
    this conversation) is flushed.  If its pending entry is no longer in the
    store, nothing is flushed.  When the lookup finds nothing, the store does
    not change. *)
Theorem onStreamFinished_pops_queue (st : StreamStore) (streamId : jsstring) :
  reachable st ->
  let st' := onStreamFinished streamId st in
  match activeConversationOf streamId st with
  | None => st' = st
  | Some (c, conv) =>
      match truthy_opt (head (Conversation.queue conv)) with
      | None =>
          conversationState st' !! c = None
          /\ pendingInbounds st' = pendingInbounds st
          /\ flushed st' = flushed st
          /\ forall params rnd now, ap_conversationKey params = c ->
               snd (snd (addPendingMessage params rnd now st')) = active_new
      | Some next =>
          conversationState st' !! c = Some (promoted conv next)
          /\ match pendingInbounds st !! next with
             | None => flushed st' = flushed st
             | Some p =>
                 if PendingInbound.readyToFlush p then
                   flushed st' = flushed st ++ [PendingInbound.set_flush None false p]
                   /\ pendingInbounds st' !! next = None
                 else
                   flushed st' = flushed st
                   /\ pendingInbounds st' = pendingInbounds st
                   /\ timers st' = timers st
                   /\ exists h d,
                        PendingInbound.timeout p = Some h
                        /\ timers st' !! h = Some (next, d)
                        /\ (PendingInbound.conversationKey p = c ->
                            flushed (fireTimer h st') =
                              flushed st ++ [PendingInbound.set_flush None false p]
                            /\ pendingInbounds (fireTimer h st') !! next = None)
             end
      end
  end.
Proof.
  intros Hr st'. subst st'.
  apply reachable_consistent in Hr as [[_ _ _ T1 _ _] _].
  unfold onStreamFinished.
  destruct (activeConversationOf streamId st) as [[c conv]|] eqn:Ea; [|reflexivity].
  destruct (truthy_opt (head (Conversation.queue conv))) as [next|] eqn:En.
  - fold (promoted conv next). cbn [with_conversations pendingInbounds].
    destruct (pendingInbounds st !! next) as [p|] eqn:Hp.
    + destruct (PendingInbound.readyToFlush p) eqn:Er.
      * unfold flushPending, onFlush, clearTimeout. cbn. rewrite Hp.
        destruct (PendingInbound.timeout p); cbn;
          rewrite lookup_insert_eq, lookup_delete_eq; auto.
      * cbn. rewrite lookup_insert_eq. repeat split.
        destruct (T1 next p Hp Er) as (h & d & Eh & Et).
        exists h, d. split; [exact Eh|]. split; [exact Et|].
        intros Hown. unfold fireTimer. cbn. rewrite Et.
        unfold requestFlush, flushPending, onFlush, clearTimeout. cbn.
        rewrite Hp, Hown, lookup_insert_eq. cbn.
        rewrite bool_decide_eq_true_2 by reflexivity.
        rewrite Eh. cbn. split; [reflexivity|apply lookup_delete_eq].
    + cbn. rewrite lookup_insert_eq. auto.
  - cbn. rewrite lookup_delete_eq. repeat split.
    intros params rnd now <-. unfold addPendingMessage.
    cbn [with_conversations conversationState]. rewrite lookup_delete_eq.
    match goal with
    | |- context [newBatch ?a ?b ?c ?d ?e] => destruct (newBatch a b c d e)
    end. reflexivity.
Qed.

Definition first_batch_flushed : list command :=
  [AddPendingMessage (demo_params "a" "M1") (demo_random 1) 0;
   AddPendingMessage (demo_params "a" "M2") (demo_random 2) 0;
   TimerFires 0].

Lemma onStreamFinished_pops_queue_witness :
  let st := run first_batch_flushed Store.empty in
  let streamId := Buffer_toString_hex (demo_random 1) in
  let st' := onStreamFinished streamId st in
  reachable st
  /\ match activeConversationOf streamId st with
     | None => st' = st
     | Some (c, conv) =>
         match truthy_opt (head (Conversation.queue conv)) with
         | None =>
             conversationState st' !! c = None
             /\ pendingInbounds st' = pendingInbounds st
             /\ flushed st' = flushed st
             /\ forall params rnd now, ap_conversationKey params = c ->
                  snd (snd (addPendingMessage params rnd now st')) = active_new
         | Some next =>
             conversationState st' !! c = Some (promoted conv next)
             /\ match pendingInbounds st !! next with
                | None => flushed st' = flushed st
                | Some p =>
                    if PendingInbound.readyToFlush p then
                      flushed st' = flushed st ++ [PendingInbound.set_flush None false p]
                      /\ pendingInbounds st' !! next = None
                    else
                      flushed st' = flushed st
                      /\ pendingInbounds st' = pendingInbounds st
                      /\ timers st' = timers st
                      /\ exists h d,
                           PendingInbound.timeout p = Some h
                           /\ timers st' !! h = Some (next, d)
                           /\ (PendingInbound.conversationKey p = c ->
                               flushed (fireTimer h st') =
                                 flushed st ++ [PendingInbound.set_flush None false p]
                               /\ pendingInbounds (fireTimer h st') !! next = None)
                end
         end
     end.
Proof.
  intros st streamId st'.
  assert (Hr : reachable st).
  { apply (reachable_run first_batch_flushed Store.empty reachable_empty).
    vm_compute. reflexivity. }
  split; [exact Hr|]. exact (onStreamFinished_pops_queue st streamId Hr).
Defined.

(** The scenario of the store's tests: the second message is queued, the
    third is merged into the queued batch, and the queued batch, ready
    when the first stream finishes, is flushed at once. *)
Example queue_scenario :
  let c1 := AddPendingMessage (demo_params "a" "M1") (demo_random 1) 0 in
  let c2 := AddPendingMessage (demo_params "a" "M2") (demo_random 2) 0 in
  let c3 := AddPendingMessage (demo_params "a" "M3") (demo_random 3) 0 in
  let st := run [c1; c2; c3; TimerFires 0; TimerFires 2] Store.empty in
  map PendingInbound.contents (flushed st) = [[lit "M1"]]
  /\ map PendingInbound.contents
       (flushed (onStreamFinished (Buffer_toString_hex (demo_random 1)) st))
     = [[lit "M1"]; [lit "M2"; lit "M3"]].
Proof. vm_compute. split; reflexivity. Qed.

(** The second message of conversation [a] is queued and its debounce ends
    while the first batch is still being answered; ten minutes on, with the
    first stream still updated, pruning discards the queued entry. *)
Definition queued_entry_discarded : list command :=
  [AddPendingMessage (demo_params "a" "M1") (demo_random 1) 0;
   TimerFires 0;
   AddPendingMessage (demo_params "a" "M2") (demo_random 2) 1;
   TimerFires 1;
   UpdateStream (Buffer_toString_hex (demo_random 1)) (fun s => s) 600000;
   Prune 600002].

(** C4 at a queued batch whose pending entry has been pruned: the queue of
    [a] still names [a#q1], which was ready to flush before it was pruned;
    when the first stream finishes, [a#q1] becomes the active batch, nothing
    is handed to the flush handler, and neither a pending entry nor a timer
    is left to do it later. *)
Lemma promoted_batch_is_not_flushed :
  let before := run (firstn 5 queued_entry_discarded) Store.empty in
  let st := run queued_entry_discarded Store.empty in
  let streamId := Buffer_toString_hex (demo_random 1) in
  let st' := onStreamFinished streamId st in
  reachable st
  /\ (PendingInbound.readyToFlush <$> pendingInbounds before !! lit "a#q1")
     = Some true
  /\ activeConversationOf streamId st
     = Some (lit "a", {| Conversation.activeBatchKey := lit "a";
                         Conversation.queue := [lit "a#q1"];
                         Conversation.nextSeq := 2 |})
  /\ conversationState st' !! lit "a"
     = Some {| Conversation.activeBatchKey := lit "a#q1";
               Conversation.queue := [];
               Conversation.nextSeq := 2 |}
  /\ map PendingInbound.contents (flushed st) = [[lit "M1"]]
  /\ flushed st' = flushed st
  /\ pendingInbounds st' = ∅
  /\ timers st' = ∅.
Proof.
  intros before st streamId st'. split.
  - apply (reachable_run queued_entry_discarded Store.empty reachable_empty).
    vm_compute. reflexivity.
  - vm_compute. repeat split; reflexivity.
Qed.

(** A concrete store in which [onStreamFinished] finds no stream. *)
Ltac no_stream_found st :=
  let sid := fresh "sid" in
  let b := fresh "b" in
  let E := fresh "E" in
  intros sid; unfold onStreamFinished, activeConversationOf;
  destruct (streamIdToBatchKey st !! sid) as [b|] eqn:E; [|reflexivity];
  apply elem_of_map_to_list in E; vm_compute in E;
  apply list_elem_of_In in E; cbn [In] in E;
  repeat (destruct E as [E|E]; [injection E as <- <-; vm_compute; reflexivity|]);
  contradiction.

(** The store after the batch [a#q1] took its turn without a pending
    entry. *)
Definition promoted_without_entry : StreamStore :=
  onStreamFinished (Buffer_toString_hex (demo_random 1))
    (run queued_entry_discarded Store.empty).

(** From then on the conversation [a] does not move.  Its next message is
    queued as [a#q2]; when the debounce of that batch ends it is marked ready
    and nothing is flushed; no stream is left whose finishing
    [onStreamFinished] would act on, before the message or after it;
    pruning, ten minutes later, discards the batch unflushed and keeps the
    conversation entry as it is. *)
Example conversation_stays_blocked :
  let st := promoted_without_entry in
  let r := addPendingMessage (demo_params "a" "M3") (demo_random 3) 600003 st in
  let st3 := fireTimer 2 (fst r) in
  fresh (demo_random 3) st
  /\ snd r = (Buffer_toString_hex (demo_random 3), queued_new)
  /\ (PendingInbound.timeout <$> pendingInbounds (fst r) !! lit "a#q2")
     = Some (Some 2%nat)
  /\ flushed st3 = flushed st
  /\ (PendingInbound.readyToFlush <$> pendingInbounds st3 !! lit "a#q2") = Some true
  /\ timers st3 = ∅
  /\ (forall sid, onStreamFinished sid st = st)
  /\ (forall sid, onStreamFinished sid st3 = st3)
  /\ conversationState (prune 1300000 st3) = conversationState st3
  /\ pendingInbounds (prune 1300000 st3) = ∅
  /\ flushed (prune 1300000 st3) = flushed st.
Proof.
  intros st r st3.
  split; [apply freshb_fresh; vm_compute; reflexivity|].
  do 5 (split; [vm_compute; reflexivity|]).
  split; [no_stream_found st|].
  split; [no_stream_found st3|].
  vm_compute. repeat split; reflexivity.
Qed.

(** The first stream of [a] is last updated ten milliseconds after it was
    created; the second message is queued five minutes later and its debounce
    ends; the pruning, ten minutes after the update, discards the state of
    the first stream and keeps the queued entry. *)
Definition stream_state_discarded : list command :=
  [AddPendingMessage (demo_params "a" "M1") (demo_random 1) 0;
   TimerFires 0;
   UpdateStream (Buffer_toString_hex (demo_random 1)) (fun s => s) 10;
   AddPendingMessage (demo_params "a" "M2") (demo_random 2) 300000;
   TimerFires 1;
   Prune 700000].

(** The other way to the same end: the state of the stream of the active
    batch has been pruned.  The stream is still attributed to the batch [a],
    the active batch of its conversation, and [a#q1] is queued and ready to
    flush; [onStreamFinished] of the stream does not find the conversation
    and leaves the store as it is, as it does for every other stream; the
    queued batch is pruned unflushed five minutes later and the conversation
    entry stays. *)
Example finished_stream_is_not_found :
  let st := run stream_state_discarded Store.empty in
  let streamId := Buffer_toString_hex (demo_random 1) in
  reachable st
  /\ streamIdToBatchKey st !! streamId = Some (lit "a")
  /\ conversationState st !! lit "a"
     = Some {| Conversation.activeBatchKey := lit "a";
               Conversation.queue := [lit "a#q1"];
               Conversation.nextSeq := 2 |}
  /\ streams st !! streamId = None
  /\ (PendingInbound.readyToFlush <$> pendingInbounds st !! lit "a#q1") = Some true
  /\ timers st = ∅
  /\ onStreamFinished streamId st = st
  /\ (forall sid, onStreamFinished sid st = st)
  /\ map PendingInbound.contents (flushed st) = [[lit "M1"]]
  /\ pendingInbounds (prune 1000000 st) = ∅
  /\ conversationState (prune 1000000 st) = conversationState st.
Proof.
  intros st streamId. split.
  - apply (reachable_run stream_state_discarded Store.empty reachable_empty).
    vm_compute. reflexivity.
  - do 6 (split; [vm_compute; reflexivity|]).
    split; [no_stream_found st|].
    vm_compute. repeat split; reflexivity.
Qed.

(** Why the timer clause above speaks of an entry filed under the finishing
    conversation.  The conversation whose key is [a#q1] files its first batch
    under the key of the queued batch of [a], and its stream is reported
    finished before the batch is flushed.  When the first stream of [a]
    finishes, [a#q1] becomes the active batch of [a]; the entry under that
    key names a conversation that has no state, so its timer marks it ready
    and flushes nothing. *)
Definition foreign_entry : list command :=
  [AddPendingMessage (demo_params "a" "M1") (demo_random 1) 0;
   TimerFires 0;
   AddPendingMessage (demo_params "a" "M2") (demo_random 2) 0;
   AddPendingMessage (demo_params "a#q1" "M3") (demo_random 3) 0;
   OnStreamFinished (Buffer_toString_hex (demo_random 3))].

Example timer_of_foreign_entry_does_not_flush :
  let st := run foreign_entry Store.empty in
  let st' := onStreamFinished (Buffer_toString_hex (demo_random 1)) st in
  reachable st
  /\ (Conversation.activeBatchKey <$> conversationState st' !! lit "a")
     = Some (lit "a#q1")
  /\ (PendingInbound.conversationKey <$> pendingInbounds st' !! lit "a#q1")
     = Some (lit "a#q1")
  /\ (PendingInbound.readyToFlush <$> pendingInbounds st' !! lit "a#q1")
     = Some false
  /\ (PendingInbound.timeout <$> pendingInbounds st' !! lit "a#q1")
     = Some (Some 2%nat)
  /\ flushed (fireTimer 2 st') = flushed st'
  /\ (PendingInbound.readyToFlush <$> pendingInbounds (fireTimer 2 st') !! lit "a#q1")
     = Some true.
Proof.
  intros st st'. split.
  - apply (reachable_run foreign_entry Store.empty reachable_empty).
    vm_compute. reflexivity.
  - vm_compute. repeat split; reflexivity.
Qed.

End StoreFacts.

(** ** Bot webhook handler (monitor.ts) *)

Module Monitor.
Import Store.

(** [truncateUtf8Bytes(text, maxBytes)]: the last [maxBytes] bytes of the
    UTF-8 encoding, decoded. *)
Definition truncateUtf8Bytes (text : jsstring) (maxBytes : N) : jsstring :=
  let buf := Buffer_from_utf8 text in
  if N.of_nat (length buf) <=? maxBytes then text
  else Buffer_toString_utf8 (skipn (length buf - N.to_nat maxBytes) buf).

(** The text block of the [deliver] callback: the block is appended to the
    visible content and the result cut to [STREAM_MAX_BYTES]. *)
Definition appendBlock (content text : jsstring) : jsstring :=
  let nextText :=
    if truthy content then trim (content ++ [0x0A; 0x0A] ++ text)
    else trim text in
  truncateUtf8Bytes nextText Limits.STREAM_MAX_BYTES.

(** [s.content = truncateUtf8Bytes(nextText, STREAM_MAX_BYTES)] on the
    stream the block belongs to. *)
Definition deliverText (streamId text : jsstring) (now : Z) (st : StreamStore)
  : StreamStore :=
  match getStream streamId st with
  | None => st
  | Some current =>
      match StreamState.fallbackMode current with
      | Some _ => st
      | None =>
          updateStream streamId
            (StreamState.set_content (appendBlock (StreamState.content current) text))
            now st
      end
  end.

(** The payloads the handler encrypts. *)
Record StreamReply := {
  id : jsstring;
  finish : bool;
  content : jsstring;
  msg_item : option (list (jsstring * jsstring))
}.

Inductive plaintextJson :=
| EmptyObject                         (* {} *)
| StreamMessage (stream : StreamReply)  (* {msgtype: "stream", stream} *)
| TextMessage (text : jsstring).       (* {msgtype: "text", text: {content}} *)

(** [jsonOk(res, buildEncryptedJsonReply({account, plaintextJson, nonce,
    timestamp}))]: status 200 and, as the body, the envelope of the payload
    (module [Envelope]) with its signature, timestamp and nonce. *)
Record response := {
  statusCode : Z;
  encrypted : plaintextJson;
  reply_nonce : jsstring;
  reply_timestamp : jsstring
}.

Definition jsonOk (payload : plaintextJson) (nonce timestamp : jsstring) : response :=
  {| statusCode := 200; encrypted := payload;
     reply_nonce := nonce; reply_timestamp := timestamp |}.

(** [s || "1"]. *)
Definition or_one (s : jsstring) : jsstring := if truthy s then s else lit "1".

Definition buildStreamPlaceholderReply (streamId : jsstring)
  (placeholderContent : option jsstring) : plaintextJson :=
  StreamMessage
    {| id := streamId; finish := false;
       content := or_one (default [] (trim <$> placeholderContent));
       msg_item := None |}.

Definition buildStreamTextPlaceholderReply (streamId content : jsstring)
  : plaintextJson :=
  StreamMessage
    {| id := streamId; finish := false; content := or_one (trim content);
       msg_item := None |}.

Definition buildStreamReplyFromState (state : StreamState.t) : plaintextJson :=
  StreamMessage
    {| id := StreamState.streamId state;
       finish := StreamState.finished state;
       content := truncateUtf8Bytes (StreamState.content state) Limits.STREAM_MAX_BYTES;
       msg_item :=
         if StreamState.finished state
         then match StreamState.images state with
              | [] => None
              | imgs => Some imgs
              end
         else None |}.

(** The store of passive-reply URLs. *)
Record ActiveReplyState := {
  response_url : jsstring;
  proxyUrl : option jsstring;
  createdAt : Z
}.

Record MonitorState := {
  streamStore : StreamStore;
  activeReplies : gmap (list N) ActiveReplyState
}.

Definition with_store (f : StreamStore -> StreamStore) (ms : MonitorState)
  : MonitorState :=
  {| streamStore := f (streamStore ms); activeReplies := activeReplies ms |}.

(** [storeActiveReply(streamId, responseUrl, proxyUrl)]. *)
Definition storeActiveReply (streamId : jsstring) (responseUrl proxy : option jsstring)
  (now : Z) (ms : MonitorState) : MonitorState :=
  match truthy_opt (trim <$> responseUrl) with
  | None => ms
  | Some url =>
      {| streamStore := streamStore ms;
         activeReplies :=
           <[streamId := {| response_url := url; proxyUrl := proxy;
                            createdAt := now |}]> (activeReplies ms) |}
  end.

(** [toLowerCase] on the letters that matter here: the handler compares
    the result with texts made of ASCII letters other than [i] and [k],
    and no character outside ASCII has any of those as its lower case. *)
Definition toLowerCase (s : jsstring) : jsstring := map TargetSpec.lower s.

(** [s || "unknown"]. *)
Definition or_unknown (s : jsstring) : jsstring :=
  if truthy s then s else lit "unknown".

(** [resolveWecomSenderUserId(msg) || "unknown"]. *)
Definition senderUserId (msg : Msg.t) : jsstring :=
  let direct := default [] (trim <$> Msg.from_userid msg) in
  if truthy direct then direct
  else or_unknown (trim (default [] (Msg.legacy_userid msg))).

Definition conversationKeyOf (target : WebhookTarget.t) (msg : Msg.t) : jsstring :=
  let userid := senderUserId msg in
  let chatId :=
    if bool_decide (Msg.chattype msg = Some (lit "group"))
    then or_unknown (default [] (trim <$> Msg.chatid msg))
    else userid in
  lit "wecom:" ++ WebhookTarget.accountId target ++ lit ":" ++ userid
  ++ lit ":" ++ chatId.

(** What the handler leaves running after it has answered. *)
Inductive effect :=
| StartAgentForStream (streamId : jsstring) (msg : Msg.t).

Definition queuedPlaceholder : jsstring := lit "已收到，已排队处理中...".
Definition mergedQueuedPlaceholder : jsstring := lit "已收到，已合并排队处理中...".

(** The stream a msg-id is already mapped to: the duplicate check. *)
Definition existingStreamOf (msg : Msg.t) (st : StreamStore) : option jsstring :=
  match truthy_opt (Msg.msgid msg) with
  | Some m => truthy_opt (getStreamByMsgId m st)
  | None => None
  end.

Section Handler.

(** [buildInboundBody], the text of a message. *)
Variable buildInboundBody : Msg.t -> jsstring.

(** The state a poll of an unknown stream is answered from. *)
Definition unknownStream (streamId : jsstring) (now : Z) : StreamState.t :=
  {| StreamState.streamId := or_unknown streamId;
     StreamState.msgid := None;
     StreamState.conversationKey := None; StreamState.batchKey := None;
     StreamState.createdAt := now; StreamState.updatedAt := now;
     StreamState.started := true; StreamState.finished := true;
     StreamState.content := [];
     StreamState.images := []; StreamState.fallbackMode := None;
     StreamState.dmContent := None |}.

(** The ack stream of a merged message. *)
Definition ackMutator (s : StreamState.t) : StreamState.t :=
  StreamState.set_content mergedQueuedPlaceholder
    (StreamState.set_started true (StreamState.set_finished false s)).

Definition paramsOf (target : WebhookTarget.t) (msg : Msg.t)
  (nonce timestamp : jsstring) : addPendingParams :=
  {| ap_conversationKey := conversationKeyOf target msg;
     ap_target := target; ap_msg := msg;
     ap_msgContent := buildInboundBody msg;
     ap_nonce := nonce; ap_timestamp := timestamp;
     ap_debounceMs := WebhookTarget.debounceMs target |}.

(** The branch of the handler for messages that are neither events nor
    stream polls. *)
Definition handleMessage (target : WebhookTarget.t) (msg : Msg.t)
  (nonce timestamp : jsstring) (rnd : Buffer) (now : Z) (ms : MonitorState)
  : MonitorState * response * list effect :=
  match existingStreamOf msg (streamStore ms) with
  | Some existingStreamId =>
      (ms,
       jsonOk (buildStreamPlaceholderReply existingStreamId
                 (WebhookTarget.streamPlaceholderContent target))
         nonce timestamp,
       [])
  | None =>
      let '(st1, (streamId, status)) :=
        addPendingMessage (paramsOf target msg nonce timestamp) rnd now
          (streamStore ms) in
      let ms1 := with_store (fun _ => st1) ms in
      let ms2 :=
        match truthy_opt (Msg.response_url msg) with
        | Some _ =>
            storeActiveReply streamId (Msg.response_url msg)
              (WebhookTarget.egressProxyUrl target) now ms1
        | None => ms1
        end in
      match status with
      | active_new =>
          (ms2,
           jsonOk (buildStreamPlaceholderReply streamId
                     (WebhookTarget.streamPlaceholderContent target))
             nonce timestamp,
           [])
      | queued_new =>
          (ms2,
           jsonOk (buildStreamPlaceholderReply streamId (Some queuedPlaceholder))
             nonce timestamp,
           [])
      | active_merged | queued_merged =>
          let '(st3, ackStreamId) :=
            createStream {| cs_msgid := truthy_opt (Msg.msgid msg);
                            cs_conversationKey := None; cs_batchKey := None |}
              rnd now (streamStore ms2) in
          let st4 := updateStream ackStreamId ackMutator now st3 in
          let st5 :=
            match truthy_opt (Msg.msgid msg) with
            | Some m => setStreamIdForMsgId m ackStreamId st4
            | None => st4
            end in
          let st6 := addAckStreamForBatch streamId ackStreamId st5 in
          (with_store (fun _ => st6) ms2,
           jsonOk (buildStreamTextPlaceholderReply ackStreamId mergedQueuedPlaceholder)
             nonce timestamp,
           [])
      end
  end.

(** The handler of a Bot POST, from the decrypted message on. *)
Definition handleBotPost (target : WebhookTarget.t) (msg : Msg.t)
  (nonce timestamp : jsstring) (rnd : Buffer) (now : Z) (ms : MonitorState)
  : MonitorState * response * list effect :=
  let msgtype := toLowerCase (default [] (Msg.msgtype msg)) in
  if bool_decide (msgtype = lit "event") then
    let eventtype := toLowerCase (default [] (Msg.event_eventtype msg)) in
    if bool_decide (eventtype = lit "template_card_event") then
      match existingStreamOf msg (streamStore ms) with
      | Some _ => (ms, jsonOk EmptyObject nonce timestamp, [])
      | None =>
          let '(st1, streamId) :=
            createStream {| cs_msgid := truthy_opt (Msg.msgid msg);
                            cs_conversationKey := None; cs_batchKey := None |}
              rnd now (streamStore ms) in
          let st2 := markStarted streamId now st1 in
          let ms2 :=
            storeActiveReply streamId (Msg.response_url msg) None now
              (with_store (fun _ => st2) ms) in
          (ms2, jsonOk EmptyObject nonce timestamp,
           [StartAgentForStream streamId msg])
      end
    else if bool_decide (eventtype = lit "enter_chat") then
      (ms,
       jsonOk match truthy_opt (trim <$> WebhookTarget.welcomeText target) with
              | Some welcome => TextMessage welcome
              | None => EmptyObject
              end nonce timestamp,
       [])
    else (ms, jsonOk EmptyObject nonce timestamp, [])
  else if bool_decide (msgtype = lit "stream") then
    let streamId := trim (default [] (Msg.stream_id msg)) in
    let reply :=
      match getStream streamId (streamStore ms) with
      | Some state => buildStreamReplyFromState state
      | None => buildStreamReplyFromState (unknownStream streamId now)
      end in
    (ms, jsonOk reply nonce timestamp, [])
  else handleMessage target msg nonce timestamp rnd now ms.

End Handler.

End Monitor.

(** *** What the handler answers *)

Module MonitorFacts.
Import Store StoreRun StoreInvariants StoreFacts Monitor.

(** Stream identifiers in the msg-id map are not empty. *)
Definition msgids_ok (st : StreamStore) : Prop :=
  forall m sid, msgidToStreamId st !! m = Some sid -> sid <> [].

Lemma msgids_ok_createStream params rnd now st :
  msgids_ok st -> length rnd = 16%nat ->
  msgids_ok (fst (createStream params rnd now st)).
Proof.
  intros Hok Hl. destruct (hex_id_shape rnd Hl) as [_ Hne].
  unfold createStream, msgids_ok.
  destruct (truthy_opt (cs_msgid params)), (truthy_opt (cs_batchKey params));
    cbn; try exact Hok;
    intros m sid; rewrite lookup_insert_Some; intros [[_ <-]|[_ H]]; eauto.
Qed.

Lemma addPendingMessage_msgids params rnd now st :
  msgids_ok st -> length rnd = 16%nat ->
  msgids_ok (fst (addPendingMessage params rnd now st)).
Proof.
  intros Hok Hl.
  assert (Hnew : forall k, msgids_ok (fst (newBatch params k rnd now st))).
  { intros k. pose proof (msgids_ok_createStream
      {| cs_msgid := Msg.msgid (ap_msg params);
         cs_conversationKey := Some (ap_conversationKey params);
         cs_batchKey := Some k |} rnd now st Hok Hl) as H.
    unfold newBatch. destruct (createStream _ rnd now st) as [st1 sid].
    exact H. }
  unfold addPendingMessage.
  destruct (conversationState st !! ap_conversationKey params) as [state|].
  - destruct (mergeableActive _ state st) as [ap|].
    { cbn [fst]. unfold msgids_ok.
      destruct (mergeInto_pending params (Conversation.activeBatchKey state) ap st)
        as (_ & _ & -> & _). exact Hok. }
    destruct (queuedPending state st) as [[q pq]|].
    { cbn [fst]. unfold msgids_ok.
      destruct (mergeInto_pending params q pq st) as (_ & _ & -> & _). exact Hok. }
    specialize (Hnew (ap_conversationKey params ++ lit "#q"
                      ++ String_of_N (Conversation.nextSeq state))).
    destruct (newBatch params _ rnd now st) as [st1 sid]. exact Hnew.
  - specialize (Hnew (ap_conversationKey params)).
    destruct (newBatch params _ rnd now st) as [st1 sid]. exact Hnew.
Qed.

Lemma flushPending_msgids k st :
  msgidToStreamId (flushPending k st) = msgidToStreamId st.
Proof.
  unfold flushPending, onFlush, clearTimeout.
  destruct (pendingInbounds st !! k) as [p|]; [|reflexivity].
  destruct (PendingInbound.timeout p); reflexivity.
Qed.

Lemma requestFlush_msgids k st :
  msgidToStreamId (requestFlush k st) = msgidToStreamId st.
Proof.
  unfold requestFlush.
  destruct (pendingInbounds st !! k) as [p|]; [|reflexivity].
  match goal with |- context [if ?b then _ else _] => destruct b end.
  - apply flushPending_msgids.
  - unfold clearTimeout. destruct (PendingInbound.timeout p); reflexivity.
Qed.

Lemma reachable_msgids st : reachable st -> msgids_ok st.
Proof.
  induction 1 as [|c st _ IH Hf].
  - intros m sid. cbn. rewrite lookup_empty. discriminate.
  - destruct c; cbn [exec draws_fresh] in *.
    + apply addPendingMessage_msgids; [exact IH|apply Hf].
    + unfold fireTimer. destruct (timers st !! h) as [[k d]|]; [|exact IH].
      unfold msgids_ok. rewrite requestFlush_msgids. exact IH.
    + unfold onStreamFinished.
      destruct (activeConversationOf streamId st) as [[c conv]|]; [|exact IH].
      destruct (truthy_opt (head (Conversation.queue conv))) as [next|];
        [|exact IH].
      cbn [with_conversations pendingInbounds].
      destruct (pendingInbounds st !! next) as [p|]; [|exact IH].
      destruct (PendingInbound.readyToFlush p); [|exact IH].
      unfold msgids_ok. rewrite flushPending_msgids. exact IH.
    + unfold updateStream. destruct (streams st !! streamId); exact IH.
    + apply msgids_ok_createStream; [exact IH|apply Hf].
    + unfold setStreamIdForMsgId.
      destruct (truthy (trim msgid)) eqn:E1, (truthy (trim streamId)) eqn:E2;
        cbn; try exact IH.
      intros m sid. cbn. rewrite lookup_insert_Some.
      intros [[_ <-]|[_ H]]; [|eauto].
      apply Utf8Facts.truthy_nonempty. exact E2.
    + unfold addAckStreamForBatch.
      match goal with |- msgids_ok (if ?b then _ else _) => destruct b end; exact IH.
    + unfold drainAckStreamsForBatch.
      match goal with |- msgids_ok (fst (if ?b then _ else _)) => destruct b end;
        exact IH.
    + intros m sid Hm. unfold prune in Hm. cbn [msgidToStreamId] in Hm.
      apply map_lookup_filter_Some in Hm as [Hm _].
      apply map_lookup_filter_Some in Hm as [Hm _]. exact (IH m sid Hm).
Qed.

Lemma addPendingMessage_merged params rnd now st sid status :
  snd (addPendingMessage params rnd now st) = (sid, status) ->
  status = active_merged \/ status = queued_merged ->
  exists k p,
    pendingInbounds st !! k = Some p
    /\ PendingInbound.streamId p = sid
    /\ fst (addPendingMessage params rnd now st) = mergeInto params k p st.
Proof.
  unfold addPendingMessage.
  destruct (conversationState st !! ap_conversationKey params) as [state|].
  - destruct (mergeableActive _ state st) as [ap|] eqn:Ema.
    { apply mergeableActive_Some in Ema as [Hap _]. cbn.
      intros [= <- <-] _. eauto. }
    destruct (queuedPending state st) as [[q pq]|] eqn:Eqp.
    { apply queuedPending_Some in Eqp as [Hpq _]. cbn.
      intros [= <- <-] _. eauto. }
    destruct (newBatch params _ rnd now st) as [st1 sid']. cbn.
    intros [= <- <-] [?|?]; discriminate.
  - destruct (newBatch params _ rnd now st) as [st1 sid']. cbn.
    intros [= <- <-] [?|?]; discriminate.
Qed.

Lemma mergeInto_acks params k p st :
  batchStreamIdToAckStreamIds (mergeInto params k p st)
  = batchStreamIdToAckStreamIds st.
Proof.
  unfold mergeInto, setTimeout, clearTimeout.
  destruct (PendingInbound.timeout p); reflexivity.
Qed.

Lemma truthy_opt_idem (o : option jsstring) :
  truthy_opt (truthy_opt o) = truthy_opt o.
Proof. destruct o as [[|u s]|]; reflexivity. Qed.

Lemma storeActiveReply_store streamId url proxy now ms :
  streamStore (storeActiveReply streamId url proxy now ms) = streamStore ms.
Proof. unfold storeActiveReply. destruct (truthy_opt _); reflexivity. Qed.

Lemma merged_placeholder_text :
  or_one (trim mergedQueuedPlaceholder) = mergedQueuedPlaceholder.
Proof. vm_compute. reflexivity. Qed.

(** The store after the handler has set up the ack stream of a message
    merged into the batch of stream [b]. *)
Definition withAckStream (msg : Msg.t) (b : jsstring) (rnd : Buffer) (now : Z)
  (st : StreamStore) : StreamStore :=
  let '(st3, ackStreamId) :=
    createStream {| cs_msgid := truthy_opt (Msg.msgid msg);
                    cs_conversationKey := None; cs_batchKey := None |}
      rnd now st in
  let st4 := updateStream ackStreamId ackMutator now st3 in
  let st5 :=
    match truthy_opt (Msg.msgid msg) with
    | Some m => setStreamIdForMsgId m ackStreamId st4
    | None => st4
    end in
  addAckStreamForBatch b ackStreamId st5.

Lemma withAckStream_facts msg b rnd now st :
  length rnd = 16%nat -> trim b = b -> b <> [] ->
  let ack := Buffer_toString_hex rnd in
  let st' := withAckStream msg b rnd now st in
  (exists s, streams st' !! ack = Some s
     /\ StreamState.started s = true
     /\ StreamState.finished s = false
     /\ StreamState.content s = mergedQueuedPlaceholder)
  /\ (forall m, Msg.msgid msg = Some m -> m <> [] ->
        getStreamByMsgId m st' = Some ack)
  /\ batchStreamIdToAckStreamIds st' !! b =
     Some (default [] (batchStreamIdToAckStreamIds st !! b) ++ [ack]).
Proof.
  intros Hl Hb Hbne ack st'. subst st'.
  destruct (hex_id_shape rnd Hl) as [Hat Hane]. fold ack in Hat, Hane.
  assert (Hbt : truthy b = true) by (apply Utf8Facts.truthy_nonempty; exact Hbne).
  assert (Hatr : truthy ack = true) by (apply Utf8Facts.truthy_nonempty; exact Hane).
  unfold withAckStream, createStream, updateStream, addAckStreamForBatch,
    setStreamIdForMsgId, getStreamByMsgId.
  cbn [cs_msgid cs_batchKey cs_conversationKey truthy_opt].
  rewrite truthy_opt_idem. fold ack. rewrite Hat, Hb, Hbt, Hatr.
  destruct (truthy_opt (Msg.msgid msg)) as [m0|] eqn:Em;
    cbn; rewrite lookup_insert_eq; cbn.
  - apply truthy_opt_Some in Em as [Em Hm0].
    destruct (truthy (trim m0)) eqn:Et; cbn;
      rewrite !lookup_insert_eq; (split; [eexists; split; [reflexivity|auto]|]);
      (split; [|reflexivity]); intros m Hm Hne;
      rewrite Em in Hm; injection Hm as <-.
    + destruct (decide (trim m0 = m0)) as [->|Hd].
      * apply lookup_insert_eq.
      * rewrite lookup_insert_ne by exact Hd. apply lookup_insert_eq.
    + apply lookup_insert_eq.
  - rewrite !lookup_insert_eq. (split; [eexists; split; [reflexivity|auto]|]).
    split; [|reflexivity]. intros m Hm Hne. exfalso.
    rewrite Hm in Em. rewrite truthy_opt_Some_iff in Em by exact Hne. discriminate.
Qed.

Section HandlerFacts.
Variable buildInboundBody : Msg.t -> jsstring.

Local Abbreviation handleBotPost := (handleBotPost buildInboundBody).
Local Abbreviation handleMessage := (handleMessage buildInboundBody).
Local Abbreviation paramsOf := (paramsOf buildInboundBody).

(** C10: a stream poll for an identifier the store does not know (never
    allocated, or pruned) is answered like any other: status 200 and an
    encrypted stream payload for the polled identifier (trimmed, and
    [unknown] when nothing is left) with [finish] set and empty content,
    no images; nothing changes and nothing is started. *)
Theorem stream_poll_of_unknown_stream
  (target : WebhookTarget.t) (msg : Msg.t) (nonce timestamp : jsstring)
  (rnd : Buffer) (now : Z) (ms : MonitorState) :
  toLowerCase (default [] (Msg.msgtype msg)) = lit "stream" ->
  getStream (trim (default [] (Msg.stream_id msg))) (streamStore ms) = None ->
  handleBotPost target msg nonce timestamp rnd now ms =
  (ms,
   {| statusCode := 200;
      encrypted :=
        StreamMessage
          {| id := or_unknown (trim (default [] (Msg.stream_id msg)));
             finish := true; content := []; msg_item := None |};
      reply_nonce := nonce; reply_timestamp := timestamp |},
   []).
Proof.
  intros Htype Hunknown. unfold handleBotPost. rewrite Htype, Hunknown.
  reflexivity.
Qed.

Lemma existingStreamOf_mapped msg st m existing :
  msgids_ok st -> Msg.msgid msg = Some m -> m <> [] ->
  getStreamByMsgId m st = Some existing ->
  existingStreamOf msg st = Some existing.
Proof.
  intros Hok Hm Hne Hex. unfold existingStreamOf.
  rewrite Hm, truthy_opt_Some_iff by exact Hne. rewrite Hex.
  apply truthy_opt_Some_iff. exact (Hok m existing Hex).
Qed.

(** C5, as amended: a Bot POST whose msg-id is already mapped to a stream
    is answered with status 200 and an encrypted reply, changes nothing in
    the store (no batch, stream or timer is created: [addPendingMessage]
    is not called) and starts no agent.  For a message that is neither an
    event nor a stream poll, the reply is the stream placeholder of the
    stream the msg-id is mapped to; for a [template_card_event] it is the
    empty object. *)
Theorem duplicate_msgid_is_answered_from_the_map
  (target : WebhookTarget.t) (msg : Msg.t) (nonce timestamp : jsstring)
  (rnd : Buffer) (now : Z) (ms : MonitorState) (m existing : jsstring) :
  reachable (streamStore ms) ->
  Msg.msgid msg = Some m -> m <> [] ->
  getStreamByMsgId m (streamStore ms) = Some existing ->
  let result := handleBotPost target msg nonce timestamp rnd now ms in
  let msgtype := toLowerCase (default [] (Msg.msgtype msg)) in
  let eventtype := toLowerCase (default [] (Msg.event_eventtype msg)) in
  fst (fst result) = ms
  /\ snd result = []
  /\ statusCode (snd (fst result)) = 200%Z
  /\ (msgtype <> lit "event" -> msgtype <> lit "stream" ->
      encrypted (snd (fst result)) =
      buildStreamPlaceholderReply existing
        (WebhookTarget.streamPlaceholderContent target))
  /\ (msgtype = lit "event" -> eventtype = lit "template_card_event" ->
      encrypted (snd (fst result)) = EmptyObject).
Proof.
  intros Hr Hm Hne Hex result msgtype eventtype. subst result msgtype eventtype.
  pose proof (existingStreamOf_mapped msg (streamStore ms) m existing
                (reachable_msgids _ Hr) Hm Hne Hex) as Hdup.
  unfold handleBotPost, handleMessage. rewrite Hdup.
  repeat case_bool_decide; cbn [fst snd statusCode encrypted jsonOk];
    repeat split; intros; congruence.
Qed.

(** C3: when the handler's [addPendingMessage] call merges the message
    into a batch, the call maps no msg-id (the msg-id map is as before),
    and the handler creates an ack stream under the new identifier, other
    than the batch stream, started, not finished, with the merged
    placeholder as content; the message's msg-id is mapped to the ack
    stream, the ack stream is registered with the batch stream, and the
    reply is the placeholder of the ack stream. *)
Theorem merged_message_gets_an_ack_stream
  (target : WebhookTarget.t) (msg : Msg.t) (nonce timestamp : jsstring)
  (rnd : Buffer) (now : Z) (ms : MonitorState)
  (batchStreamId : jsstring) (status : Store.status) :
  reachable (streamStore ms) ->
  fresh rnd (streamStore ms) ->
  toLowerCase (default [] (Msg.msgtype msg)) <> lit "event" ->
  toLowerCase (default [] (Msg.msgtype msg)) <> lit "stream" ->
  existingStreamOf msg (streamStore ms) = None ->
  let admitted :=
    addPendingMessage (paramsOf target msg nonce timestamp) rnd now (streamStore ms) in
  snd admitted = (batchStreamId, status) ->
  status = active_merged \/ status = queued_merged ->
  let result := handleBotPost target msg nonce timestamp rnd now ms in
  let st' := streamStore (fst (fst result)) in
  let ack := Buffer_toString_hex rnd in
  msgidToStreamId (fst admitted) = msgidToStreamId (streamStore ms)
  /\ ack <> batchStreamId
  /\ streams (streamStore ms) !! ack = None
  /\ (exists s, streams st' !! ack = Some s
        /\ StreamState.started s = true
        /\ StreamState.finished s = false
        /\ StreamState.content s = mergedQueuedPlaceholder)
  /\ (forall m, Msg.msgid msg = Some m -> m <> [] ->
        getStreamByMsgId m st' = Some ack)
  /\ batchStreamIdToAckStreamIds st' !! batchStreamId =
     Some (default [] (batchStreamIdToAckStreamIds (streamStore ms) !! batchStreamId)
           ++ [ack])
  /\ snd (fst result) =
     jsonOk (StreamMessage {| id := ack; finish := false;
                              content := mergedQueuedPlaceholder;
                              msg_item := None |}) nonce timestamp.
Proof.
  intros Hr Hf Hev Hst Hnew admitted Hadm Hmerged result st' ack.
  subst admitted result st'.
  pose proof (reachable_consistent _ Hr) as [[_ _ Hids _ _ _] _].
  destruct (addPendingMessage_merged _ rnd now _ _ _ Hadm Hmerged)
    as (k & p & Hp & Hsid & Est).
  destruct (Hids k p Hp) as [Htrim Hne]. rewrite Hsid in Htrim, Hne.
  destruct Hf as (Hl & Hfs & _ & Hfp).
  destruct (mergeInto_pending (paramsOf target msg nonce timestamp) k p (streamStore ms))
    as (_ & _ & Emsg & Estr).
  pose proof (mergeInto_acks (paramsOf target msg nonce timestamp) k p (streamStore ms))
    as Eack.
  assert (Hshape : handleBotPost target msg nonce timestamp rnd now ms =
    (with_store (fun _ =>
       withAckStream msg batchStreamId rnd now
         (fst (addPendingMessage (paramsOf target msg nonce timestamp) rnd now
                 (streamStore ms))))
       (match truthy_opt (Msg.response_url msg) with
        | Some _ =>
            storeActiveReply batchStreamId (Msg.response_url msg)
              (WebhookTarget.egressProxyUrl target) now
              (with_store (fun _ =>
                 fst (addPendingMessage (paramsOf target msg nonce timestamp)
                        rnd now (streamStore ms))) ms)
        | None =>
            with_store (fun _ =>
              fst (addPendingMessage (paramsOf target msg nonce timestamp)
                     rnd now (streamStore ms))) ms
        end),
     jsonOk (buildStreamTextPlaceholderReply ack mergedQueuedPlaceholder)
       nonce timestamp,
     [])).
  { unfold handleBotPost, handleMessage, withAckStream.
    rewrite !bool_decide_eq_false_2 by assumption. rewrite Hnew.
    destruct (addPendingMessage _ rnd now (streamStore ms)) as [st1 [sid' status']].
    cbn [fst snd] in *. injection Hadm as -> ->.
    assert (Hstore : forall ms2,
      ms2 = match truthy_opt (Msg.response_url msg) with
            | Some _ =>
                storeActiveReply batchStreamId (Msg.response_url msg)
                  (WebhookTarget.egressProxyUrl target) now
                  (with_store (fun _ => st1) ms)
            | None => with_store (fun _ => st1) ms
            end -> streamStore ms2 = st1).
    { intros ms2 ->. destruct (truthy_opt (Msg.response_url msg));
        [apply storeActiveReply_store|reflexivity]. }
    rewrite (Hstore _ eq_refl).
    destruct (createStream _ rnd now st1) as [st3 ackId] eqn:Ecs.
    assert (ackId = ack) as ->.
    { unfold createStream in Ecs. injection Ecs as _ <-. reflexivity. }
    destruct Hmerged as [->| ->]; reflexivity. }
  rewrite Hshape. cbn [fst snd with_store streamStore].
  rewrite Est at 1. rewrite Emsg.
  destruct (withAckStream_facts msg batchStreamId rnd now
              (fst (addPendingMessage (paramsOf target msg nonce timestamp) rnd now
                      (streamStore ms))) Hl Htrim Hne) as (Hs & Hm & Ha).
  rewrite Est in Ha at 2. rewrite Eack in Ha.
  split; [reflexivity|]. split.
  { intros E. apply (Hfp k p Hp). rewrite Hsid. symmetry. exact E. }
  split; [exact Hfs|]. split; [exact Hs|]. split; [exact Hm|].
  split; [exact Ha|].
  unfold buildStreamTextPlaceholderReply. rewrite merged_placeholder_text.
  reflexivity.
Qed.

End HandlerFacts.

Definition poll_of (streamId : string) : Msg.t :=
  {| Msg.msgid := None; Msg.msgtype := Some (lit "stream");
     Msg.chattype := None; Msg.chatid := None; Msg.response_url := None;
     Msg.from_userid := None; Msg.legacy_userid := None;
     Msg.stream_id := Some (lit streamId); Msg.event_eventtype := None |}.

Definition idle : MonitorState :=
  {| streamStore := Store.empty; activeReplies := ∅ |}.

(** A text message of user [U], and the click on a template card. *)
Definition card_event (id : string) : Msg.t :=
  {| Msg.msgid := Some (lit id); Msg.msgtype := Some (lit "event");
     Msg.chattype := None; Msg.chatid := None;
     Msg.response_url := Some (lit "https://example.invalid/r");
     Msg.from_userid := Some (lit "U"); Msg.legacy_userid := None;
     Msg.stream_id := None;
     Msg.event_eventtype := Some (lit "template_card_event") |}.

Definition demo_body (msg : Msg.t) : jsstring := default [] (Msg.msgid msg).

(** The monitor after the handler has answered the messages [ids] of user
    [U], drawing the random bytes [1], [2], ... in turn. *)
Fixpoint after_messages (ids : list string) (n : N) (ms : MonitorState)
  : MonitorState :=
  match ids with
  | [] => ms
  | id :: ids' =>
      after_messages ids' (n + 1)
        (fst (fst (handleBotPost demo_body demo_target (demo_msg id)
                     (lit "n") (lit "t") (demo_random n) 0 ms)))
  end.

(** The same run as commands on the store. *)
Definition two_admitted : list command :=
  [AddPendingMessage (paramsOf demo_body demo_target (demo_msg "M1") (lit "n") (lit "t"))
     (demo_random 1) 0;
   AddPendingMessage (paramsOf demo_body demo_target (demo_msg "M2") (lit "n") (lit "t"))
     (demo_random 2) 0].

Lemma merged_message_gets_an_ack_stream_witness :
  let ms := after_messages ["M1"%string; "M2"%string] 1 idle in
  let msg := demo_msg "M3" in
  let rnd := demo_random 3 in
  let batchStreamId := Buffer_toString_hex (demo_random 2) in
  let admitted :=
    addPendingMessage (paramsOf demo_body demo_target msg (lit "n") (lit "t"))
      rnd 0 (streamStore ms) in
  let result := handleBotPost demo_body demo_target msg (lit "n") (lit "t") rnd 0 ms in
  let st' := streamStore (fst (fst result)) in
  let ack := Buffer_toString_hex rnd in
  (reachable (streamStore ms) /\ fresh rnd (streamStore ms)
   /\ existingStreamOf msg (streamStore ms) = None
   /\ snd admitted = (batchStreamId, queued_merged))
  /\ msgidToStreamId (fst admitted) = msgidToStreamId (streamStore ms)
  /\ ack <> batchStreamId
  /\ streams (streamStore ms) !! ack = None
  /\ (exists s, streams st' !! ack = Some s
        /\ StreamState.started s = true
        /\ StreamState.finished s = false
        /\ StreamState.content s = mergedQueuedPlaceholder)
  /\ (forall m, Msg.msgid msg = Some m -> m <> [] ->
        getStreamByMsgId m st' = Some ack)
  /\ batchStreamIdToAckStreamIds st' !! batchStreamId =
     Some (default [] (batchStreamIdToAckStreamIds (streamStore ms) !! batchStreamId)
           ++ [ack])
  /\ snd (fst result) =
     jsonOk (StreamMessage {| id := ack; finish := false;
                              content := mergedQueuedPlaceholder;
                              msg_item := None |}) (lit "n") (lit "t").
Proof.
  intros ms msg rnd batchStreamId admitted result st' ack.
  assert (Hst : streamStore ms = run two_admitted Store.empty)
    by (vm_compute; reflexivity).
  assert (Hr : reachable (streamStore ms)).
  { rewrite Hst. apply (reachable_run two_admitted Store.empty reachable_empty).
    vm_compute. reflexivity. }
  assert (Hf : fresh rnd (streamStore ms)).
  { apply freshb_fresh. vm_compute. reflexivity. }
  assert (H1 : toLowerCase (default [] (Msg.msgtype msg)) <> lit "event")
    by (vm_compute; discriminate).
  assert (H2 : toLowerCase (default [] (Msg.msgtype msg)) <> lit "stream")
    by (vm_compute; discriminate).
  assert (H3 : existingStreamOf msg (streamStore ms) = None)
    by (vm_compute; reflexivity).
  assert (H4 : snd admitted = (batchStreamId, queued_merged))
    by (vm_compute; reflexivity).
  split; [exact (conj Hr (conj Hf (conj H3 H4)))|].
  exact (merged_message_gets_an_ack_stream demo_body demo_target msg (lit "n")
           (lit "t") rnd 0 ms batchStreamId queued_merged Hr Hf H1 H2 H3 H4
           (or_intror eq_refl)).
Defined.

Lemma duplicate_msgid_is_answered_from_the_map_witness :
  let ms := after_messages ["M1"%string] 1 idle in
  let msg := demo_msg "M1" in
  let existing := Buffer_toString_hex (demo_random 1) in
  let result := handleBotPost demo_body demo_target msg (lit "n") (lit "t")
                  (demo_random 2) 0 ms in
  let msgtype := toLowerCase (default [] (Msg.msgtype msg)) in
  let eventtype := toLowerCase (default [] (Msg.event_eventtype msg)) in
  (reachable (streamStore ms)
   /\ Msg.msgid msg = Some (lit "M1") /\ lit "M1" <> []
   /\ getStreamByMsgId (lit "M1") (streamStore ms) = Some existing)
  /\ fst (fst result) = ms
  /\ snd result = []
  /\ statusCode (snd (fst result)) = 200%Z
  /\ (msgtype <> lit "event" -> msgtype <> lit "stream" ->
      encrypted (snd (fst result)) =
      buildStreamPlaceholderReply existing
        (WebhookTarget.streamPlaceholderContent demo_target))
  /\ (msgtype = lit "event" -> eventtype = lit "template_card_event" ->
      encrypted (snd (fst result)) = EmptyObject).
Proof.
  intros ms msg existing result msgtype eventtype.
  assert (Hst : streamStore ms = run (firstn 1 two_admitted) Store.empty)
    by (vm_compute; reflexivity).
  assert (Hr : reachable (streamStore ms)).
  { rewrite Hst.
    apply (reachable_run (firstn 1 two_admitted) Store.empty reachable_empty).
    vm_compute. reflexivity. }
  assert (Hne : lit "M1" <> []) by (vm_compute; discriminate).
  assert (Hex : getStreamByMsgId (lit "M1") (streamStore ms) = Some existing)
    by (vm_compute; reflexivity).
  split; [exact (conj Hr (conj eq_refl (conj Hne Hex)))|].
  exact (duplicate_msgid_is_answered_from_the_map demo_body demo_target msg
           (lit "n") (lit "t") (demo_random 2) 0 ms (lit "M1") existing
           Hr eq_refl Hne Hex).
Defined.

(** A poll of [streamId] that carries the msg-id [id]. *)
Definition poll_with_msgid (id : string) (streamId : jsstring) : Msg.t :=
  {| Msg.msgid := Some (lit id); Msg.msgtype := Some (lit "stream");
     Msg.chattype := None; Msg.chatid := None; Msg.response_url := None;
     Msg.from_userid := Some (lit "U"); Msg.legacy_userid := None;
     Msg.stream_id := Some streamId; Msg.event_eventtype := None |}.

(** C5 as stated fails for events and for stream polls.  The second POST of
    a template-card event finds its msg-id mapped to the stream the first one
    allocated, and is answered with the empty object, not with a placeholder
    of that stream.  A stream poll whose msg-id is mapped is answered with
    the state of the polled stream (here its empty content), not with the
    placeholder. *)
Lemma duplicate_card_event_gets_no_placeholder :
  let first := handleBotPost demo_body demo_target (card_event "E1")
                 (lit "n") (lit "t") (demo_random 1) 0 idle in
  let ms := fst (fst first) in
  let second := handleBotPost demo_body demo_target (card_event "E1")
                  (lit "n") (lit "t") (demo_random 2) 0 ms in
  let ms1 := after_messages ["M1"%string] 1 idle in
  let s1 := Buffer_toString_hex (demo_random 1) in
  let poll := handleBotPost demo_body demo_target (poll_with_msgid "M1" s1)
                (lit "n") (lit "t") (demo_random 2) 0 ms1 in
  (getStreamByMsgId (lit "E1") (streamStore ms)
     = Some (Buffer_toString_hex (demo_random 1))
   /\ snd first = [StartAgentForStream (Buffer_toString_hex (demo_random 1))
                     (card_event "E1")]
   /\ second = (ms, jsonOk EmptyObject (lit "n") (lit "t"), []))
  /\ (getStreamByMsgId (lit "M1") (streamStore ms1) = Some s1
      /\ encrypted (snd (fst poll))
         = StreamMessage {| id := s1; finish := false; content := [];
                            msg_item := None |}
      /\ buildStreamPlaceholderReply s1
           (WebhookTarget.streamPlaceholderContent demo_target)
         = StreamMessage {| id := s1; finish := false; content := lit "1";
                            msg_item := None |}).
Proof. vm_compute. repeat split; reflexivity. Qed.

Lemma stream_poll_of_unknown_stream_witness :
  let msg := poll_of "00112233445566778899aabbccddeeff" in
  (toLowerCase (default [] (Msg.msgtype msg)) = lit "stream"
   /\ getStream (trim (default [] (Msg.stream_id msg))) (streamStore idle) = None)
  /\ handleBotPost (fun _ => []) demo_target msg (lit "n") (lit "t")
       (demo_random 1) 0 idle =
     (idle,
      {| statusCode := 200;
         encrypted :=
           StreamMessage
             {| id := or_unknown (trim (default [] (Msg.stream_id msg)));
                finish := true; content := []; msg_item := None |};
         reply_nonce := lit "n"; reply_timestamp := lit "t" |},
      []).
Proof.
  intros msg.
  assert (H1 : toLowerCase (default [] (Msg.msgtype msg)) = lit "stream")
    by reflexivity.
  assert (H2 : getStream (trim (default [] (Msg.stream_id msg)))
                 (streamStore idle) = None) by reflexivity.
  split; [exact (conj H1 H2)|].
  exact (stream_poll_of_unknown_stream (fun _ => []) demo_target msg
           (lit "n") (lit "t") (demo_random 1) 0 idle H1 H2).
Defined.

(** A text message of user [U] in the group chat [chat]. *)
Definition group_msg (id chat : string) : Msg.t :=
  {| Msg.msgid := Some (lit id); Msg.msgtype := Some (lit "text");
     Msg.chattype := Some (lit "group"); Msg.chatid := Some (lit chat);
     Msg.response_url := None;
     Msg.from_userid := Some (lit "U"); Msg.legacy_userid := None;
     Msg.stream_id := None; Msg.event_eventtype := None |}.

Definition post (msg : Msg.t) (n : N) (ms : MonitorState) : MonitorState :=
  fst (fst (handleBotPost demo_body demo_target msg (lit "n") (lit "t")
              (demo_random n) 0 ms)).

(** The colliding keys as the handler builds them: user [U] writes in the
    group chats [g] and [g#q1].  The fifth message, sent to [g], ends in the
    pending entry of [g#q1]. *)
Example group_chats_with_colliding_keys :
  let g := conversationKeyOf demo_target (group_msg "M1" "g") in
  let ms2 := post (group_msg "M2" "g") 2 (post (group_msg "M1" "g") 1 idle) in
  let ms3 :=
    with_store
      (run [TimerFires 0;
            OnStreamFinished (Buffer_toString_hex (demo_random 1));
            TimerFires 1]) ms2 in
  let ms5 := post (group_msg "M4" "g#q1") 4 (post (group_msg "M3" "g") 3 ms3) in
  let ms6 := post (group_msg "M5" "g") 5 ms5 in
  conversationKeyOf demo_target (group_msg "M4" "g#q1") = g ++ lit "#q1"
  /\ (Conversation.queue <$> conversationState (streamStore ms5) !! g)
     = Some [g ++ lit "#q2"]
  /\ (PendingInbound.contents <$> pendingInbounds (streamStore ms5) !! (g ++ lit "#q2"))
     = Some [lit "M3"]
  /\ (PendingInbound.contents <$> pendingInbounds (streamStore ms6) !! (g ++ lit "#q2"))
     = Some [lit "M3"]
  /\ (PendingInbound.conversationKey <$>
        pendingInbounds (streamStore ms6) !! (g ++ lit "#q1"))
     = Some (g ++ lit "#q1")
  /\ (PendingInbound.contents <$> pendingInbounds (streamStore ms6) !! (g ++ lit "#q1"))
     = Some [lit "M4"; lit "M5"].
Proof. vm_compute. repeat split; reflexivity. Qed.

(** A block of 20483 bytes: one emoji (four bytes) and 20479 letters. *)
Definition long_block : jsstring :=
  [0xD83D; 0xDE00] ++ repeat 0x61 (N.to_nat 20479).

(** C9 at that block, appended to an empty content: the slice of the last
    20480 bytes starts inside the emoji, the stray byte is decoded as
    U+FFFD, and the stored content is 20482 bytes long in UTF-8, two more
    than [STREAM_MAX_BYTES]. *)
Theorem appendBlock_exceeds_the_limit :
  N.of_nat (byteLength long_block) = 20483
  /\ appendBlock [] long_block = 0xFFFD :: repeat 0x61 (N.to_nat 20479)
  /\ N.of_nat (byteLength (appendBlock [] long_block)) = 20482
  /\ Limits.STREAM_MAX_BYTES < N.of_nat (byteLength (appendBlock [] long_block)).
Proof.
  assert (H : appendBlock [] long_block = 0xFFFD :: repeat 0x61 (N.to_nat 20479)).
  { apply (bool_decide_eq_true_1
             (appendBlock [] long_block = 0xFFFD :: repeat 0x61 (N.to_nat 20479))).
    vm_compute. reflexivity. }
  assert (L : N.of_nat (byteLength (appendBlock [] long_block)) = 20482).
  { rewrite H. vm_compute. reflexivity. }
  split; [vm_compute; reflexivity|]. split; [exact H|]. split; [exact L|].
  rewrite L. reflexivity.
Qed.

End MonitorFacts.


(** ** Envelope codec (crypto.ts) *)

Module Envelope.

Definition WECOM_PKCS7_BLOCK_SIZE : N := 32.

(** What the codec throws. *)
Inductive error :=
| KeyMissing               (* encodingAESKey missing *)
| InvalidKeyLength (got : nat)
| InvalidPkcs7Payload
| InvalidPkcs7Padding
| PayloadTooShort (got : nat)
| InvalidMsgLength
| ReceiveIdMismatch (got : jsstring)
| RangeError               (* writeUInt32BE out of range *)
| CipherError.             (* thrown by node:crypto *)

Inductive result (A : Type) :=
| Ok (a : A)
| Throw (e : error).
Arguments Ok {A} a.
Arguments Throw {A} e.

(** Statements run in sequence; a throw ends the run. *)
#[export] Instance result_bind : MBind result := fun A B f r =>
  match r with
  | Ok a => f a
  | Throw e => Throw e
  end.

(** [pkcs7Pad(buf, blockSize)]. *)
Definition pkcs7Pad (buf : Buffer) (blockSize : N) : Buffer :=
  let mod_ := N.of_nat (length buf) mod blockSize in
  let pad := if mod_ =? 0 then blockSize else blockSize - mod_ in
  buf ++ repeat (byte_of_N pad) (N.to_nat pad).

(** The checks of [pkcs7Unpad] on the pad count read from the last byte,
    and the result. *)
Definition removePadding (pad : N) (buf : Buffer) (blockSize : N) : result Buffer :=
  if (pad <? 1) || (blockSize <? pad) then Throw InvalidPkcs7Padding
  else if N.of_nat (length buf) <? pad then Throw InvalidPkcs7Payload
  else
    let keep := (length buf - N.to_nat pad)%nat in
    if forallb (fun b => Byte.to_N b =? pad) (skipn keep buf)
    then Ok (firstn keep buf)
    else Throw InvalidPkcs7Padding.

(** [pkcs7Unpad(buf, blockSize)]. *)
Definition pkcs7Unpad (buf : Buffer) (blockSize : N) : result Buffer :=
  match buf with
  | [] => Throw InvalidPkcs7Payload
  | b0 :: _ => removePadding (Byte.to_N (List.last buf b0)) buf blockSize
  end.

(** [buf.writeUInt32BE(value, 0)] on a buffer of four bytes. *)
Definition writeUInt32BE (value : N) : result Buffer :=
  if value <? 2 ^ 32 then
    Ok [byte_of_N (value / 2 ^ 24); byte_of_N (value / 2 ^ 16);
        byte_of_N (value / 2 ^ 8); byte_of_N value]
  else Throw RangeError.

(** [buf.readUInt32BE(offset)]; the caller has checked the length. *)
Definition readUInt32BE (buf : Buffer) (offset : nat) : N :=
  match skipn offset buf with
  | b0 :: b1 :: b2 :: b3 :: _ =>
      Byte.to_N b0 * 2 ^ 24 + Byte.to_N b1 * 2 ^ 16
      + Byte.to_N b2 * 2 ^ 8 + Byte.to_N b3
  | _ => 0
  end.

(** [buf.subarray(start, end)]. *)
Definition subarray (buf : Buffer) (start end_ : nat) : Buffer :=
  firstn (end_ - start) (skipn start buf).

(** The plaintext layout: random bytes, length, message, receiver id. *)
Definition frame (random16 : Buffer) (plaintext receiveId : jsstring)
  : result Buffer :=
  let msg := Buffer_from_utf8 plaintext in
  msgLen ← writeUInt32BE (N.of_nat (length msg));
  Ok (random16 ++ msgLen ++ msg ++ Buffer_from_utf8 receiveId).

(** The reading of a decrypted, unpadded payload. *)
Definition unframe (decrypted : Buffer) (receiveId : jsstring) : result jsstring :=
  if (length decrypted <? 20)%nat then Throw (PayloadTooShort (length decrypted))
  else
    let msgLen := readUInt32BE decrypted 16 in
    let msgEnd := 20 + msgLen in
    if N.of_nat (length decrypted) <? msgEnd then Throw InvalidMsgLength
    else
      let msg := Buffer_toString_utf8 (subarray decrypted 20 (N.to_nat msgEnd)) in
      if truthy receiveId then
        let trailing :=
          Buffer_toString_utf8 (skipn (N.to_nat msgEnd) decrypted) in
        if bool_decide (trailing = receiveId) then Ok msg
        else Throw (ReceiveIdMismatch trailing)
      else Ok msg.

(** [trimmed.endsWith("=") ? trimmed : `${trimmed}=`]. *)
Definition withPadding (trimmed : jsstring) : jsstring :=
  if endsWith trimmed (lit "=") then trimmed else trimmed ++ lit "=".

Section Codec.

(** The platform: [Buffer.from(s, "base64")], [buf.toString("base64")], and
    the aes-256-cbc cipher and decipher of node:crypto with automatic
    padding off, given key, initialisation vector and data. *)
Variable base64_decode : jsstring -> Buffer.
Variable base64_encode : Buffer -> jsstring.
Variable cipher decipher : Buffer -> Buffer -> Buffer -> option Buffer.

Definition run_cipher (o : option Buffer) : result Buffer :=
  match o with Some b => Ok b | None => Throw CipherError end.

(** [decodeEncodingAESKey(encodingAESKey)]. *)
Definition decodeEncodingAESKey (encodingAESKey : jsstring) : result Buffer :=
  let trimmed := trim encodingAESKey in
  if negb (truthy trimmed) then Throw KeyMissing
  else
    let key := base64_decode (withPadding trimmed) in
    if (length key =? 32)%nat then Ok key
    else Throw (InvalidKeyLength (length key)).

(** [encryptWecomPlaintext({encodingAESKey, receiveId, plaintext})];
    [random16] is what [crypto.randomBytes(16)] returns. *)
Definition encryptWecomPlaintext (encodingAESKey receiveId plaintext : jsstring)
  (random16 : Buffer) : result jsstring :=
  aesKey ← decodeEncodingAESKey encodingAESKey;
  let iv := subarray aesKey 0 16 in
  raw ← frame random16 plaintext receiveId;
  let padded := pkcs7Pad raw WECOM_PKCS7_BLOCK_SIZE in
  encrypted ← run_cipher (cipher aesKey iv padded);
  Ok (base64_encode encrypted).

(** [decryptWecomEncrypted({encodingAESKey, receiveId, encrypt})]. *)
Definition decryptWecomEncrypted (encodingAESKey receiveId encrypt : jsstring)
  : result jsstring :=
  aesKey ← decodeEncodingAESKey encodingAESKey;
  let iv := subarray aesKey 0 16 in
  decryptedPadded ← run_cipher (decipher aesKey iv (base64_decode encrypt));
  decrypted ← pkcs7Unpad decryptedPadded WECOM_PKCS7_BLOCK_SIZE;
  unframe decrypted receiveId.

End Codec.

End Envelope.

(** *** Padding and framing are undone by their readers *)

Module EnvelopeFacts.
Import Envelope Utf8Facts.

Lemma to_N_byte_of_N_mod (n : N) : Byte.to_N (byte_of_N n) = n mod 256.
Proof.
  unfold byte_of_N.
  pose proof (N.mod_lt n 256 ltac:(lia)) as Hlt.
  destruct (Byte.of_N (n mod 256)) as [b|] eqn:E.
  - apply Byte.to_of_N in E. exact E.
  - apply Byte.of_N_None_iff in E. lia.
Qed.

(** The pad count: between 1 and the block size. *)
Definition padCount (len blockSize : N) : N :=
  if len mod blockSize =? 0 then blockSize else blockSize - len mod blockSize.

Lemma padCount_range (len : N) : 1 <= padCount len 32 <= 32.
Proof.
  unfold padCount. pose proof (N.mod_lt len 32 ltac:(lia)) as Hm.
  remember (len mod 32) as m eqn:Em.
  destruct (N.eqb_spec m 0); lia.
Qed.

Lemma pkcs7Pad_eq (raw : Buffer) :
  pkcs7Pad raw 32 =
  raw ++ repeat (byte_of_N (padCount (N.of_nat (length raw)) 32))
           (N.to_nat (padCount (N.of_nat (length raw)) 32)).
Proof. reflexivity. Qed.

(** Whatever the length, the padding is removed again. *)
Lemma pkcs7Unpad_pkcs7Pad (raw : Buffer) :
  pkcs7Unpad (pkcs7Pad raw 32) 32 = Ok raw.
Proof.
  rewrite pkcs7Pad_eq.
  pose proof (padCount_range (N.of_nat (length raw))) as Hr.
  remember (padCount (N.of_nat (length raw)) 32) as pad eqn:Ep.
  destruct (N.to_nat pad) as [|k] eqn:Ek; [lia|].
  assert (Hlast : forall d, List.last (raw ++ repeat (byte_of_N pad) (S k)) d
                            = byte_of_N pad).
  { intros d. cbn [repeat]. rewrite repeat_cons, app_assoc. apply last_last. }
  assert (Hunpad : pkcs7Unpad (raw ++ repeat (byte_of_N pad) (S k)) 32 =
            removePadding pad (raw ++ repeat (byte_of_N pad) (S k)) 32).
  { unfold pkcs7Unpad.
    destruct (raw ++ repeat (byte_of_N pad) (S k)) as [|b0 rest] eqn:El.
    { destruct raw; discriminate. }
    rewrite Hlast, to_N_byte_of_N by lia. reflexivity. }
  rewrite Hunpad. unfold removePadding.
  assert (Hlen : length (raw ++ repeat (byte_of_N pad) (S k))
                 = (length raw + S k)%nat).
  { rewrite length_app, repeat_length. reflexivity. }
  rewrite Hlen.
  destruct (N.ltb_spec pad 1); [lia|].
  destruct (N.ltb_spec 32 pad); [lia|].
  destruct (N.ltb_spec (N.of_nat (length raw + S k)) pad); [lia|].
  cbn [orb]. rewrite <- Ek.
  replace (length raw + N.to_nat pad - N.to_nat pad)%nat with (length raw) by lia.
  rewrite skipn_app, Nat.sub_diag, skipn_all, firstn_app, Nat.sub_diag,
    firstn_all. cbn [skipn firstn app].
  rewrite app_nil_r.
  assert (Hall : forallb (fun b => Byte.to_N b =? pad)
                   (repeat (byte_of_N pad) (N.to_nat pad)) = true).
  { apply forallb_forall. intros b Hb. apply repeat_spec in Hb as ->.
    rewrite to_N_byte_of_N by lia. apply N.eqb_refl. }
  rewrite drop_0, Hall. reflexivity.
Qed.

Lemma pkcs7Pad_length (raw : Buffer) :
  N.of_nat (length (pkcs7Pad raw 32)) mod 32 = 0
  /\ (N.of_nat (length raw) mod 32 = 0 ->
      length (pkcs7Pad raw 32) = (length raw + 32)%nat).
Proof.
  rewrite pkcs7Pad_eq, length_app, repeat_length. unfold padCount.
  pose proof (N.div_mod (N.of_nat (length raw)) 32 ltac:(lia)) as Hd.
  pose proof (N.mod_lt (N.of_nat (length raw)) 32 ltac:(lia)) as Hm.
  remember (N.of_nat (length raw) mod 32) as m eqn:Em.
  remember (N.of_nat (length raw) / 32) as q eqn:Eq.
  split.
  - destruct (N.eqb_spec m 0) as [->|Hne].
    + replace (N.of_nat (length raw + N.to_nat 32)) with (0 + (q + 1) * 32) by lia.
      rewrite N.Div0.mod_add. reflexivity.
    + replace (N.of_nat (length raw + N.to_nat (32 - m))) with (0 + (q + 1) * 32) by lia.
      rewrite N.Div0.mod_add. reflexivity.
  - intros ->. reflexivity.
Qed.

(** Four bytes written big-endian read back as the value. *)
Lemma uint32_bytes (n : N) :
  n < 2 ^ 32 ->
  n / 2 ^ 24 mod 256 * 2 ^ 24 + n / 2 ^ 16 mod 256 * 2 ^ 16
  + n / 2 ^ 8 mod 256 * 2 ^ 8 + n mod 256 = n.
Proof.
  intros Hn.
  change (2 ^ 24) with (2 ^ 16 * 256). change (2 ^ 16) with (2 ^ 8 * 256).
  change (2 ^ 8) with 256.
  rewrite <- !N.Div0.div_div.
  pose proof (N.div_mod n 256 ltac:(lia)) as H0.
  pose proof (N.mod_lt n 256 ltac:(lia)) as L0.
  remember (n / 256) as q1 eqn:E1. remember (n mod 256) as r0 eqn:F0.
  pose proof (N.div_mod q1 256 ltac:(lia)) as H1.
  pose proof (N.mod_lt q1 256 ltac:(lia)) as L1.
  remember (q1 / 256) as q2 eqn:E2. remember (q1 mod 256) as r1 eqn:F1.
  pose proof (N.div_mod q2 256 ltac:(lia)) as H2.
  pose proof (N.mod_lt q2 256 ltac:(lia)) as L2.
  remember (q2 / 256) as q3 eqn:E3. remember (q2 mod 256) as r2 eqn:F2.
  assert (Hq3 : q3 < 256) by (change (2 ^ 32) with 4294967296 in Hn; lia).
  rewrite (N.mod_small q3 256) by exact Hq3.
  lia.
Qed.

Lemma readUInt32BE_writeUInt32BE (n : N) (bs pre post : Buffer) :
  writeUInt32BE n = Ok bs -> length pre = 16%nat ->
  length bs = 4%nat /\ readUInt32BE (pre ++ bs ++ post) 16 = n.
Proof.
  unfold writeUInt32BE. destruct (N.ltb_spec n (2 ^ 32)) as [Hn|]; [|discriminate].
  intros [= <-] Hpre. split; [reflexivity|].
  unfold readUInt32BE. rewrite <- Hpre, drop_app_length. cbn [app].
  rewrite !to_N_byte_of_N_mod. apply uint32_bytes. exact Hn.
Qed.

(** What [frame] builds. *)
Lemma frame_Ok (random16 : Buffer) (plaintext receiveId : jsstring) :
  N.of_nat (byteLength plaintext) < 2 ^ 32 ->
  exists msgLen,
    writeUInt32BE (N.of_nat (byteLength plaintext)) = Ok msgLen
    /\ frame random16 plaintext receiveId
       = Ok (random16 ++ msgLen ++ Buffer_from_utf8 plaintext
               ++ Buffer_from_utf8 receiveId).
Proof.
  intros Hn. unfold frame, byteLength in *.
  destruct (writeUInt32BE (N.of_nat (length (Buffer_from_utf8 plaintext))))
    as [msgLen|e] eqn:Ew.
  - exists msgLen. split; reflexivity.
  - unfold writeUInt32BE in Ew. apply N.ltb_lt in Hn. rewrite Hn in Ew.
    discriminate.
Qed.

Lemma frame_length (random16 raw : Buffer) (plaintext receiveId : jsstring) :
  length random16 = 16%nat ->
  frame random16 plaintext receiveId = Ok raw ->
  length raw = (20 + byteLength plaintext + byteLength receiveId)%nat.
Proof.
  intros Hr. unfold frame, byteLength.
  destruct (writeUInt32BE (N.of_nat (length (Buffer_from_utf8 plaintext))))
    as [msgLen|e] eqn:Ew; [|discriminate].
  intros [= <-].
  destruct (readUInt32BE_writeUInt32BE _ _ random16 [] Ew Hr) as [H4 _].
  rewrite !length_app, Hr, H4. lia.
Qed.

(** Reading a frame: the message comes back as its well-formed version;
    a receiver id that is not well formed is reported as a mismatch. *)
Lemma unframe_frame (random16 raw : Buffer) (plaintext receiveId : jsstring) :
  length random16 = 16%nat ->
  code_units plaintext -> code_units receiveId ->
  frame random16 plaintext receiveId = Ok raw ->
  unframe raw receiveId =
  if truthy receiveId && negb (bool_decide (toWellFormed receiveId = receiveId))
  then Throw (ReceiveIdMismatch (toWellFormed receiveId))
  else Ok (toWellFormed plaintext).
Proof.
  intros Hr HP HR Hf.
  pose proof (frame_length _ _ _ _ Hr Hf) as Hlen.
  unfold frame in Hf.
  destruct (writeUInt32BE (N.of_nat (length (Buffer_from_utf8 plaintext))))
    as [msgLen|e] eqn:Ew; [|discriminate].
  injection Hf as <-.
  destruct (readUInt32BE_writeUInt32BE _ _ random16
              (Buffer_from_utf8 plaintext ++ Buffer_from_utf8 receiveId) Ew Hr)
    as [H4 Hread].
  unfold unframe. rewrite Hread, Hlen. unfold byteLength.
  destruct (Nat.ltb_spec (20 + length (Buffer_from_utf8 plaintext)
                          + length (Buffer_from_utf8 receiveId)) 20); [lia|].
  destruct (N.ltb_spec
              (N.of_nat (20 + length (Buffer_from_utf8 plaintext)
                         + length (Buffer_from_utf8 receiveId)))
              (20 + N.of_nat (length (Buffer_from_utf8 plaintext)))); [lia|].
  replace (N.to_nat (20 + N.of_nat (length (Buffer_from_utf8 plaintext))))
    with (20 + length (Buffer_from_utf8 plaintext))%nat by lia.
  assert (Hmsg : subarray (random16 ++ msgLen ++ Buffer_from_utf8 plaintext
                             ++ Buffer_from_utf8 receiveId)
                   20 (20 + length (Buffer_from_utf8 plaintext))
                 = Buffer_from_utf8 plaintext).
  { unfold subarray.
    replace (20 + length (Buffer_from_utf8 plaintext) - 20)%nat
      with (length (Buffer_from_utf8 plaintext)) by lia.
    rewrite (app_assoc random16 msgLen).
    replace 20%nat with (length (random16 ++ msgLen))
      by (rewrite length_app; lia).
    rewrite drop_app_length, take_app_length. reflexivity. }
  assert (Htrail : skipn (20 + length (Buffer_from_utf8 plaintext))
                     (random16 ++ msgLen ++ Buffer_from_utf8 plaintext
                        ++ Buffer_from_utf8 receiveId)
                   = Buffer_from_utf8 receiveId).
  { rewrite (app_assoc random16 msgLen), app_assoc.
    replace (20 + length (Buffer_from_utf8 plaintext))%nat
      with (length ((random16 ++ msgLen) ++ Buffer_from_utf8 plaintext))
      by (rewrite !length_app; lia).
    apply drop_app_length. }
  rewrite Hmsg, Htrail, !toString_from_utf8 by assumption.
  destruct (truthy receiveId); cbn [andb]; [|reflexivity].
  destruct (bool_decide (toWellFormed receiveId = receiveId)); reflexivity.
Qed.

(** *** The round trip over any platform whose primitives invert *)

Section RoundTrip.

Variable base64_decode : jsstring -> Buffer.
Variable base64_encode : Buffer -> jsstring.
Variable cipher decipher : Buffer -> Buffer -> Buffer -> option Buffer.

(** Decoding an encoded buffer gives the buffer. *)
Hypothesis base64_roundtrip : forall b, base64_decode (base64_encode b) = b.

(** With a key of 32 bytes, an initialisation vector of 16 and data of whole
    AES blocks, the cipher succeeds and the decipher restores the data. *)
Hypothesis cipher_roundtrip : forall key iv data,
  length key = 32%nat -> length iv = 16%nat ->
  N.of_nat (length data) mod 16 = 0 ->
  exists c, cipher key iv data = Some c /\ decipher key iv c = Some data.

Local Abbreviation encrypt := (encryptWecomPlaintext base64_decode base64_encode cipher).
Local Abbreviation decrypt := (decryptWecomEncrypted base64_decode decipher).

Lemma decodeEncodingAESKey_Ok (encodingAESKey : jsstring) :
  truthy (trim encodingAESKey) = true ->
  length (base64_decode (withPadding (trim encodingAESKey))) = 32%nat ->
  decodeEncodingAESKey base64_decode encodingAESKey
  = Ok (base64_decode (withPadding (trim encodingAESKey))).
Proof.
  intros Ht Hl. unfold decodeEncodingAESKey. rewrite Ht, Hl. reflexivity.
Qed.

Lemma pkcs7Pad_blocks (raw : Buffer) :
  N.of_nat (length (pkcs7Pad raw 32)) mod 16 = 0.
Proof.
  destruct (pkcs7Pad_length raw) as [Hm _].
  pose proof (N.div_mod (N.of_nat (length (pkcs7Pad raw 32))) 32 ltac:(lia)) as Hd.
  rewrite Hm, N.add_0_r in Hd. rewrite Hd.
  replace (32 * (N.of_nat (length (pkcs7Pad raw 32)) / 32))
    with (0 + (2 * (N.of_nat (length (pkcs7Pad raw 32)) / 32)) * 16) by lia.
  rewrite N.Div0.mod_add. reflexivity.
Qed.

(** Decrypting what was encrypted reads the frame that was built. *)
Lemma decrypt_encrypt (encodingAESKey receiveId plaintext : jsstring)
  (random16 : Buffer) :
  truthy (trim encodingAESKey) = true ->
  length (base64_decode (withPadding (trim encodingAESKey))) = 32%nat ->
  N.of_nat (byteLength plaintext) < 2 ^ 32 ->
  exists raw encrypted,
    frame random16 plaintext receiveId = Ok raw
    /\ (let aesKey := base64_decode (withPadding (trim encodingAESKey)) in
        cipher aesKey (subarray aesKey 0 16) (pkcs7Pad raw 32) = Some encrypted)
    /\ encrypt encodingAESKey receiveId plaintext random16
       = Ok (base64_encode encrypted)
    /\ decrypt encodingAESKey receiveId (base64_encode encrypted)
       = unframe raw receiveId.
Proof.
  intros Ht Hl Hn.
  destruct (frame_Ok random16 plaintext receiveId Hn) as (msgLen & _ & Hf).
  set (raw := random16 ++ msgLen ++ Buffer_from_utf8 plaintext
                ++ Buffer_from_utf8 receiveId) in *.
  cbv zeta.
  set (key := base64_decode (withPadding (trim encodingAESKey))) in *.
  assert (Hiv : length (subarray key 0 16) = 16%nat).
  { unfold subarray. rewrite drop_0, length_take, Hl. reflexivity. }
  destruct (cipher_roundtrip key (subarray key 0 16) (pkcs7Pad raw 32)
              Hl Hiv (pkcs7Pad_blocks raw)) as (c & Hc & Hd).
  exists raw, c. split; [exact Hf|]. split; [exact Hc|].
  unfold encryptWecomPlaintext, decryptWecomEncrypted.
  rewrite (decodeEncodingAESKey_Ok _ Ht Hl). fold key.
  cbn [mbind result_bind]. rewrite Hf. cbn [mbind result_bind].
  unfold WECOM_PKCS7_BLOCK_SIZE. rewrite Hc. cbn [run_cipher mbind result_bind].
  split; [reflexivity|].
  rewrite base64_roundtrip, Hd. cbn [run_cipher mbind result_bind].
  rewrite pkcs7Unpad_pkcs7Pad. reflexivity.
Qed.

(** Without a receiver id the message comes back as its well-formed
    version, whatever it was. *)
Lemma decrypt_encrypt_toWellFormed (encodingAESKey plaintext : jsstring)
  (random16 : Buffer) :
  truthy (trim encodingAESKey) = true ->
  length (base64_decode (withPadding (trim encodingAESKey))) = 32%nat ->
  length random16 = 16%nat ->
  code_units plaintext ->
  N.of_nat (byteLength plaintext) < 2 ^ 32 ->
  exists encrypted,
    encrypt encodingAESKey [] plaintext random16 = Ok encrypted
    /\ decrypt encodingAESKey [] encrypted = Ok (toWellFormed plaintext).
Proof.
  intros Ht Hl Hr HP Hn.
  destruct (decrypt_encrypt encodingAESKey [] plaintext random16 Ht Hl Hn)
    as (raw & c & Hf & _ & He & Hd).
  exists (base64_encode c). split; [exact He|].
  rewrite Hd, (unframe_frame random16 raw plaintext [] Hr HP
                 ltac:(constructor) Hf).
  reflexivity.
Qed.

(** C6 (amended): for a plaintext and a receiver id that are well-formed
    UTF-16 (no unpaired surrogate), a key that decodes to 32 bytes, and 16
    random bytes, encryptWecomPlaintext succeeds and decryptWecomEncrypted
    with the same key and receiver id returns the plaintext.  The frame
    encrypted has 20 + |P| + |R| bytes; it is padded to a multiple of 32, by a
    whole block of 32 when its length is one already, and the padding is
    removed again. *)
Theorem decryptWecomEncrypted_encryptWecomPlaintext
  (encodingAESKey receiveId plaintext : jsstring) (random16 : Buffer) :
  truthy (trim encodingAESKey) = true ->
  length (base64_decode (withPadding (trim encodingAESKey))) = 32%nat ->
  length random16 = 16%nat ->
  isWellFormed plaintext = true ->
  isWellFormed receiveId = true ->
  N.of_nat (byteLength plaintext) < 2 ^ 32 ->
  exists raw encrypted,
    frame random16 plaintext receiveId = Ok raw
    /\ length raw = (20 + byteLength plaintext + byteLength receiveId)%nat
    /\ (let aesKey := base64_decode (withPadding (trim encodingAESKey)) in
        cipher aesKey (subarray aesKey 0 16)
          (pkcs7Pad raw WECOM_PKCS7_BLOCK_SIZE) = Some encrypted)
    /\ N.of_nat (length (pkcs7Pad raw WECOM_PKCS7_BLOCK_SIZE)) mod 32 = 0
    /\ (N.of_nat (length raw) mod 32 = 0 ->
        length (pkcs7Pad raw WECOM_PKCS7_BLOCK_SIZE) = (length raw + 32)%nat)
    /\ pkcs7Unpad (pkcs7Pad raw WECOM_PKCS7_BLOCK_SIZE) WECOM_PKCS7_BLOCK_SIZE
       = Ok raw
    /\ encrypt encodingAESKey receiveId plaintext random16
       = Ok (base64_encode encrypted)
    /\ decrypt encodingAESKey receiveId (base64_encode encrypted)
       = Ok plaintext.
Proof.
  intros Ht Hl Hr HP HR Hn.
  destruct (decrypt_encrypt encodingAESKey receiveId plaintext random16 Ht Hl Hn)
    as (raw & c & Hf & Hc & He & Hd).
  exists raw, c. unfold WECOM_PKCS7_BLOCK_SIZE.
  destruct (pkcs7Pad_length raw) as [Hm Hfull].
  repeat match goal with |- _ /\ _ => split end;
    try assumption.
  - exact (frame_length _ _ _ _ Hr Hf).
  - apply pkcs7Unpad_pkcs7Pad.
  - rewrite Hd, (unframe_frame random16 raw plaintext receiveId Hr
                   (isWellFormed_code_units _ HP)
                   (isWellFormed_code_units _ HR) Hf).
    rewrite !toWellFormed_id by assumption.
    rewrite bool_decide_eq_true_2 by reflexivity.
    rewrite andb_false_r. reflexivity.
Qed.

End RoundTrip.

(** *** A platform for examples

    One character per byte in place of base64, and a cipher that checks the
    sizes node:crypto checks and leaves the data as it is.  Both laws hold. *)

Module Plain.

Definition base64_encode (b : Buffer) : jsstring := map Byte.to_N b.
Definition base64_decode (s : jsstring) : Buffer := map byte_of_N s.

Definition cipher (key iv data : Buffer) : option Buffer :=
  if (length key =? 32)%nat && (length iv =? 16)%nat
     && (N.of_nat (length data) mod 16 =? 0)
  then Some data else None.
Definition decipher := cipher.

Lemma plain_base64_roundtrip (b : Buffer) : base64_decode (base64_encode b) = b.
Proof.
  unfold base64_decode, base64_encode. rewrite map_map.
  rewrite <- (map_id b) at 2. apply map_ext. intros a.
  unfold byte_of_N. pose proof (Byte.to_N_bounded a) as Hb.
  rewrite N.mod_small by lia. rewrite Byte.of_to_N. reflexivity.
Qed.

Lemma plain_cipher_roundtrip (key iv data : Buffer) :
  length key = 32%nat -> length iv = 16%nat ->
  N.of_nat (length data) mod 16 = 0 ->
  exists c, cipher key iv data = Some c /\ decipher key iv c = Some data.
Proof.
  intros Hk Hi Hd. exists data. unfold decipher, cipher.
  rewrite Hk, Hi, Hd. split; reflexivity.
Qed.

Definition encrypt := encryptWecomPlaintext base64_decode base64_encode cipher.
Definition decrypt := decryptWecomEncrypted base64_decode decipher.

End Plain.

Definition demo_key : jsstring := lit "abcdefghijklmnopqrstuvwxyz01234".
Definition demo_random16 : Buffer := repeat (byte_of_N 7) 16.

Lemma decryptWecomEncrypted_encryptWecomPlaintext_witness :
  let P := lit "hello" in
  let R := lit "corp123" in
  (truthy (trim demo_key) = true
   /\ length (Plain.base64_decode (withPadding (trim demo_key))) = 32%nat
   /\ length demo_random16 = 16%nat
   /\ isWellFormed P = true /\ isWellFormed R = true
   /\ N.of_nat (byteLength P) < 2 ^ 32)
  /\ exists raw encrypted,
       frame demo_random16 P R = Ok raw
       /\ length raw = (20 + byteLength P + byteLength R)%nat
       /\ (let aesKey := Plain.base64_decode (withPadding (trim demo_key)) in
           Plain.cipher aesKey (subarray aesKey 0 16)
             (pkcs7Pad raw WECOM_PKCS7_BLOCK_SIZE) = Some encrypted)
       /\ N.of_nat (length (pkcs7Pad raw WECOM_PKCS7_BLOCK_SIZE)) mod 32 = 0
       /\ (N.of_nat (length raw) mod 32 = 0 ->
           length (pkcs7Pad raw WECOM_PKCS7_BLOCK_SIZE) = (length raw + 32)%nat)
       /\ pkcs7Unpad (pkcs7Pad raw WECOM_PKCS7_BLOCK_SIZE) WECOM_PKCS7_BLOCK_SIZE
          = Ok raw
       /\ Plain.encrypt demo_key R P demo_random16
          = Ok (Plain.base64_encode encrypted)
       /\ Plain.decrypt demo_key R (Plain.base64_encode encrypted) = Ok P.
Proof.
  cbv zeta. split.
  - repeat split; try reflexivity.
  - apply (decryptWecomEncrypted_encryptWecomPlaintext
             Plain.base64_decode Plain.base64_encode Plain.cipher Plain.decipher
             Plain.plain_base64_roundtrip Plain.plain_cipher_roundtrip
             demo_key (lit "corp123") (lit "hello") demo_random16);
      reflexivity.
Defined.

(** The frame of the example above has 32 bytes: a whole block of padding is
    added, 64 bytes are encrypted. *)
Example boundary_padding :
  exists raw,
    frame demo_random16 (lit "hello") (lit "corp123") = Ok raw
    /\ length raw = 32%nat
    /\ length (pkcs7Pad raw WECOM_PKCS7_BLOCK_SIZE) = 64%nat
    /\ pkcs7Unpad (pkcs7Pad raw WECOM_PKCS7_BLOCK_SIZE) WECOM_PKCS7_BLOCK_SIZE
       = Ok raw.
Proof. eexists. split; [reflexivity|]. repeat split; reflexivity. Qed.

(** C6 as stated fails for a plaintext with an unpaired surrogate: it is
    encoded as U+FFFD, so U+FFFD is what decryption returns.  This is so on
    every platform whose primitives invert, and is computed on the example
    platform.  A receiver id with an unpaired surrogate is encoded likewise
    and never matched: decryption throws. *)
Lemma lone_surrogate_is_not_returned :
  let P := [0xD800] in
  isWellFormed P = false
  /\ Buffer_from_utf8 P = Buffer_from_utf8 [0xFFFD]
  /\ (forall base64_decode base64_encode cipher decipher,
        (forall b, base64_decode (base64_encode b) = b) ->
        (forall key iv data,
            length key = 32%nat -> length iv = 16%nat ->
            N.of_nat (length data) mod 16 = 0 ->
            exists c, cipher key iv data = Some c
                      /\ decipher key iv c = Some data) ->
        forall encodingAESKey random16,
          truthy (trim encodingAESKey) = true ->
          length (base64_decode (withPadding (trim encodingAESKey))) = 32%nat ->
          length random16 = 16%nat ->
          exists encrypted,
            encryptWecomPlaintext base64_decode base64_encode cipher
              encodingAESKey [] P random16 = Ok encrypted
            /\ decryptWecomEncrypted base64_decode decipher
                 encodingAESKey [] encrypted = Ok [0xFFFD])
  /\ (exists encrypted,
        Plain.encrypt demo_key [] P demo_random16 = Ok encrypted
        /\ Plain.decrypt demo_key [] encrypted = Ok [0xFFFD])
  /\ (exists encrypted,
        Plain.encrypt demo_key [0xD800] (lit "hello") demo_random16 = Ok encrypted
        /\ Plain.decrypt demo_key [0xD800] encrypted
           = Throw (ReceiveIdMismatch [0xFFFD])).
Proof.
  cbv zeta. split; [reflexivity|]. split; [reflexivity|]. split; [|split].
  - intros b64d b64e c d Hb Hc key rnd Ht Hl Hr.
    apply (decrypt_encrypt_toWellFormed b64d b64e c d Hb Hc key [0xD800] rnd
             Ht Hl Hr).
    + repeat constructor.
    + reflexivity.
  - eexists. split; reflexivity.
  - eexists. split; reflexivity.
Qed.

End EnvelopeFacts.

(** ** Access-token cache (agent/api-client.ts) *)

Module Api.

Definition GET_TOKEN : jsstring := lit "https://qyapi.weixin.qq.com/cgi-bin/gettoken".

(** The characters [encodeURIComponent] leaves as they are: letters, digits
    and [- _ . ! ~ * ' ( )]. *)
Definition is_unreserved (c : N) : bool :=
  ((0x41 <=? c) && (c <=? 0x5A)) || ((0x61 <=? c) && (c <=? 0x7A))
  || ((0x30 <=? c) && (c <=? 0x39))
  || existsb (N.eqb c) [0x2D; 0x5F; 0x2E; 0x21; 0x7E; 0x2A; 0x27; 0x28; 0x29].

Definition upper_hex_digit (n : N) : N := if n <? 10 then 0x30 + n else 0x37 + n.

Definition percent (b : byte) : jsstring :=
  [0x25; upper_hex_digit (Byte.to_N b / 16); upper_hex_digit (Byte.to_N b mod 16)].

(** [encodeURIComponent(s)]; [None] is the URIError thrown for a string with
    an unpaired surrogate. *)
Definition encodeURIComponent (s : jsstring) : option jsstring :=
  if isWellFormed s then
    Some (flat_map (fun c => if is_unreserved c then [c]
                             else flat_map percent (utf8_of_code_point c))
            (code_points s))
  else None.

(** The fields of [ResolvedAgentAccount] that [getAccessToken] reads. *)
Record ResolvedAgentAccount := {
  corpId : jsstring;
  corpSecret : jsstring;
  agentId : N
}.

Inductive error :=
| URIError
| FetchFailed                  (* fetch or res.json() rejected *)
| GetTokenFailed (errcode : option Z) (errmsg : option jsstring).

(** The body of the token endpoint's answer. *)
Record TokenResponse := {
  access_token : option jsstring;
  expires_in : option Z;
  errcode : option Z;
  errmsg : option jsstring
}.

(** What the two awaits of a refresh end with: a rejection of [wecomFetch]
    or of [res.json()], or the parsed body. *)
Inductive fetched :=
| FetchRejected
| FetchedJson (json : TokenResponse).

Inductive promise :=
| Pending
| Fulfilled (value : jsstring)
| Rejected (reason : error).

Record TokenCache := {
  token : jsstring;
  expiresAt : Z;
  refreshPromise : option nat
}.

(** The module's state: the [tokenCaches] map; the promises created by
    refreshes, a promise being its index; the refreshes suspended at an await,
    each with the cache key of the object its closure holds; and the URLs
    requested so far. *)
Record world := {
  tokenCaches : gmap jsstring TokenCache;
  promises : list promise;
  suspended : gmap nat jsstring;
  requests : list jsstring
}.

Definition empty : world :=
  {| tokenCaches := ∅; promises := []; suspended := ∅; requests := [] |}.

Definition with_caches (f : gmap jsstring TokenCache -> gmap jsstring TokenCache)
  (w : world) : world :=
  {| tokenCaches := f (tokenCaches w); promises := promises w;
     suspended := suspended w; requests := requests w |}.

Definition set_refreshPromise (p : option nat) (c : TokenCache) : TokenCache :=
  {| token := token c; expiresAt := expiresAt c; refreshPromise := p |}.

Definition set_token (t : jsstring) (e : Z) (c : TokenCache) : TokenCache :=
  {| token := t; expiresAt := e; refreshPromise := refreshPromise c |}.

(** What the promise returned by [getAccessToken] resolves with: a token, or
    the outcome of a refresh promise. *)
Inductive returned :=
| Token (t : jsstring)
| Refresh (p : nat).

Definition cacheKeyOf (agent : ResolvedAgentAccount) : jsstring :=
  corpId agent ++ lit ":" ++ String_of_N (agentId agent).

(** The URL of the refresh; [None] when [encodeURIComponent] throws. *)
Definition tokenUrl (agent : ResolvedAgentAccount) : option jsstring :=
  id ← encodeURIComponent (corpId agent);
  secret ← encodeURIComponent (corpSecret agent);
  Some (GET_TOKEN ++ lit "?corpid=" ++ id ++ lit "&corpsecret=" ++ secret).

(** The call of the async arrow function, up to its first await or to its
    end.  The promise it returns is the next index.  When building the URL
    throws, the [finally] block runs at once and the promise is rejected;
    otherwise the request is sent and the function is suspended. *)
Definition startRefresh (agent : ResolvedAgentAccount) (cacheKey : jsstring)
  (w : world) : nat * world :=
  let p := length (promises w) in
  match tokenUrl agent with
  | None =>
      (p, {| tokenCaches := alter (set_refreshPromise None) cacheKey (tokenCaches w);
             promises := promises w ++ [Rejected URIError];
             suspended := suspended w;
             requests := requests w |})
  | Some url =>
      (p, {| tokenCaches := tokenCaches w;
             promises := promises w ++ [Pending];
             suspended := <[p := cacheKey]> (suspended w);
             requests := requests w ++ [url] |})
  end.

(** [getAccessToken(agent)], with [now] what [Date.now()] returns. *)
Definition getAccessToken (agent : ResolvedAgentAccount) (now : Z) (w : world)
  : returned * world :=
  let cacheKey := cacheKeyOf agent in
  let '(cache, w) :=
    match tokenCaches w !! cacheKey with
    | Some cache => (cache, w)
    | None =>
        let cache := {| token := []; expiresAt := 0; refreshPromise := None |} in
        (cache, with_caches <[cacheKey := cache]> w)
    end in
  if truthy (token cache)
     && (now + Limits.TOKEN_REFRESH_BUFFER_MS <? expiresAt cache)%Z
  then (Token (token cache), w)
  else
    match refreshPromise cache with
    | Some p => (Refresh p, w)
    | None =>
        let '(p, w) := startRefresh agent cacheKey w in
        (Refresh p, with_caches (alter (set_refreshPromise (Some p)) cacheKey) w)
    end.

(** The rest of the async arrow function for the suspended refresh [p], once
    its awaits have ended with [r]; [now] is what [Date.now()] returns then. *)
Definition resume (p : nat) (r : fetched) (now : Z) (w : world) : world :=
  match suspended w !! p with
  | None => w
  | Some cacheKey =>
      let finish (outcome : promise)
                 (update : TokenCache -> TokenCache) : world :=
        {| tokenCaches :=
             alter (fun c => set_refreshPromise None (update c)) cacheKey
               (tokenCaches w);
           promises := <[p := outcome]> (promises w);
           suspended := delete p (suspended w);
           requests := requests w |} in
      match r with
      | FetchRejected => finish (Rejected FetchFailed) (fun c => c)
      | FetchedJson json =>
          match access_token json with
          | Some t =>
              if truthy t then
                finish (Fulfilled t)
                  (set_token t (now + default 7200 (expires_in json) * 1000)%Z)
              else finish (Rejected (GetTokenFailed (errcode json) (errmsg json)))
                     (fun c => c)
          | None =>
              finish (Rejected (GetTokenFailed (errcode json) (errmsg json)))
                (fun c => c)
          end
      end
  end.

(** What happens to the module, in order. *)
Inductive event :=
| Call (agent : ResolvedAgentAccount) (now : Z)
| Resume (p : nat) (r : fetched) (now : Z).

Definition step (w : world) (e : event) : world :=
  match e with
  | Call agent now => snd (getAccessToken agent now w)
  | Resume p r now => resume p r now w
  end.

Definition run (es : list event) (w : world) : world := fold_left step es w.

End Api.

(** *** The cache, the refresh and its marker *)

Module ApiFacts.
Import Api.

(** A token that expires more than 60 s from now is returned as it is: the
    state is unchanged, no request is sent. *)
Lemma getAccessToken_cached (agent : ResolvedAgentAccount) (now : Z) (w : world)
  (cache : TokenCache) :
  tokenCaches w !! cacheKeyOf agent = Some cache ->
  truthy (token cache) = true ->
  (now + 60000 < expiresAt cache)%Z ->
  getAccessToken agent now w = (Token (token cache), w).
Proof.
  intros Hc Ht He. unfold getAccessToken. rewrite Hc, Ht.
  unfold Limits.TOKEN_REFRESH_BUFFER_MS.
  destruct (Z.ltb_spec (now + 60000) (expiresAt cache)); [reflexivity | lia].
Qed.

(** Otherwise, with a refresh in flight, its promise is returned. *)
Lemma getAccessToken_joins (agent : ResolvedAgentAccount) (now : Z) (w : world)
  (cache : TokenCache) (p : nat) :
  tokenCaches w !! cacheKeyOf agent = Some cache ->
  truthy (token cache) && (now + 60000 <? expiresAt cache)%Z = false ->
  refreshPromise cache = Some p ->
  getAccessToken agent now w = (Refresh p, w).
Proof.
  intros Hc Ht Hp. unfold getAccessToken. rewrite Hc.
  unfold Limits.TOKEN_REFRESH_BUFFER_MS. rewrite Ht, Hp. reflexivity.
Qed.

(** Otherwise, with none in flight and a URL that can be built, one request
    is sent and the new promise is the marker. *)
Lemma getAccessToken_refreshes (agent : ResolvedAgentAccount) (now : Z)
  (w : world) (cache : TokenCache) (url : jsstring) :
  tokenCaches w !! cacheKeyOf agent = Some cache ->
  truthy (token cache) && (now + 60000 <? expiresAt cache)%Z = false ->
  refreshPromise cache = None ->
  tokenUrl agent = Some url ->
  let p := length (promises w) in
  let w' := snd (getAccessToken agent now w) in
  fst (getAccessToken agent now w) = Refresh p
  /\ requests w' = requests w ++ [url]
  /\ promises w' = promises w ++ [Pending]
  /\ suspended w' = <[p := cacheKeyOf agent]> (suspended w)
  /\ tokenCaches w' = <[cacheKeyOf agent := set_refreshPromise (Some p) cache]>
                        (tokenCaches w).
Proof.
  intros Hc Ht Hp Hu. unfold getAccessToken. rewrite Hc.
  unfold Limits.TOKEN_REFRESH_BUFFER_MS. rewrite Ht, Hp.
  unfold startRefresh. rewrite Hu. cbn.
  repeat split. apply map_eq. intros k. destruct (decide (k = cacheKeyOf agent)) as [->|Hk].
  - rewrite lookup_alter_eq, Hc, lookup_insert_eq. reflexivity.
  - rewrite lookup_alter_ne, lookup_insert_ne by congruence. reflexivity.
Qed.

(** The end of a suspended refresh: the promise is settled and the marker of
    its cache is cleared; a body without an access token rejects it; a token
    is stored with the expiry the body gives, or two hours. *)
Lemma resume_settles (p : nat) (r : fetched) (now : Z) (w : world)
  (cacheKey : jsstring) (cache : TokenCache) :
  suspended w !! p = Some cacheKey ->
  tokenCaches w !! cacheKey = Some cache ->
  (p < length (promises w))%nat ->
  let w' := resume p r now w in
  suspended w' !! p = None
  /\ requests w' = requests w
  /\ (refreshPromise <$> tokenCaches w' !! cacheKey) = Some None
  /\ match r with
     | FetchRejected =>
         promises w' !! p = Some (Rejected FetchFailed)
         /\ tokenCaches w' !! cacheKey = Some (set_refreshPromise None cache)
     | FetchedJson json =>
         if truthy (default [] (access_token json)) then
           promises w' !! p = Some (Fulfilled (default [] (access_token json)))
           /\ tokenCaches w' !! cacheKey
              = Some {| token := default [] (access_token json);
                        expiresAt := (now + default 7200 (expires_in json) * 1000)%Z;
                        refreshPromise := None |}
         else
           promises w' !! p
           = Some (Rejected (GetTokenFailed (errcode json) (errmsg json)))
           /\ tokenCaches w' !! cacheKey = Some (set_refreshPromise None cache)
     end.
Proof.
  intros Hs Hc Hp. unfold resume. rewrite Hs.
  destruct r as [|json]; [|destruct (access_token json) as [t|]; [destruct (truthy t) eqn:Et|]];
    cbn [suspended requests tokenCaches promises default truthy];
    unfold id;
    rewrite ?Et, lookup_delete_eq, lookup_alter_eq, Hc, list_lookup_insert_eq by exact Hp;
    repeat split.
Qed.

(** A cache whose marker is a promise that is settled while nothing runs for
    it, and that holds no token. *)
Record stale (cacheKey : jsstring) (p : nat) (reason : error) (w : world)
  : Prop := {
  stale_cache : exists e,
    tokenCaches w !! cacheKey
    = Some {| token := []; expiresAt := e; refreshPromise := Some p |};
  stale_promise : promises w !! p = Some (Rejected reason);
  stale_settled : suspended w !! p = None;
  stale_idle : forall q, suspended w !! q <> Some cacheKey
}.

(** A call for a stale cache returns the marker and changes nothing. *)
Lemma stale_call (agent : ResolvedAgentAccount) (now : Z) (p : nat)
  (reason : error) (w : world) :
  stale (cacheKeyOf agent) p reason w ->
  getAccessToken agent now w = (Refresh p, w).
Proof.
  intros [[e Hc] _ _ _]. exact (getAccessToken_joins agent now w _ p Hc eq_refl eq_refl).
Qed.

(** Nothing that happens later ends it. *)
Lemma stale_step (cacheKey : jsstring) (p : nat) (reason : error) (w : world)
  (e : event) :
  stale cacheKey p reason w -> stale cacheKey p reason (step w e).
Proof.
  intros Hst. destruct e as [agent now|q r now]; cbn [step].
  - destruct (decide (cacheKeyOf agent = cacheKey)) as [<-|Hk].
    { rewrite (stale_call agent now p reason w Hst). exact Hst. }
    destruct Hst as [[e Hc] Hp Hs Hi].
    assert (Hlt : (p < length (promises w))%nat)
      by (apply lookup_lt_is_Some; eauto).
    unfold getAccessToken.
    destruct (tokenCaches w !! cacheKeyOf agent) as [cache|] eqn:Ec.
    + destruct (truthy (token cache) && _); [split; eauto|].
      destruct (refreshPromise cache) as [p'|]; [split; eauto|].
      unfold startRefresh. destruct (tokenUrl agent) as [url|];
        cbn [snd]; unfold with_caches; cbn [tokenCaches promises suspended requests].
      * split; unfold with_caches; cbn [tokenCaches promises suspended requests].
        -- exists e. rewrite lookup_alter_ne by exact Hk. exact Hc.
        -- rewrite lookup_app_l by exact Hlt. exact Hp.
        -- rewrite lookup_insert_ne by lia. exact Hs.
        -- intros q. destruct (decide (q = length (promises w))) as [->|Hq].
           ++ rewrite lookup_insert_eq. congruence.
           ++ rewrite lookup_insert_ne by congruence. apply Hi.
      * split; unfold with_caches; cbn [tokenCaches promises suspended requests].
        -- exists e. rewrite !lookup_alter_ne by exact Hk. exact Hc.
        -- rewrite lookup_app_l by exact Hlt. exact Hp.
        -- exact Hs.
        -- exact Hi.
    + cbn [truthy token andb refreshPromise].
      unfold startRefresh. destruct (tokenUrl agent) as [url|];
        cbn [snd]; unfold with_caches; cbn [tokenCaches promises suspended requests].
      * split; unfold with_caches; cbn [tokenCaches promises suspended requests].
        -- exists e. rewrite lookup_alter_ne, lookup_insert_ne by exact Hk. exact Hc.
        -- rewrite lookup_app_l by exact Hlt. exact Hp.
        -- rewrite lookup_insert_ne by lia. exact Hs.
        -- intros q. destruct (decide (q = length (promises w))) as [->|Hq].
           ++ rewrite lookup_insert_eq. congruence.
           ++ rewrite lookup_insert_ne by congruence. apply Hi.
      * split; unfold with_caches; cbn [tokenCaches promises suspended requests].
        -- exists e. rewrite !lookup_alter_ne, lookup_insert_ne by exact Hk. exact Hc.
        -- rewrite lookup_app_l by exact Hlt. exact Hp.
        -- exact Hs.
        -- exact Hi.
  - destruct Hst as [[e Hc] Hp Hs Hi]. unfold resume.
    destruct (suspended w !! q) as [k|] eqn:Eq; [|split; eauto].
    assert (Hk : k <> cacheKey) by (intros ->; exact (Hi q Eq)).
    assert (Hq : q <> p) by congruence.
    assert (Hall : forall outcome update,
      stale cacheKey p reason
        {| tokenCaches :=
             alter (fun c => set_refreshPromise None (update c)) k (tokenCaches w);
           promises := <[q := outcome]> (promises w);
           suspended := delete q (suspended w);
           requests := requests w |}).
    { intros outcome update. split; cbn [tokenCaches promises suspended].
      - exists e. rewrite lookup_alter_ne by exact Hk. exact Hc.
      - rewrite list_lookup_insert_ne by exact Hq. exact Hp.
      - rewrite lookup_delete_ne by exact Hq. exact Hs.
      - intros q'. destruct (decide (q' = q)) as [->|Hq'].
        + rewrite lookup_delete_eq. discriminate.
        + rewrite lookup_delete_ne by congruence. apply Hi. }
    destruct r as [|json]; [apply Hall|].
    destruct (access_token json) as [t|]; [destruct (truthy t)|]; apply Hall.
Qed.

Lemma stale_run (cacheKey : jsstring) (p : nat) (reason : error)
  (es : list event) (w : world) :
  stale cacheKey p reason w -> stale cacheKey p reason (run es w).
Proof.
  revert w. induction es as [|e es IH]; intros w Hst; [exact Hst|].
  cbn [run fold_left]. apply IH, stale_step, Hst.
Qed.

(** An account whose secret holds an unpaired surrogate, and the same account
    with any other secret. *)
Definition account (secret : jsstring) : ResolvedAgentAccount :=
  {| corpId := lit "ww1"; corpSecret := secret; agentId := 1000002 |}.

Definition unpaired : jsstring := [0xD800].

Lemma stale_after_URIError (now : Z) :
  stale (cacheKeyOf (account unpaired)) 0 URIError
    (snd (getAccessToken (account unpaired) now empty)).
Proof.
  split.
  - exists 0%Z. vm_compute. reflexivity.
  - reflexivity.
  - reflexivity.
  - intros q. vm_compute. discriminate.
Qed.

(** C7, the marker: a refresh that fails while its URL is built (a corpId or
    corpSecret with an unpaired surrogate makes encodeURIComponent throw) is
    complete when getAccessToken returns: its promise is rejected, no request
    was sent, nothing is suspended.  Its marker is set all the same, and
    stays: whatever happens afterwards, a call for the same corpId and agentId,
    with whatever secret, returns that rejected promise and changes
    nothing. *)
Theorem refreshPromise_survives_URIError
  (now : Z) (es : list event) (secret : jsstring) (later : Z) :
  let first := getAccessToken (account unpaired) now empty in
  let w := run es (snd first) in
  fst first = Refresh 0
  /\ promises (snd first) = [Rejected URIError]
  /\ requests (snd first) = []
  /\ suspended (snd first) = ∅
  /\ promises w !! 0%nat = Some (Rejected URIError)
  /\ (refreshPromise <$> tokenCaches w !! cacheKeyOf (account secret))
     = Some (Some 0%nat)
  /\ getAccessToken (account secret) later w = (Refresh 0, w).
Proof.
  cbv zeta.
  pose proof (stale_run _ _ _ es _ (stale_after_URIError now)) as Hst.
  change (cacheKeyOf (account unpaired)) with (cacheKeyOf (account secret)) in Hst.
  repeat match goal with |- _ /\ _ => split end; try reflexivity.
  - apply Hst.
  - destruct Hst as [[e ->] _ _ _]. reflexivity.
  - exact (stale_call (account secret) later 0 URIError _ Hst).
Qed.

(** The same account with a secret that can be encoded, on a fresh module:
    one request, and the marker is cleared when the refresh ends, with a
    token or without. *)
Example refresh_with_token :
  let first := getAccessToken (account (lit "s 1")) 1000 empty in
  let w := resume 0 (FetchedJson {| access_token := Some (lit "T");
                                   expires_in := None;
                                   errcode := None; errmsg := None |})
             2000 (snd first) in
  fst first = Refresh 0
  /\ requests (snd first)
     = [lit "https://qyapi.weixin.qq.com/cgi-bin/gettoken?corpid=ww1&corpsecret=s%201"]
  /\ promises w = [Fulfilled (lit "T")]
  /\ tokenCaches w !! cacheKeyOf (account (lit "s 1"))
     = Some {| token := lit "T"; expiresAt := 2000 + 7200 * 1000;
               refreshPromise := None |}
  /\ getAccessToken (account (lit "s 1")) 7141999 w = (Token (lit "T"), w)
  /\ fst (getAccessToken (account (lit "s 1")) 7142000 w) = Refresh 1.
Proof. vm_compute. repeat split; reflexivity. Qed.

Example refresh_without_token :
  let first := getAccessToken (account (lit "s")) 1000 empty in
  let w := resume 0 (FetchedJson {| access_token := None; expires_in := None;
                                   errcode := Some 40001%Z;
                                   errmsg := Some (lit "invalid credential") |})
             2000 (snd first) in
  promises w = [Rejected (GetTokenFailed (Some 40001%Z)
                            (Some (lit "invalid credential")))]
  /\ tokenCaches w !! cacheKeyOf (account (lit "s"))
     = Some {| token := []; expiresAt := 0; refreshPromise := None |}
  /\ fst (getAccessToken (account (lit "s")) 3000 w) = Refresh 1.
Proof. vm_compute. repeat split; reflexivity. Qed.

End ApiFacts.

(** ** Trimming *)

Module TrimFacts.

Lemma trimStart_shape (s : jsstring) :
  trimStart s = []
  \/ exists u rest, trimStart s = u :: rest /\ is_white_space u = false.
Proof.
  induction s as [|u s IH]; [left; reflexivity|]. cbn.
  destruct (is_white_space u) eqn:E; [exact IH|]. right. eauto.
Qed.

Lemma trimStart_idem (s : jsstring) : trimStart (trimStart s) = trimStart s.
Proof.
  destruct (trimStart_shape s) as [->|(u & rest & -> & H)]; [reflexivity|].
  cbn. rewrite H. reflexivity.
Qed.

Lemma trimStart_app (l r : jsstring) (u : N) :
  is_white_space u = false ->
  trimStart (l ++ u :: r) = trimStart l ++ u :: r.
Proof.
  intros H. induction l as [|v l IH]; cbn.
  - rewrite H. reflexivity.
  - destruct (is_white_space v); [exact IH|reflexivity].
Qed.

Lemma trimEnd_cons (u : N) (s : jsstring) :
  is_white_space u = false -> trimEnd (u :: s) = u :: trimEnd s.
Proof.
  intros H. unfold trimEnd. rewrite reverse_cons.
  change (reverse s ++ [u]) with (reverse s ++ u :: []).
  rewrite trimStart_app by exact H.
  rewrite reverse_app. reflexivity.
Qed.

Lemma trimEnd_idem (s : jsstring) : trimEnd (trimEnd s) = trimEnd s.
Proof.
  unfold trimEnd. rewrite reverse_involutive, trimStart_idem. reflexivity.
Qed.

(** A trimmed string is empty or starts with a character that is not white
    space. *)
Lemma trim_shape (s : jsstring) :
  trim s = []
  \/ exists u rest, trim s = u :: rest /\ is_white_space u = false.
Proof.
  unfold trim.
  destruct (trimStart_shape s) as [->|(u & rest & -> & H)]; [left; reflexivity|].
  right. rewrite trimEnd_cons by exact H. eauto.
Qed.

Lemma trim_idem (s : jsstring) : trim (trim s) = trim s.
Proof.
  destruct (trim_shape s) as [->|(u & rest & E & H)]; [reflexivity|].
  unfold trim at 1. rewrite E. cbn [trimStart]. rewrite H.
  rewrite <- E. unfold trim. apply trimEnd_idem.
Qed.

(** A trimmed string ends, too, with a character that is not white space. *)
Lemma trimEnd_last (s : jsstring) (u : N) :
  is_white_space u = false -> trimEnd (s ++ [u]) = s ++ [u].
Proof.
  intros H. unfold trimEnd. rewrite reverse_app. cbn [reverse app].
  change (reverse [u]) with [u]. cbn [app trimStart]. rewrite H.
  rewrite reverse_cons, reverse_involutive. reflexivity.
Qed.

Lemma trim_app_last (s : jsstring) (u : N) :
  trim s <> [] -> is_white_space u = false ->
  trim (trim s ++ [u]) = trim s ++ [u].
Proof.
  intros Hne H.
  destruct (trim_shape s) as [E|(v & rest & E & Hv)]; [contradiction|].
  rewrite E. unfold trim. cbn [app trimStart]. rewrite Hv.
  change (v :: rest ++ [u]) with ((v :: rest) ++ [u]).
  apply trimEnd_last. exact H.
Qed.

End TrimFacts.

(** ** More on the envelope codec (crypto.ts) *)

Module EnvelopeMore.
Import Envelope EnvelopeFacts Utf8Facts.

(** The pad count of [pkcs7Pad] for a block size. *)
Lemma pad_count_range (len blockSize : N) :
  0 < blockSize ->
  1 <= (if len mod blockSize =? 0 then blockSize else blockSize - len mod blockSize)
    <= blockSize.
Proof.
  intros Hb. pose proof (N.mod_lt len blockSize ltac:(lia)) as Hm.
  remember (len mod blockSize) as m eqn:Em.
  destruct (N.eqb_spec m 0); lia.
Qed.

(** A buffer that ends in [pad] bytes of value [pad] loses them. *)
Lemma removePadding_repeat (out : Buffer) (pad blockSize : N) :
  1 <= pad <= blockSize -> pad < 256 ->
  pkcs7Unpad (out ++ repeat (byte_of_N pad) (N.to_nat pad)) blockSize = Ok out.
Proof.
  intros Hr Hb.
  destruct (N.to_nat pad) as [|k] eqn:Ek; [lia|].
  assert (Hlast : forall d, List.last (out ++ repeat (byte_of_N pad) (S k)) d
                            = byte_of_N pad).
  { intros d. cbn [repeat]. rewrite repeat_cons, app_assoc. apply last_last. }
  assert (Hunpad : pkcs7Unpad (out ++ repeat (byte_of_N pad) (S k)) blockSize =
            removePadding pad (out ++ repeat (byte_of_N pad) (S k)) blockSize).
  { unfold pkcs7Unpad.
    destruct (out ++ repeat (byte_of_N pad) (S k)) as [|b0 rest] eqn:El.
    { destruct out; discriminate. }
    rewrite Hlast, to_N_byte_of_N by lia. reflexivity. }
  rewrite Hunpad. unfold removePadding.
  rewrite length_app, repeat_length.
  destruct (N.ltb_spec pad 1); [lia|].
  destruct (N.ltb_spec blockSize pad); [lia|].
  destruct (N.ltb_spec (N.of_nat (length out + S k)) pad); [lia|].
  cbn [orb]. rewrite <- Ek.
  replace (length out + N.to_nat pad - N.to_nat pad)%nat with (length out) by lia.
  rewrite drop_app_length, take_app_length.
  assert (Hall : forallb (fun b => Byte.to_N b =? pad)
                   (repeat (byte_of_N pad) (N.to_nat pad)) = true).
  { apply forallb_forall. intros b Hb'. apply repeat_spec in Hb' as ->.
    rewrite to_N_byte_of_N by lia. apply N.eqb_refl. }
  rewrite Hall. reflexivity.
Qed.

(** X1: for every block size from 1 to 255 and every buffer, pkcs7Unpad
    removes what pkcs7Pad added. *)
Theorem pkcs7Unpad_pkcs7Pad_blockSize (raw : Buffer) (blockSize : N) :
  0 < blockSize -> blockSize < 256 ->
  pkcs7Unpad (pkcs7Pad raw blockSize) blockSize = Ok raw.
Proof.
  intros H0 H256. unfold pkcs7Pad. cbv zeta.
  pose proof (pad_count_range (N.of_nat (length raw)) blockSize H0) as Hr.
  apply removePadding_repeat; lia.
Qed.

Lemma pkcs7Unpad_pkcs7Pad_blockSize_witness :
  (0 < 16 /\ 16 < 256)
  /\ pkcs7Unpad (pkcs7Pad (Buffer_from_utf8 (lit "sixteen bytes ok")) 16) 16
     = Ok (Buffer_from_utf8 (lit "sixteen bytes ok")).
Proof.
  split; [split; reflexivity|].
  apply (pkcs7Unpad_pkcs7Pad_blockSize _ 16); reflexivity.
Defined.

(** The bytes a successful [removePadding] takes away. *)
Lemma forallb_to_N_repeat (pad : N) (l : Buffer) :
  forallb (fun b => Byte.to_N b =? pad) l = true ->
  l = repeat (byte_of_N pad) (length l).
Proof.
  induction l as [|b l IH]; cbn [forallb length repeat]; [reflexivity|].
  intros H. apply andb_true_iff in H as [Hb Hl]. apply N.eqb_eq in Hb.
  f_equal; [|exact (IH Hl)].
  subst pad. unfold byte_of_N. pose proof (Byte.to_N_bounded b).
  rewrite N.mod_small by lia. rewrite Byte.of_to_N. reflexivity.
Qed.

(** What a buffer that [pkcs7Unpad] accepts looks like. *)
Lemma pkcs7Unpad_Ok_inv (buf out : Buffer) (blockSize : N) :
  pkcs7Unpad buf blockSize = Ok out ->
  exists pad, 1 <= pad <= blockSize /\ pad < 256
              /\ buf = out ++ repeat (byte_of_N pad) (N.to_nat pad).
Proof.
  unfold pkcs7Unpad. destruct buf as [|b0 rest] eqn:Eb; [discriminate|].
  rewrite <- Eb. set (pad := Byte.to_N (List.last buf b0)).
  pose proof (Byte.to_N_bounded (List.last buf b0)) as Hbound. fold pad in Hbound.
  unfold removePadding.
  destruct (N.ltb_spec pad 1); [discriminate|].
  destruct (N.ltb_spec blockSize pad); [discriminate|]. cbn [orb].
  destruct (N.ltb_spec (N.of_nat (length buf)) pad); [discriminate|].
  destruct (forallb _ _) eqn:Hall; [|discriminate].
  intros [= <-]. exists pad. split; [lia|]. split; [lia|].
  apply forallb_to_N_repeat in Hall.
  rewrite length_drop in Hall.
  replace (length buf - (length buf - N.to_nat pad))%nat with (N.to_nat pad)
    in Hall by lia.
  rewrite <- Hall. symmetry. apply take_drop.
Qed.

(** X2: pkcs7Unpad accepts exactly the buffers that end in [pad] bytes of
    value [pad], for a [pad] from 1 to the block size, and returns what
    comes before them; every other buffer is refused. *)
Theorem pkcs7Unpad_Ok_iff (buf out : Buffer) (blockSize : N) :
  pkcs7Unpad buf blockSize = Ok out <->
  exists pad, 1 <= pad <= blockSize /\ pad < 256
              /\ buf = out ++ repeat (byte_of_N pad) (N.to_nat pad).
Proof.
  split; [apply pkcs7Unpad_Ok_inv|].
  intros (pad & Hr & Hb & ->). apply removePadding_repeat; assumption.
Qed.

(** Reading a frame with the receiver id [expected], whatever id it was
    built with. *)
Lemma unframe_frame_other (random16 raw : Buffer)
  (plaintext receiveId expected : jsstring) :
  length random16 = 16%nat ->
  code_units plaintext -> code_units receiveId ->
  frame random16 plaintext receiveId = Ok raw ->
  unframe raw expected =
  if truthy expected && negb (bool_decide (toWellFormed receiveId = expected))
  then Throw (ReceiveIdMismatch (toWellFormed receiveId))
  else Ok (toWellFormed plaintext).
Proof.
  intros Hr HP HR Hf.
  pose proof (frame_length _ _ _ _ Hr Hf) as Hlen.
  unfold frame in Hf.
  destruct (writeUInt32BE (N.of_nat (length (Buffer_from_utf8 plaintext))))
    as [msgLen|e] eqn:Ew; [|discriminate].
  injection Hf as <-.
  destruct (readUInt32BE_writeUInt32BE _ _ random16
              (Buffer_from_utf8 plaintext ++ Buffer_from_utf8 receiveId) Ew Hr)
    as [H4 Hread].
  unfold unframe. rewrite Hread, Hlen. unfold byteLength.
  destruct (Nat.ltb_spec (20 + length (Buffer_from_utf8 plaintext)
                          + length (Buffer_from_utf8 receiveId)) 20); [lia|].
  destruct (N.ltb_spec
              (N.of_nat (20 + length (Buffer_from_utf8 plaintext)
                         + length (Buffer_from_utf8 receiveId)))
              (20 + N.of_nat (length (Buffer_from_utf8 plaintext)))); [lia|].
  replace (N.to_nat (20 + N.of_nat (length (Buffer_from_utf8 plaintext))))
    with (20 + length (Buffer_from_utf8 plaintext))%nat by lia.
  assert (Hmsg : subarray (random16 ++ msgLen ++ Buffer_from_utf8 plaintext
                             ++ Buffer_from_utf8 receiveId)
                   20 (20 + length (Buffer_from_utf8 plaintext))
                 = Buffer_from_utf8 plaintext).
  { unfold subarray.
    replace (20 + length (Buffer_from_utf8 plaintext) - 20)%nat
      with (length (Buffer_from_utf8 plaintext)) by lia.
    rewrite (app_assoc random16 msgLen).
    replace 20%nat with (length (random16 ++ msgLen))
      by (rewrite length_app; lia).
    rewrite drop_app_length, take_app_length. reflexivity. }
  assert (Htrail : skipn (20 + length (Buffer_from_utf8 plaintext))
                     (random16 ++ msgLen ++ Buffer_from_utf8 plaintext
                        ++ Buffer_from_utf8 receiveId)
                   = Buffer_from_utf8 receiveId).
  { rewrite (app_assoc random16 msgLen), app_assoc.
    replace (20 + length (Buffer_from_utf8 plaintext))%nat
      with (length ((random16 ++ msgLen) ++ Buffer_from_utf8 plaintext))
      by (rewrite !length_app; lia).
    apply drop_app_length. }
  rewrite Hmsg, Htrail, !toString_from_utf8 by assumption.
  destruct (truthy expected); cbn [andb]; [|reflexivity].
  destruct (bool_decide (toWellFormed receiveId = expected)); reflexivity.
Qed.

Section ReceiverCheck.

Variable base64_decode : jsstring -> Buffer.
Variable base64_encode : Buffer -> jsstring.
Variable cipher decipher : Buffer -> Buffer -> Buffer -> option Buffer.

Hypothesis base64_roundtrip : forall b, base64_decode (base64_encode b) = b.

Hypothesis cipher_roundtrip : forall key iv data,
  length key = 32%nat -> length iv = 16%nat ->
  N.of_nat (length data) mod 16 = 0 ->
  exists c, cipher key iv data = Some c /\ decipher key iv c = Some data.

Local Abbreviation encrypt := (encryptWecomPlaintext base64_decode base64_encode cipher).
Local Abbreviation decrypt := (decryptWecomEncrypted base64_decode decipher).

(** X3: the receiver id is checked by the decrypting side, when it names
    one.  A message encrypted for the receiver id R (well-formed strings, a
    valid key) and decrypted with another, non-empty receiver id is refused
    with a receiveId mismatch that reports R; decrypted with an empty receiver
    id it is returned without a check. *)
Theorem decryptWecomEncrypted_checks_receiveId
  (encodingAESKey receiveId expected plaintext : jsstring) (random16 : Buffer) :
  truthy (trim encodingAESKey) = true ->
  length (base64_decode (withPadding (trim encodingAESKey))) = 32%nat ->
  length random16 = 16%nat ->
  isWellFormed plaintext = true ->
  isWellFormed receiveId = true ->
  N.of_nat (byteLength plaintext) < 2 ^ 32 ->
  exists encrypted,
    encrypt encodingAESKey receiveId plaintext random16 = Ok encrypted
    /\ decrypt encodingAESKey [] encrypted = Ok plaintext
    /\ (expected <> [] -> expected <> receiveId ->
        decrypt encodingAESKey expected encrypted
        = Throw (ReceiveIdMismatch receiveId)).
Proof.
  intros Ht Hl Hr HP HR Hn.
  destruct (frame_Ok random16 plaintext receiveId Hn) as (msgLen & _ & Hf).
  set (raw := random16 ++ msgLen ++ Buffer_from_utf8 plaintext
                ++ Buffer_from_utf8 receiveId) in *.
  set (key := base64_decode (withPadding (trim encodingAESKey))) in *.
  assert (Hiv : length (subarray key 0 16) = 16%nat).
  { unfold subarray. rewrite drop_0, length_take, Hl. reflexivity. }
  destruct (cipher_roundtrip key (subarray key 0 16) (pkcs7Pad raw 32)
              Hl Hiv (pkcs7Pad_blocks raw)) as (c & Hc & Hd).
  assert (Hdec : forall R', decrypt encodingAESKey R' (base64_encode c)
                            = unframe raw R').
  { intros R'. unfold decryptWecomEncrypted.
    rewrite (decodeEncodingAESKey_Ok base64_decode _ Ht Hl). fold key.
    cbn [mbind result_bind]. unfold WECOM_PKCS7_BLOCK_SIZE.
    rewrite base64_roundtrip, Hd. cbn [run_cipher mbind result_bind].
    rewrite pkcs7Unpad_pkcs7Pad. reflexivity. }
  exists (base64_encode c). split; [|split].
  - unfold encryptWecomPlaintext.
    rewrite (decodeEncodingAESKey_Ok base64_decode _ Ht Hl). fold key.
    cbn [mbind result_bind]. rewrite Hf. cbn [mbind result_bind].
    unfold WECOM_PKCS7_BLOCK_SIZE. rewrite Hc. reflexivity.
  - rewrite Hdec, (unframe_frame_other random16 raw plaintext receiveId []
                     Hr (isWellFormed_code_units _ HP)
                     (isWellFormed_code_units _ HR) Hf).
    cbn [truthy andb]. rewrite toWellFormed_id by exact HP. reflexivity.
  - intros Hne Hother.
    rewrite Hdec, (unframe_frame_other random16 raw plaintext receiveId expected
                     Hr (isWellFormed_code_units _ HP)
                     (isWellFormed_code_units _ HR) Hf).
    rewrite (toWellFormed_id receiveId) by exact HR.
    apply truthy_nonempty in Hne. rewrite Hne.
    rewrite bool_decide_eq_false_2 by congruence. reflexivity.
Qed.

End ReceiverCheck.

Lemma decryptWecomEncrypted_checks_receiveId_witness :
  let P := lit "hello" in
  let R := lit "corp123" in
  let other := lit "corp999" in
  (truthy (trim demo_key) = true
   /\ length (Plain.base64_decode (withPadding (trim demo_key))) = 32%nat
   /\ length demo_random16 = 16%nat
   /\ isWellFormed P = true /\ isWellFormed R = true
   /\ N.of_nat (byteLength P) < 2 ^ 32)
  /\ exists encrypted,
       Plain.encrypt demo_key R P demo_random16 = Ok encrypted
       /\ Plain.decrypt demo_key [] encrypted = Ok P
       /\ (other <> [] -> other <> R ->
           Plain.decrypt demo_key other encrypted
           = Throw (ReceiveIdMismatch R)).
Proof.
  cbv zeta. split.
  - repeat split; reflexivity.
  - apply (decryptWecomEncrypted_checks_receiveId
             Plain.base64_decode Plain.base64_encode Plain.cipher Plain.decipher
             Plain.plain_base64_roundtrip Plain.plain_cipher_roundtrip
             demo_key (lit "corp123") (lit "corp999") (lit "hello")
             demo_random16);
      reflexivity.
Defined.

(** What [unframe] accepts: sixteen bytes, a length, a message of that
    length and the receiver id. *)
Lemma unframe_Ok (decrypted : Buffer) (receiveId msg : jsstring) :
  unframe decrypted receiveId = Ok msg ->
  exists random16 len4 body rest,
    decrypted = random16 ++ len4 ++ body ++ rest
    /\ length random16 = 16%nat /\ length len4 = 4%nat
    /\ readUInt32BE len4 0 = N.of_nat (length body)
    /\ msg = Buffer_toString_utf8 body
    /\ (receiveId <> [] -> Buffer_toString_utf8 rest = receiveId).
Proof.
  unfold unframe.
  destruct (Nat.ltb_spec (length decrypted) 20) as [|H20]; [discriminate|].
  set (n := readUInt32BE decrypted 16).
  destruct (N.ltb_spec (N.of_nat (length decrypted)) (20 + n)) as [|Hn];
    [discriminate|].
  intros Hok.
  exists (take 16 decrypted), (take 4 (drop 16 decrypted)),
    (take (N.to_nat n) (drop 20 decrypted)), (drop (N.to_nat (20 + n)) decrypted).
  assert (Hd4 : exists b0 b1 b2 b3 tl, drop 16 decrypted = b0 :: b1 :: b2 :: b3 :: tl).
  { pose proof (length_drop decrypted 16) as Hl.
    destruct (drop 16 decrypted) as [|b0 [|b1 [|b2 [|b3 tl]]]];
      cbn [length] in Hl; try lia. eauto 6. }
  destruct Hd4 as (b0 & b1 & b2 & b3 & tl & Hd4).
  repeat split.
  - rewrite <- (take_drop 16 decrypted) at 1. f_equal.
    rewrite <- (take_drop 4 (drop 16 decrypted)) at 1. f_equal.
    rewrite drop_drop. change (16 + 4)%nat with 20%nat.
    rewrite <- (take_drop (N.to_nat n) (drop 20 decrypted)) at 1. f_equal.
    rewrite drop_drop. f_equal. lia.
  - rewrite length_take. lia.
  - rewrite length_take, length_drop. lia.
  - rewrite length_take, length_drop.
    replace (N.to_nat n `min` (length decrypted - 20))%nat with (N.to_nat n) by lia.
    rewrite N2Nat.id. unfold n, readUInt32BE. rewrite Hd4. reflexivity.
  - unfold subarray in Hok.
    replace (N.to_nat (20 + n) - 20)%nat with (N.to_nat n) in Hok by lia.
    destruct (truthy receiveId);
      [destruct (bool_decide _); [|discriminate]|]; congruence.
  - intros Hne. apply truthy_nonempty in Hne. rewrite Hne in Hok.
    destruct (bool_decide _) eqn:E; [|discriminate].
    apply bool_decide_eq_true in E. exact E.
Qed.

(** X4: decryptWecomEncrypted returns a message only when the key decodes
    to 32 bytes and the deciphered data is a frame with its padding: sixteen
    bytes, a four-byte big-endian length, a message body of exactly that
    length, the rest, and from 1 to 32 padding bytes of the padding's length.
    The message is the body decoded as UTF-8, and the rest, decoded, is the
    receiver id whenever one is given. *)
Theorem decryptWecomEncrypted_Ok_frame
  (base64_decode : jsstring -> Buffer)
  (decipher : Buffer -> Buffer -> Buffer -> option Buffer)
  (encodingAESKey receiveId encrypt msg : jsstring) :
  decryptWecomEncrypted base64_decode decipher encodingAESKey receiveId encrypt
  = Ok msg ->
  exists aesKey random16 len4 body rest pad,
    decodeEncodingAESKey base64_decode encodingAESKey = Ok aesKey
    /\ length aesKey = 32%nat
    /\ decipher aesKey (subarray aesKey 0 16) (base64_decode encrypt)
       = Some ((random16 ++ len4 ++ body ++ rest)
               ++ repeat (byte_of_N pad) (N.to_nat pad))
    /\ 1 <= pad <= 32
    /\ length random16 = 16%nat /\ length len4 = 4%nat
    /\ readUInt32BE len4 0 = N.of_nat (length body)
    /\ msg = Buffer_toString_utf8 body
    /\ (receiveId <> [] -> Buffer_toString_utf8 rest = receiveId).
Proof.
  unfold decryptWecomEncrypted.
  destruct (decodeEncodingAESKey base64_decode encodingAESKey) as [aesKey|e] eqn:Ek;
    [|discriminate].
  cbn [mbind result_bind].
  destruct (decipher aesKey (subarray aesKey 0 16) (base64_decode encrypt))
    as [padded|] eqn:Ed; [|discriminate].
  cbn [run_cipher mbind result_bind].
  destruct (pkcs7Unpad padded WECOM_PKCS7_BLOCK_SIZE) as [d|e] eqn:Eu;
    [|discriminate].
  cbn [mbind result_bind]. intros Hok.
  apply pkcs7Unpad_Ok_inv in Eu as (pad & Hpad & _ & ->).
  destruct (unframe_Ok d receiveId msg Hok)
    as (random16 & len4 & body & rest & -> & H16 & H4 & Hlen & Hmsg & Hrest).
  exists aesKey, random16, len4, body, rest, pad.
  repeat split; try assumption; try (unfold WECOM_PKCS7_BLOCK_SIZE in Hpad; lia).
  unfold decodeEncodingAESKey in Ek.
  destruct (negb _); [discriminate|].
  destruct (Nat.eqb_spec (length (base64_decode (withPadding (trim encodingAESKey)))) 32)
    as [H32|]; [|discriminate].
  injection Ek as <-. exact H32.
Qed.

Lemma decryptWecomEncrypted_Ok_frame_witness :
  exists encrypted,
    Plain.encrypt demo_key (lit "corp123") (lit "hello") demo_random16 = Ok encrypted
    /\ Plain.decrypt demo_key (lit "corp123") encrypted = Ok (lit "hello")
    /\ exists aesKey random16 len4 body rest pad,
    decodeEncodingAESKey Plain.base64_decode demo_key = Ok aesKey
    /\ length aesKey = 32%nat
    /\ Plain.decipher aesKey (subarray aesKey 0 16) (Plain.base64_decode encrypted)
       = Some ((random16 ++ len4 ++ body ++ rest)
               ++ repeat (byte_of_N pad) (N.to_nat pad))
    /\ 1 <= pad <= 32
    /\ length random16 = 16%nat /\ length len4 = 4%nat
    /\ readUInt32BE len4 0 = N.of_nat (length body)
    /\ lit "hello" = Buffer_toString_utf8 body
    /\ (lit "corp123" <> [] -> Buffer_toString_utf8 rest = lit "corp123").
Proof.
  eexists. split; [reflexivity|].
  assert (H : Plain.decrypt demo_key (lit "corp123")
                (Plain.base64_encode
                   (pkcs7Pad (demo_random16 ++ [x00; x00; x00; x05]
                                ++ Buffer_from_utf8 (lit "hello")
                                ++ Buffer_from_utf8 (lit "corp123")) 32))
              = Ok (lit "hello")) by reflexivity.
  split; [exact H|].
  exact (decryptWecomEncrypted_Ok_frame Plain.base64_decode Plain.decipher
           demo_key (lit "corp123") _ (lit "hello") H).
Defined.

End EnvelopeMore.

(** ** Message signature (crypto.ts, crypto/signature.ts) *)

Module Signature.

(** [a <= b] for strings, as [Array.prototype.sort] compares them without a
    comparator: code unit by code unit, a prefix first. *)
Fixpoint units_leb (a b : jsstring) : bool :=
  match a, b with
  | [], _ => true
  | _ :: _, [] => false
  | x :: a', y :: b' =>
      if x <? y then true else if y <? x then false else units_leb a' b'
  end.

Definition units_le (a b : jsstring) : Prop := units_leb a b = true.

#[export] Instance units_le_dec : RelDecision units_le :=
  fun a b => decide (units_leb a b = true).

(** [parts.sort()]: the strings in ascending order. *)
Definition sort (parts : list jsstring) : list jsstring :=
  merge_sort units_le parts.

Section Sha1.

(** [crypto.createHash("sha1").update(input).digest("hex")]. *)
Variable sha1Hex : jsstring -> jsstring.

(** [computeWecomMsgSignature({token, timestamp, nonce, encrypt})]; the
    four values are strings, which [String(v ?? '')] leaves as they are. *)
Definition computeWecomMsgSignature (token timestamp nonce encrypt : jsstring)
  : jsstring :=
  let parts := sort [token; timestamp; nonce; encrypt] in
  sha1Hex (concat parts).

(** [verifyWecomSignature({token, timestamp, nonce, encrypt, signature})]. *)
Definition verifyWecomSignature (token timestamp nonce encrypt signature : jsstring)
  : bool :=
  let expected := computeWecomMsgSignature token timestamp nonce encrypt in
  bool_decide (expected = signature).

End Sha1.

End Signature.

Module SignatureFacts.
Import Signature.

Lemma units_leb_refl (a : jsstring) : units_leb a a = true.
Proof.
  induction a as [|x a IH]; [reflexivity|]. cbn.
  rewrite N.ltb_irrefl. exact IH.
Qed.

#[local] Instance units_le_total : Total units_le.
Proof.
  intros a. unfold units_le. induction a as [|x a IH]; intros [|y b]; cbn; auto.
  destruct (N.ltb_spec x y), (N.ltb_spec y x); auto; lia.
Qed.

#[local] Instance units_le_trans : Transitive units_le.
Proof.
  intros a. unfold units_le.
  induction a as [|x a IH]; intros [|y b] [|z c]; cbn; try congruence.
  destruct (N.ltb_spec x y), (N.ltb_spec y x), (N.ltb_spec y z), (N.ltb_spec z y),
    (N.ltb_spec x z), (N.ltb_spec z x); try congruence; try lia.
  apply IH.
Qed.

#[local] Instance units_le_antisym : AntiSymm (=) units_le.
Proof.
  intros a. unfold units_le.
  induction a as [|x a IH]; intros [|y b]; cbn; try congruence.
  destruct (N.ltb_spec x y), (N.ltb_spec y x); try congruence; try lia.
  intros H1 H2. f_equal; [lia|]. apply IH; assumption.
Qed.

(** The sorted order of a list does not depend on the order it came in. *)
Lemma sort_Permutation (l1 l2 : list jsstring) :
  l1 ≡ₚ l2 -> sort l1 = sort l2.
Proof.
  intros Hp. unfold sort. apply (Sorted_unique units_le).
  - apply Sorted_merge_sort; apply _.
  - apply Sorted_merge_sort; apply _.
  - rewrite !merge_sort_Permutation. exact Hp.
Qed.

(** X5: the signature depends on the four values only as a collection:
    whichever of token, timestamp, nonce and encrypt holds which value, the
    signature is the same, and verifyWecomSignature accepts it. *)
Theorem computeWecomMsgSignature_Permutation (sha1Hex : jsstring -> jsstring)
  (token timestamp nonce encrypt token' timestamp' nonce' encrypt' : jsstring) :
  [token; timestamp; nonce; encrypt] ≡ₚ [token'; timestamp'; nonce'; encrypt'] ->
  computeWecomMsgSignature sha1Hex token timestamp nonce encrypt
  = computeWecomMsgSignature sha1Hex token' timestamp' nonce' encrypt'
  /\ verifyWecomSignature sha1Hex token' timestamp' nonce' encrypt'
       (computeWecomMsgSignature sha1Hex token timestamp nonce encrypt) = true.
Proof.
  intros Hp. unfold verifyWecomSignature, computeWecomMsgSignature. cbv zeta.
  rewrite (sort_Permutation _ _ Hp). split; [reflexivity|].
  apply bool_decide_eq_true_2. reflexivity.
Qed.

Lemma computeWecomMsgSignature_Permutation_witness :
  let sha := fun s : jsstring => s in
  [lit "tok"; lit "1700000000"; lit "nonce"; lit "ENC"]
    ≡ₚ [lit "nonce"; lit "1700000000"; lit "tok"; lit "ENC"]
  /\ computeWecomMsgSignature sha (lit "tok") (lit "1700000000") (lit "nonce") (lit "ENC")
     = computeWecomMsgSignature sha (lit "nonce") (lit "1700000000") (lit "tok") (lit "ENC")
  /\ verifyWecomSignature sha (lit "nonce") (lit "1700000000") (lit "tok") (lit "ENC")
       (computeWecomMsgSignature sha (lit "tok") (lit "1700000000") (lit "nonce")
          (lit "ENC")) = true.
Proof.
  cbv zeta.
  assert (Hp : [lit "tok"; lit "1700000000"; lit "nonce"; lit "ENC"]
                 ≡ₚ [lit "nonce"; lit "1700000000"; lit "tok"; lit "ENC"]).
  { etransitivity; [apply Permutation_swap|].
    etransitivity; [apply Permutation_skip, Permutation_swap|].
    apply Permutation_swap. }
  split; [exact Hp|].
  exact (computeWecomMsgSignature_Permutation (fun s => s) _ _ _ _ _ _ _ _ Hp).
Defined.

(** The parts are joined in ascending order: digits before upper-case
    letters before lower-case ones. *)
Example signature_input :
  computeWecomMsgSignature (fun s => s)
    (lit "tok") (lit "1700000000") (lit "nonce") (lit "ENC")
  = lit "1700000000ENCnoncetok".
Proof. vm_compute. reflexivity. Qed.

End SignatureFacts.

(** ** The encoding key (crypto.ts) *)

Module KeyFacts.
Import Envelope TrimFacts.

(** X6: decodeEncodingAESKey does not see white space around the key, nor
    whether the final [=] of the base64 text is written: the key, the key
    with white space around it, and the trimmed key with [=] appended decode
    alike. *)
Theorem decodeEncodingAESKey_normalizes
  (base64_decode : jsstring -> Buffer) (encodingAESKey : jsstring) :
  decodeEncodingAESKey base64_decode (trim encodingAESKey)
  = decodeEncodingAESKey base64_decode encodingAESKey
  /\ (trim encodingAESKey <> [] ->
      endsWith (trim encodingAESKey) (lit "=") = false ->
      decodeEncodingAESKey base64_decode (trim encodingAESKey ++ lit "=")
      = decodeEncodingAESKey base64_decode encodingAESKey).
Proof.
  split.
  - unfold decodeEncodingAESKey. rewrite trim_idem. reflexivity.
  - intros Hne Hends. unfold decodeEncodingAESKey.
    change (lit "=") with [61] in *.
    rewrite trim_app_last by (exact Hne || reflexivity).
    assert (Ht : truthy (trim encodingAESKey ++ [61]) = true).
    { destruct (trim encodingAESKey); reflexivity. }
    rewrite Ht. apply Utf8Facts.truthy_nonempty in Hne. rewrite Hne. cbn [negb].
    unfold withPadding. change (lit "=") with [61]. rewrite Hends.
    assert (He : endsWith (trim encodingAESKey ++ [61]) [61] = true).
    { unfold endsWith. rewrite reverse_app. change (reverse [61]) with [61].
      cbn. destruct (reverse (trim encodingAESKey)); reflexivity. }
    rewrite He. reflexivity.
Qed.

Example key_with_space_and_padding :
  let decode := EnvelopeFacts.Plain.base64_decode in
  decodeEncodingAESKey decode (lit "  abcdefghijklmnopqrstuvwxyz01234 ")
  = decodeEncodingAESKey decode (lit "abcdefghijklmnopqrstuvwxyz01234=")
  /\ decodeEncodingAESKey decode (lit "   ") = Throw KeyMissing
  /\ decodeEncodingAESKey decode (lit "short") = Throw (InvalidKeyLength 6).
Proof. vm_compute. repeat split; reflexivity. Qed.

End KeyFacts.

(** ** Cutting text to a byte limit (monitor.ts) *)

Module TruncateFacts.
Import Utf8Facts Monitor.

Lemma code_points_plain (u : N) (s : jsstring) :
  is_high_surrogate u = false -> is_low_surrogate u = false ->
  code_points (u :: s) = u :: code_points s.
Proof. intros Hh Hl. cbn [code_points]. rewrite Hh, Hl. reflexivity. Qed.

Lemma isWellFormed_plain (u : N) (s : jsstring) :
  is_high_surrogate u = false -> isWellFormed (u :: s) = true ->
  is_low_surrogate u = false /\ isWellFormed s = true.
Proof.
  intros Hh. cbn [isWellFormed]. rewrite Hh.
  destruct (is_low_surrogate u); [discriminate|].
  intros H. apply andb_true_iff in H as [_ H]. split; [reflexivity|exact H].
Qed.

Lemma isWellFormed_pair (u v : N) (s : jsstring) :
  is_high_surrogate u = true -> isWellFormed (u :: v :: s) = true ->
  is_low_surrogate v = true /\ isWellFormed s = true.
Proof.
  intros Hh. cbn [isWellFormed]. rewrite Hh.
  intros H. apply andb_true_iff in H. exact H.
Qed.

(** After a well-formed string, the code points of what follows are not
    affected by it. *)
Lemma code_points_app (pre suf : jsstring) :
  isWellFormed pre = true ->
  code_points (pre ++ suf) = code_points pre ++ code_points suf.
Proof.
  induction pre as [|u|u v rest IH1 IH2] using jsstring_pair_ind.
  - reflexivity.
  - destruct (is_high_surrogate u) eqn:Eh; [cbn; rewrite Eh; discriminate|].
    intros Hw. destruct (isWellFormed_plain u [] Eh Hw) as [El _].
    cbn [app]. rewrite !code_points_plain by assumption. reflexivity.
  - destruct (is_high_surrogate u) eqn:Eh; intros Hw.
    + destruct (isWellFormed_pair u v rest Eh Hw) as [El Hrest].
      cbn [app code_points]. rewrite Eh, El, (IH1 Hrest). reflexivity.
    + destruct (isWellFormed_plain u (v :: rest) Eh Hw) as [El Hrest].
      change ((u :: v :: rest) ++ suf) with (u :: ((v :: rest) ++ suf)).
      rewrite !code_points_plain by assumption.
      rewrite (IH2 Hrest). reflexivity.
Qed.

Lemma Buffer_from_utf8_app (pre suf : jsstring) :
  isWellFormed pre = true ->
  Buffer_from_utf8 (pre ++ suf) = Buffer_from_utf8 pre ++ Buffer_from_utf8 suf.
Proof.
  intros Hw. unfold Buffer_from_utf8.
  rewrite code_points_app by exact Hw. apply flat_map_app.
Qed.

(** X7: truncateUtf8Bytes keeps the end of the text.  When the last maxBytes
    bytes of the encoding start at a character boundary (the text is a
    well-formed string followed by a well-formed string of exactly maxBytes
    bytes), the result is that final string, and it is maxBytes bytes
    long. *)
Theorem truncateUtf8Bytes_at_boundary (pre suf : jsstring) (maxBytes : N) :
  isWellFormed pre = true ->
  isWellFormed suf = true ->
  N.of_nat (byteLength suf) = maxBytes ->
  truncateUtf8Bytes (pre ++ suf) maxBytes = suf
  /\ N.of_nat (byteLength (truncateUtf8Bytes (pre ++ suf) maxBytes)) = maxBytes.
Proof.
  intros Hp Hs Hm.
  assert (H : truncateUtf8Bytes (pre ++ suf) maxBytes = suf);
    [|rewrite H; split; [reflexivity|exact Hm]].
  unfold truncateUtf8Bytes, byteLength in *.
  rewrite Buffer_from_utf8_app by exact Hp. rewrite length_app.
  destruct (N.leb_spec (N.of_nat (length (Buffer_from_utf8 pre)
                                  + length (Buffer_from_utf8 suf))) maxBytes)
    as [Hle|Hgt].
  - assert (Hnil : Buffer_from_utf8 pre = []).
    { destruct (Buffer_from_utf8 pre); [reflexivity|]. cbn [length] in Hle. lia. }
    assert (Hpre : pre = []).
    { rewrite <- (utf8_roundtrip pre Hp), Hnil. reflexivity. }
    rewrite Hpre. reflexivity.
  - replace (length (Buffer_from_utf8 pre) + length (Buffer_from_utf8 suf)
             - N.to_nat maxBytes)%nat
      with (length (Buffer_from_utf8 pre)) by lia.
    rewrite drop_app_length. apply utf8_roundtrip. exact Hs.
Qed.

Lemma truncateUtf8Bytes_at_boundary_witness :
  let pre := [0xD83D; 0xDE00] ++ lit "ab" in
  let suf := lit "cd" ++ [0x4F60; 0x597D] in
  (isWellFormed pre = true /\ isWellFormed suf = true
   /\ N.of_nat (byteLength suf) = 8)
  /\ truncateUtf8Bytes (pre ++ suf) 8 = suf
  /\ N.of_nat (byteLength (truncateUtf8Bytes (pre ++ suf) 8)) = 8.
Proof.
  cbv zeta. split; [repeat split; reflexivity|].
  apply truncateUtf8Bytes_at_boundary; reflexivity.
Defined.

End TruncateFacts.

(** ** More on the access-token cache (agent/api-client.ts) *)

Module ApiMore.
Import Api ApiFacts.

(** The cache entry a call works on: the stored one, or the empty one it
    creates. *)
Definition entryOf (cacheKey : jsstring) (w : world) : TokenCache :=
  default {| token := []; expiresAt := 0; refreshPromise := None |}
    (tokenCaches w !! cacheKey).

(** No refresh is in flight for the entry, and its token is missing or
    within a minute of its expiry. *)
Definition due (cacheKey : jsstring) (now : Z) (w : world) : Prop :=
  refreshPromise (entryOf cacheKey w) = None
  /\ truthy (token (entryOf cacheKey w))
     && (now + 60000 <? expiresAt (entryOf cacheKey w))%Z = false.

(** A due entry and a URL that can be built: one request is sent, and the
    new promise marks the refresh. *)
Lemma getAccessToken_due (agent : ResolvedAgentAccount) (now : Z) (w : world)
  (url : jsstring) :
  due (cacheKeyOf agent) now w ->
  tokenUrl agent = Some url ->
  getAccessToken agent now w =
  (Refresh (length (promises w)),
   {| tokenCaches :=
        <[cacheKeyOf agent :=
            set_refreshPromise (Some (length (promises w)))
              (entryOf (cacheKeyOf agent) w)]> (tokenCaches w);
      promises := promises w ++ [Pending];
      suspended := <[length (promises w) := cacheKeyOf agent]> (suspended w);
      requests := requests w ++ [url] |}).
Proof.
  unfold due, entryOf. intros [Hp Ht] Hu. unfold getAccessToken.
  destruct (tokenCaches w !! cacheKeyOf agent) as [cache|] eqn:Ec;
    cbn [default from_option] in Hp, Ht |- *; unfold id in *;
    unfold Limits.TOKEN_REFRESH_BUFFER_MS.
  - rewrite Ht, Hp. unfold startRefresh. rewrite Hu.
    unfold with_caches. cbn [tokenCaches promises suspended requests].
    do 2 f_equal. apply map_eq. intros k.
    destruct (decide (k = cacheKeyOf agent)) as [->|Hk].
    + rewrite lookup_alter_eq, Ec, lookup_insert_eq. reflexivity.
    + rewrite lookup_alter_ne, lookup_insert_ne by congruence. reflexivity.
  - cbn [token truthy andb refreshPromise]. unfold startRefresh. rewrite Hu.
    unfold with_caches. cbn [tokenCaches promises suspended requests].
    do 2 f_equal. apply map_eq. intros k.
    destruct (decide (k = cacheKeyOf agent)) as [->|Hk].
    + rewrite lookup_alter_eq, !lookup_insert_eq. reflexivity.
    + rewrite lookup_alter_ne, !lookup_insert_ne by congruence. reflexivity.
Qed.

(** X8: single flight.  When a call has to refresh, a second call for the
    same corpId and agentId made before the refresh ends, at the same time or
    later, gets the promise of the first: one request is sent in all, and the
    second call changes nothing. *)
Theorem getAccessToken_single_flight
  (agent agent' : ResolvedAgentAccount) (now now' : Z) (w : world)
  (url : jsstring) :
  due (cacheKeyOf agent) now w ->
  tokenUrl agent = Some url ->
  cacheKeyOf agent' = cacheKeyOf agent ->
  (now <= now')%Z ->
  let first := getAccessToken agent now w in
  let second := getAccessToken agent' now' (snd first) in
  fst first = Refresh (length (promises w))
  /\ fst second = Refresh (length (promises w))
  /\ requests (snd first) = requests w ++ [url]
  /\ snd second = snd first.
Proof.
  intros Hdue Hu Hk Hle first second. subst first second.
  rewrite (getAccessToken_due agent now w url Hdue Hu). cbn [fst snd requests].
  destruct Hdue as [Hp Ht].
  match goal with
  | |- context [getAccessToken agent' now' ?w1] =>
      rewrite (getAccessToken_joins agent' now' w1
                 (set_refreshPromise (Some (length (promises w)))
                    (entryOf (cacheKeyOf agent) w))
                 (length (promises w)))
  end.
  - repeat split.
  - cbn [tokenCaches]. rewrite Hk. apply lookup_insert_eq.
  - cbn [set_refreshPromise token expiresAt].
    destruct (truthy (token (entryOf (cacheKeyOf agent) w))); [|reflexivity].
    cbn [andb] in Ht |- *.
    apply Z.ltb_ge in Ht. apply Z.ltb_ge. lia.
  - reflexivity.
Qed.

(** An account, for the examples. *)
Definition demo_agent (secret : string) : ResolvedAgentAccount :=
  {| corpId := lit "ww1"; corpSecret := lit secret; agentId := 1000002 |}.

Lemma getAccessToken_single_flight_witness :
  let agent := demo_agent "s3cret" in
  let url := lit "https://qyapi.weixin.qq.com/cgi-bin/gettoken?corpid=ww1&corpsecret=s3cret" in
  let first := getAccessToken agent 1000 empty in
  let second := getAccessToken agent 1500 (snd first) in
  (due (cacheKeyOf agent) 1000 empty
   /\ tokenUrl agent = Some url
   /\ cacheKeyOf agent = cacheKeyOf agent
   /\ (1000 <= 1500)%Z)
  /\ fst first = Refresh (length (promises empty))
  /\ fst second = Refresh (length (promises empty))
  /\ requests (snd first) = requests empty ++ [url]
  /\ snd second = snd first.
Proof.
  cbv zeta.
  assert (Hd : due (cacheKeyOf (demo_agent "s3cret")) 1000 empty)
    by (split; reflexivity).
  assert (Hu : tokenUrl (demo_agent "s3cret") =
               Some (lit "https://qyapi.weixin.qq.com/cgi-bin/gettoken?corpid=ww1&corpsecret=s3cret"))
    by reflexivity.
  assert (Hle : (1000 <= 1500)%Z) by lia.
  split; [exact (conj Hd (conj Hu (conj eq_refl Hle)))|].
  exact (getAccessToken_single_flight (demo_agent "s3cret") (demo_agent "s3cret")
           1000 1500 empty _ Hd Hu eq_refl Hle).
Defined.

(** The world after a refresh that was started by a call has ended. *)
Definition refreshed (agent : ResolvedAgentAccount) (now : Z) (r : fetched)
  (settled : Z) (w : world) : world :=
  resume (length (promises w)) r settled (snd (getAccessToken agent now w)).

Lemma refreshed_entry (agent : ResolvedAgentAccount) (now : Z) (r : fetched)
  (settled : Z) (w : world) (url : jsstring) :
  due (cacheKeyOf agent) now w ->
  tokenUrl agent = Some url ->
  let w' := refreshed agent now r settled w in
  requests w' = requests w ++ [url]
  /\ length (promises w') = S (length (promises w))
  /\ entryOf (cacheKeyOf agent) w' =
     match r with
     | FetchRejected => entryOf (cacheKeyOf agent) w
     | FetchedJson json =>
         if truthy (default [] (access_token json)) then
           {| token := default [] (access_token json);
              expiresAt := settled + default 7200%Z (expires_in json) * 1000;
              refreshPromise := None |}
         else entryOf (cacheKeyOf agent) w
     end.
Proof.
  intros Hdue Hu w'. subst w'. unfold refreshed.
  rewrite (getAccessToken_due agent now w url Hdue Hu). cbn [snd].
  destruct Hdue as [Hp _].
  assert (Hsame : set_refreshPromise None
                    (set_refreshPromise (Some (length (promises w)))
                       (entryOf (cacheKeyOf agent) w))
                  = entryOf (cacheKeyOf agent) w).
  { destruct (entryOf (cacheKeyOf agent) w) as [t e p]. cbn in Hp |- *.
    rewrite Hp. reflexivity. }
  unfold resume. cbn [suspended]. rewrite lookup_insert_eq.
  destruct r as [|json];
    [|destruct (access_token json) as [t|]; [destruct (truthy t) eqn:Et|]];
    cbn [requests promises tokenCaches default truthy]; unfold id;
    rewrite ?Et; unfold entryOf at 1; cbn [tokenCaches];
    rewrite lookup_alter_eq, lookup_insert_eq; cbn [fmap option_fmap option_map default];
    rewrite ?Hsame, length_insert, length_app; cbn [length];
    repeat split; try lia.
Qed.

(** X9: the window of a token.  After a refresh that a call started has
    stored the token of the answer, at the time [settled], every call made
    more than 60 s before [settled + expires_in] seconds (7200 when the
    answer gives none) returns that token and sends nothing; a call made
    later than that starts a new refresh, with a new request. *)
Theorem getAccessToken_window
  (agent : ResolvedAgentAccount) (now settled later : Z) (w : world)
  (url t : jsstring) (json : TokenResponse) :
  due (cacheKeyOf agent) now w ->
  tokenUrl agent = Some url ->
  access_token json = Some t -> t <> [] ->
  let w' := refreshed agent now (FetchedJson json) settled w in
  let expiry := (settled + default 7200 (expires_in json) * 1000)%Z in
  ((later + 60000 < expiry)%Z ->
   getAccessToken agent later w' = (Token t, w'))
  /\ ((expiry <= later + 60000)%Z ->
      fst (getAccessToken agent later w') = Refresh (S (length (promises w)))
      /\ requests (snd (getAccessToken agent later w')) = requests w ++ [url; url]).
Proof.
  intros Hdue Hu Ht Hne w' expiry.
  destruct (refreshed_entry agent now (FetchedJson json) settled w url Hdue Hu)
    as (Hreq & Hlen & Hentry).
  fold w' in Hreq, Hlen, Hentry. rewrite Ht in Hentry.
  cbn [default from_option] in Hentry. unfold id in Hentry.
  apply Utf8Facts.truthy_nonempty in Hne. rewrite Hne in Hentry.
  assert (Hc : tokenCaches w' !! cacheKeyOf agent =
               Some {| token := t; expiresAt := expiry; refreshPromise := None |}).
  { unfold entryOf in Hentry.
    destruct (tokenCaches w' !! cacheKeyOf agent) as [c|] eqn:Ec;
      cbn [default from_option] in Hentry; unfold id in Hentry.
    - rewrite Hentry. reflexivity.
    - injection Hentry as E _. rewrite <- E in Hne. discriminate. }
  split.
  - intros Hlt.
    exact (getAccessToken_cached agent later w' _ Hc Hne Hlt).
  - intros Hge.
    assert (Hd : due (cacheKeyOf agent) later w').
    { unfold due. rewrite Hentry. cbn [refreshPromise token expiresAt].
      split; [reflexivity|]. rewrite Hne. cbn [andb]. apply Z.ltb_ge. exact Hge. }
    rewrite (getAccessToken_due agent later w' url Hd Hu). cbn [fst snd requests].
    rewrite Hlen, Hreq, <- app_assoc. split; reflexivity.
Qed.

Lemma getAccessToken_window_witness :
  let agent := demo_agent "s3cret" in
  let url := lit "https://qyapi.weixin.qq.com/cgi-bin/gettoken?corpid=ww1&corpsecret=s3cret" in
  let json := {| access_token := Some (lit "T"); expires_in := Some 100%Z;
                 errcode := None; errmsg := None |} in
  let w' := refreshed agent 1000 (FetchedJson json) 2000 empty in
  let expiry := (2000 + default 7200 (expires_in json) * 1000)%Z in
  (due (cacheKeyOf agent) 1000 empty /\ tokenUrl agent = Some url
   /\ access_token json = Some (lit "T") /\ lit "T" <> [])
  /\ ((41999 + 60000 < expiry)%Z ->
      getAccessToken agent 41999 w' = (Token (lit "T"), w'))
  /\ ((expiry <= 41999 + 60000)%Z ->
      fst (getAccessToken agent 41999 w') = Refresh (S (length (promises empty)))
      /\ requests (snd (getAccessToken agent 41999 w'))
         = requests empty ++ [url; url]).
Proof.
  cbv zeta.
  assert (Hd : due (cacheKeyOf (demo_agent "s3cret")) 1000 empty)
    by (split; reflexivity).
  assert (Hne : lit "T" <> []) by discriminate.
  split; [exact (conj Hd (conj eq_refl (conj eq_refl Hne)))|].
  exact (getAccessToken_window (demo_agent "s3cret") 1000 2000 41999 empty _
           (lit "T")
           {| access_token := Some (lit "T"); expires_in := Some 100%Z;
              errcode := None; errmsg := None |}
           Hd eq_refl eq_refl Hne).
Defined.

(** X10: a refresh that fails after its request was sent can be retried.
    When the request fails, or the answer has no access token, the promise of
    the refresh is rejected and the cache entry is as it was before; the next
    call, made no earlier than the first, sends a new request. *)
Theorem getAccessToken_retries_after_failure
  (agent : ResolvedAgentAccount) (now settled later : Z) (w : world)
  (url : jsstring) (r : fetched) :
  due (cacheKeyOf agent) now w ->
  tokenUrl agent = Some url ->
  match r with
  | FetchRejected => True
  | FetchedJson json => truthy (default [] (access_token json)) = false
  end ->
  (now <= later)%Z ->
  let w' := refreshed agent now r settled w in
  promises w' !! length (promises w) =
    Some (Rejected match r with
                   | FetchRejected => FetchFailed
                   | FetchedJson json => GetTokenFailed (errcode json) (errmsg json)
                   end)
  /\ entryOf (cacheKeyOf agent) w' = entryOf (cacheKeyOf agent) w
  /\ fst (getAccessToken agent later w') = Refresh (S (length (promises w)))
  /\ requests (snd (getAccessToken agent later w')) = requests w ++ [url; url].
Proof.
  intros Hdue Hu Hfail Hle w'.
  destruct (refreshed_entry agent now r settled w url Hdue Hu)
    as (Hreq & Hlen & Hentry).
  fold w' in Hreq, Hlen, Hentry.
  assert (He : entryOf (cacheKeyOf agent) w' = entryOf (cacheKeyOf agent) w).
  { destruct r as [|json]; [exact Hentry|]. rewrite Hfail in Hentry. exact Hentry. }
  assert (Hd : due (cacheKeyOf agent) later w').
  { unfold due. rewrite He. destruct Hdue as [Hp Ht]. split; [exact Hp|].
    destruct (truthy (token (entryOf (cacheKeyOf agent) w))); [|reflexivity].
    cbn [andb] in Ht |- *. apply Z.ltb_ge in Ht. apply Z.ltb_ge. lia. }
  split; [|split; [exact He|]].
  - subst w'. unfold refreshed.
    rewrite (getAccessToken_due agent now w url Hdue Hu). cbn [snd].
    unfold resume. cbn [suspended]. rewrite lookup_insert_eq.
    assert (Hlt : (length (promises w) < length (promises w ++ [Pending]))%nat)
      by (rewrite length_app; cbn; lia).
    destruct r as [|json];
      [|cbn [default] in Hfail; destruct (access_token json) as [t|];
        [cbn [default] in Hfail; unfold id in Hfail; rewrite Hfail|]];
      cbn [promises]; apply list_lookup_insert_eq; exact Hlt.
  - rewrite (getAccessToken_due agent later w' url Hd Hu). cbn [fst snd requests].
    rewrite Hlen, Hreq, <- app_assoc. split; reflexivity.
Qed.

Lemma getAccessToken_retries_after_failure_witness :
  let agent := demo_agent "s3cret" in
  let url := lit "https://qyapi.weixin.qq.com/cgi-bin/gettoken?corpid=ww1&corpsecret=s3cret" in
  let r := FetchedJson {| access_token := None; expires_in := None;
                          errcode := Some 40001%Z;
                          errmsg := Some (lit "invalid credential") |} in
  let w' := refreshed agent 1000 r 2000 empty in
  (due (cacheKeyOf agent) 1000 empty /\ tokenUrl agent = Some url
   /\ truthy (default [] (@None jsstring)) = false /\ (1000 <= 3000)%Z)
  /\ promises w' !! length (promises empty) =
       Some (Rejected (GetTokenFailed (Some 40001%Z)
                         (Some (lit "invalid credential"))))
  /\ entryOf (cacheKeyOf agent) w' = entryOf (cacheKeyOf agent) empty
  /\ fst (getAccessToken agent 3000 w') = Refresh (S (length (promises empty)))
  /\ requests (snd (getAccessToken agent 3000 w')) = requests empty ++ [url; url].
Proof.
  cbv zeta.
  assert (Hd : due (cacheKeyOf (demo_agent "s3cret")) 1000 empty)
    by (split; reflexivity).
  assert (Hle : (1000 <= 3000)%Z) by lia.
  split; [exact (conj Hd (conj eq_refl (conj eq_refl Hle)))|].
  exact (getAccessToken_retries_after_failure (demo_agent "s3cret") 1000 2000 3000
           empty _
           (FetchedJson {| access_token := None; expires_in := None;
                           errcode := Some 40001%Z;
                           errmsg := Some (lit "invalid credential") |})
           Hd eq_refl eq_refl Hle).
Defined.

End ApiMore.

(** ** More on the stream and conversation store (monitor/state.ts) *)

Module StoreMore.
Import Store StoreRun StoreInvariants StoreFacts MonitorFacts.

(** X11: the debounce of a pending entry is armed until it ends.  In every
    state the store reaches, a pending entry that is not marked ready to
    flush holds a live timer set for its key.  When that timer fires, the
    entry is handed to the flush handler if its batch is the active batch of
    its conversation, and is marked ready to flush, its timer gone, if it is
    not.  What becomes of an entry that is marked ready is not part of this
    statement: it has no timer and waits for [onStreamFinished]. *)
Theorem pending_entry_timer (st : StreamStore) (k : jsstring)
  (p : PendingInbound.t) :
  reachable st ->
  pendingInbounds st !! k = Some p ->
  PendingInbound.readyToFlush p = false ->
  exists h d,
    PendingInbound.timeout p = Some h
    /\ timers st !! h = Some (k, d)
    /\ let st' := fireTimer h st in
       let isActive :=
         match conversationState st !! PendingInbound.conversationKey p with
         | Some conv => bool_decide (Conversation.activeBatchKey conv = k)
         | None => false
         end in
       timers st' !! h = None
       /\ if isActive
          then pendingInbounds st' !! k = None
               /\ flushed st' = flushed st ++ [PendingInbound.set_flush None false p]
          else pendingInbounds st' !! k
                 = Some (PendingInbound.set_flush None true p)
               /\ flushed st' = flushed st.
Proof.
  intros Hr Hp Hready.
  destruct (reachable_consistent st Hr) as [[_ _ _ Harm _ _] _].
  destruct (Harm k p Hp Hready) as (h & d & Ht & Htm).
  exists h, d. split; [exact Ht|]. split; [exact Htm|]. cbv zeta.
  unfold fireTimer. rewrite Htm. unfold requestFlush.
  cbn [clearTimeout pendingInbounds conversationState]. rewrite Hp.
  destruct (match conversationState st !! PendingInbound.conversationKey p with
            | Some conv => bool_decide (Conversation.activeBatchKey conv = k)
            | None => false
            end).
  - unfold flushPending. cbn [pendingInbounds]. rewrite Hp, Ht.
    cbn [with_pending clearTimeout onFlush timers pendingInbounds flushed].
    rewrite !lookup_delete_eq. auto.
  - rewrite Ht.
    cbn [with_pending clearTimeout timers pendingInbounds flushed].
    rewrite lookup_delete_eq, lookup_insert_eq. auto.
Qed.

Lemma pending_entry_timer_witness :
  let st := run two_messages Store.empty in
  let k := lit "a#q1" in
  reachable st
  /\ match pendingInbounds st !! k with
     | None => False
     | Some p =>
         PendingInbound.readyToFlush p = false
         /\ exists h d,
              PendingInbound.timeout p = Some h
              /\ timers st !! h = Some (k, d)
              /\ let st' := fireTimer h st in
                 let isActive :=
                   match conversationState st !! PendingInbound.conversationKey p with
                   | Some conv => bool_decide (Conversation.activeBatchKey conv = k)
                   | None => false
                   end in
                 timers st' !! h = None
                 /\ if isActive
                    then pendingInbounds st' !! k = None
                         /\ flushed st' = flushed st
                                          ++ [PendingInbound.set_flush None false p]
                    else pendingInbounds st' !! k
                           = Some (PendingInbound.set_flush None true p)
                         /\ flushed st' = flushed st
     end.
Proof.
  intros st k.
  assert (Hr : reachable st).
  { apply (reachable_run two_messages Store.empty reachable_empty).
    vm_compute. reflexivity. }
  split; [exact Hr|].
  destruct (pendingInbounds st !! k) as [p|] eqn:Hp;
    [|vm_compute in Hp; discriminate].
  assert (Hready : PendingInbound.readyToFlush p = false).
  { vm_compute in Hp. injection Hp as <-. reflexivity. }
  split; [exact Hready|].
  exact (pending_entry_timer st k p Hr Hp Hready).
Defined.

(** X12: a merge appends to the batch and restarts its debounce.  When
    addPendingMessage answers active_merged or queued_merged, the pending
    entry of the stream it returns has the new content and msg-id at the end
    of its lists, keeps its ready-to-flush mark, and waits on a new timer set
    for the debounce delay of this call (500 ms when none is given); the timer
    it held before is cleared, so its firing changes nothing; nothing is
    handed to the flush handler. *)
Theorem merge_restarts_debounce (st : StreamStore) (params : addPendingParams)
  (rnd : Buffer) (now : Z) (sid : jsstring) (status : Store.status) :
  reachable st ->
  snd (addPendingMessage params rnd now st) = (sid, status) ->
  status = active_merged \/ status = queued_merged ->
  let st' := fst (addPendingMessage params rnd now st) in
  exists k p p',
    pendingInbounds st !! k = Some p
    /\ PendingInbound.streamId p = sid
    /\ pendingInbounds st' !! k = Some p'
    /\ PendingInbound.streamId p' = sid
    /\ PendingInbound.contents p'
       = PendingInbound.contents p ++ [ap_msgContent params]
    /\ PendingInbound.msgids p'
       = PendingInbound.msgids p ++ msgid_list (ap_msg params)
    /\ PendingInbound.readyToFlush p' = PendingInbound.readyToFlush p
    /\ PendingInbound.timeout p' = Some (nextTimer st)
    /\ timers st' !! nextTimer st
       = Some (k, default Limits.DEFAULT_DEBOUNCE_MS (ap_debounceMs params))
    /\ (forall h, PendingInbound.timeout p = Some h ->
          timers st' !! h = None /\ fireTimer h st' = st')
    /\ flushed st' = flushed st.
Proof.
  intros Hr Hres Hmerged st'. subst st'.
  destruct (addPendingMessage_merged params rnd now st sid status Hres Hmerged)
    as (k & p & Hp & Hsid & ->).
  destruct (reachable_consistent st Hr) as [[_ _ _ _ _ Hown] _].
  exists k, p,
    (PendingInbound.merge (ap_msgContent params) (msgid_list (ap_msg params))
       (nextTimer st) p).
  destruct (mergeInto_pending params k p st) as (Hpend & _).
  rewrite Hpend, lookup_insert_eq.
  assert (Htimers : timers (mergeInto params k p st)
            = <[nextTimer st :=
                  (k, default Limits.DEFAULT_DEBOUNCE_MS (ap_debounceMs params))]>
                (match PendingInbound.timeout p with
                 | Some h => delete h (timers st)
                 | None => timers st
                 end)).
  { unfold mergeInto, setTimeout, clearTimeout.
    destruct (PendingInbound.timeout p); reflexivity. }
  assert (Hflushed : flushed (mergeInto params k p st) = flushed st).
  { unfold mergeInto, setTimeout, clearTimeout.
    destruct (PendingInbound.timeout p); reflexivity. }
  repeat split; try assumption; try reflexivity.
  - rewrite Htimers. apply lookup_insert_eq.
  - rewrite Htimers, H. destruct (Hown k p h Hp H) as [Hlt _].
    rewrite lookup_insert_ne by lia. apply lookup_delete_eq.
  - unfold fireTimer. rewrite Htimers, H.
    destruct (Hown k p h Hp H) as [Hlt _].
    rewrite lookup_insert_ne by lia. rewrite lookup_delete_eq. reflexivity.
Qed.

Lemma merge_restarts_debounce_witness :
  let st := run two_messages Store.empty in
  let params := demo_params "a" "M3" in
  let rnd := demo_random 3 in
  let sid := Buffer_toString_hex (demo_random 2) in
  let st' := fst (addPendingMessage params rnd 0 st) in
  (reachable st
   /\ snd (addPendingMessage params rnd 0 st) = (sid, queued_merged)
   /\ (queued_merged = active_merged \/ queued_merged = queued_merged))
  /\ exists k p p',
    pendingInbounds st !! k = Some p
    /\ PendingInbound.streamId p = sid
    /\ pendingInbounds st' !! k = Some p'
    /\ PendingInbound.streamId p' = sid
    /\ PendingInbound.contents p'
       = PendingInbound.contents p ++ [ap_msgContent params]
    /\ PendingInbound.msgids p'
       = PendingInbound.msgids p ++ msgid_list (ap_msg params)
    /\ PendingInbound.readyToFlush p' = PendingInbound.readyToFlush p
    /\ PendingInbound.timeout p' = Some (nextTimer st)
    /\ timers st' !! nextTimer st
       = Some (k, default Limits.DEFAULT_DEBOUNCE_MS (ap_debounceMs params))
    /\ (forall h, PendingInbound.timeout p = Some h ->
          timers st' !! h = None /\ fireTimer h st' = st')
    /\ flushed st' = flushed st.
Proof.
  intros st params rnd sid st'.
  assert (Hr : reachable st).
  { apply (reachable_run two_messages Store.empty reachable_empty).
    vm_compute. reflexivity. }
  assert (Hres : snd (addPendingMessage params rnd 0 st) = (sid, queued_merged))
    by (vm_compute; reflexivity).
  split; [exact (conj Hr (conj Hres (or_intror eq_refl)))|].
  exact (merge_restarts_debounce st params rnd 0 sid queued_merged Hr Hres
           (or_intror eq_refl)).
Defined.

(** X13: what prune takes and what it leaves.  A stream stays exactly when
    it was updated within the last ten minutes; a msg-id mapping stays
    exactly when its stream stays, so none is left dangling; a pending entry
    stays exactly when it was created within the last ten minutes; the map
    from streams to batches, the ack lists and the record of flushed batches
    are not touched. *)
Theorem prune_keeps_and_drops (now : Z) (st : StreamStore) :
  let st' := prune now st in
  (forall id s, streams st' !! id = Some s <->
     streams st !! id = Some s
     /\ (now - Limits.STREAM_TTL_MS <= StreamState.updatedAt s)%Z)
  /\ (forall m id, msgidToStreamId st' !! m = Some id <->
        msgidToStreamId st !! m = Some id /\ is_Some (streams st' !! id))
  /\ (forall k p, pendingInbounds st' !! k = Some p <->
        pendingInbounds st !! k = Some p
        /\ (now - PendingInbound.createdAt p <= Limits.STREAM_TTL_MS)%Z)
  /\ streamIdToBatchKey st' = streamIdToBatchKey st
  /\ batchStreamIdToAckStreamIds st' = batchStreamIdToAckStreamIds st
  /\ flushed st' = flushed st.
Proof.
  cbv zeta. unfold prune.
  cbn [streams msgidToStreamId pendingInbounds streamIdToBatchKey
       batchStreamIdToAckStreamIds flushed].
  assert (Hs : forall id s,
    filter (fun kv => stream_expired (now - Limits.STREAM_TTL_MS) (snd kv) = false)
      (streams st) !! id = Some s <->
    streams st !! id = Some s
    /\ (now - Limits.STREAM_TTL_MS <= StreamState.updatedAt s)%Z).
  { intros id s. rewrite map_lookup_filter_Some. cbn [snd].
    unfold stream_expired. rewrite Z.ltb_ge. reflexivity. }
  split; [exact Hs|]. split; [|split; [|auto]].
  - intros m id. rewrite !map_lookup_filter_Some. cbn [fst snd].
    rewrite bool_decide_eq_true. split.
    + intros [[Hm _] Hsome]. auto.
    + intros [Hm Hsome]. split; [split; [exact Hm|]|exact Hsome].
      destruct Hsome as [s Hsome]. apply Hs in Hsome as [Hst Hlive].
      rewrite Hst. unfold stream_expired.
      apply Z.ltb_ge in Hlive. rewrite Hlive. reflexivity.
  - intros k p. rewrite map_lookup_filter_Some. cbn [snd].
    unfold pending_expired. rewrite Z.ltb_ge. reflexivity.
Qed.

(** The acks of a batch stream, added one after the other. *)
Definition addAckStreams (batchStreamId : jsstring) (acks : list jsstring)
  (st : StreamStore) : StreamStore :=
  fold_left (fun st a => addAckStreamForBatch batchStreamId a st) acks st.

Lemma addAckStreams_acks (b : jsstring) (acks : list jsstring) (st : StreamStore) :
  trim b <> [] -> Forall (fun a => trim a <> []) acks ->
  batchStreamIdToAckStreamIds (addAckStreams b acks st) !! trim b
  = match acks with
    | [] => batchStreamIdToAckStreamIds st !! trim b
    | _ :: _ =>
        Some (default [] (batchStreamIdToAckStreamIds st !! trim b) ++ map trim acks)
    end.
Proof.
  intros Hb Hacks. revert st.
  induction Hacks as [|a acks Ha Hacks IH]; intros st; [reflexivity|].
  unfold addAckStreams in *. cbn [fold_left].
  rewrite IH. unfold addAckStreamForBatch.
  apply Utf8Facts.truthy_nonempty in Hb. apply Utf8Facts.truthy_nonempty in Ha.
  rewrite Hb, Ha. cbn [negb orb with_acks batchStreamIdToAckStreamIds].
  rewrite lookup_insert_eq. cbn [default from_option]. unfold id.
  destruct acks as [|a' acks']; [cbn [map]; reflexivity|].
  cbn [map]. rewrite <- app_assoc. reflexivity.
Qed.

(** X14: the ack streams registered with a batch stream come back from
    drainAckStreamsForBatch once, trimmed and in the order they were added,
    after those that were there; a second drain returns nothing. *)
Theorem drainAckStreamsForBatch_returns_added
  (batchStreamId : jsstring) (acks : list jsstring) (st : StreamStore) :
  trim batchStreamId <> [] ->
  Forall (fun a => trim a <> []) acks ->
  let drained := drainAckStreamsForBatch batchStreamId
                   (addAckStreams batchStreamId acks st) in
  snd drained
  = default [] (batchStreamIdToAckStreamIds st !! trim batchStreamId)
    ++ map trim acks
  /\ snd (drainAckStreamsForBatch batchStreamId (fst drained)) = [].
Proof.
  intros Hb Hacks drained. subst drained. unfold drainAckStreamsForBatch.
  pose proof (addAckStreams_acks batchStreamId acks st Hb Hacks) as Hl.
  apply Utf8Facts.truthy_nonempty in Hb. rewrite Hb.
  cbn [negb fst snd with_acks batchStreamIdToAckStreamIds].
  rewrite Hl, lookup_delete_eq. split; [|reflexivity].
  destruct acks; cbn [map default from_option]; [|reflexivity].
  rewrite app_nil_r. reflexivity.
Qed.

Lemma drainAckStreamsForBatch_returns_added_witness :
  let b := lit " batch1 " in
  let acks := [lit "ack1"; lit " ack2"] in
  let drained := drainAckStreamsForBatch b (addAckStreams b acks Store.empty) in
  (trim b <> [] /\ Forall (fun a => trim a <> []) acks)
  /\ snd drained
     = default [] (batchStreamIdToAckStreamIds Store.empty !! trim b)
       ++ map trim acks
  /\ snd (drainAckStreamsForBatch b (fst drained)) = [].
Proof.
  cbv zeta.
  assert (Hb : trim (lit " batch1 ") <> []) by (vm_compute; discriminate).
  assert (Ha : Forall (fun a => trim a <> []) [lit "ack1"; lit " ack2"]).
  { repeat constructor; vm_compute; discriminate. }
  split; [exact (conj Hb Ha)|].
  exact (drainAckStreamsForBatch_returns_added _ _ Store.empty Hb Ha).
Defined.

(** *** Conversation entries and the batch map *)

(** Some stream is attributed to the batch [key]. *)
Definition batch_known (st : StreamStore) (key : jsstring) : Prop :=
  exists sid, streamIdToBatchKey st !! sid = Some key.

(** The active batch and the queued batches of every conversation with a
    non-empty key are known to the batch map. *)
Definition conversations_known (st : StreamStore) : Prop :=
  forall c conv, conversationState st !! c = Some conv -> c <> [] ->
    batch_known st (Conversation.activeBatchKey conv)
    /\ forall q, q ∈ Conversation.queue conv -> batch_known st q.

Lemma conversations_known_same (st st' : StreamStore) :
  conversationState st' = conversationState st ->
  streamIdToBatchKey st' = streamIdToBatchKey st ->
  conversations_known st -> conversations_known st'.
Proof.
  unfold conversations_known, batch_known. intros -> ->. auto.
Qed.

Lemma newBatch_batches params k rnd now st :
  streamIdToBatchKey (fst (newBatch params k rnd now st))
  = match truthy_opt (Some k) with
    | Some b => <[Buffer_toString_hex rnd := b]> (streamIdToBatchKey st)
    | None => streamIdToBatchKey st
    end.
Proof.
  unfold newBatch, createStream, setTimeout. cbn [cs_msgid cs_batchKey].
  destruct (truthy_opt (Msg.msgid _)), (truthy_opt (Some k)); reflexivity.
Qed.

Lemma mergeInto_batches params k p st :
  streamIdToBatchKey (mergeInto params k p st) = streamIdToBatchKey st.
Proof.
  unfold mergeInto, setTimeout, clearTimeout.
  destruct (PendingInbound.timeout p); reflexivity.
Qed.

Lemma flushPending_same k st :
  conversationState (flushPending k st) = conversationState st
  /\ streamIdToBatchKey (flushPending k st) = streamIdToBatchKey st.
Proof.
  unfold flushPending. destruct (pendingInbounds st !! k) as [p|]; [|auto].
  destruct (PendingInbound.timeout p); auto.
Qed.

Lemma fireTimer_same h st :
  conversationState (fireTimer h st) = conversationState st
  /\ streamIdToBatchKey (fireTimer h st) = streamIdToBatchKey st.
Proof.
  unfold fireTimer. destruct (timers st !! h) as [[k d]|]; [|auto].
  set (st1 := clearTimeout (Some h) st).
  assert (H1 : conversationState st1 = conversationState st) by reflexivity.
  assert (H2 : streamIdToBatchKey st1 = streamIdToBatchKey st) by reflexivity.
  rewrite <- H1, <- H2. clearbody st1.
  unfold requestFlush. destruct (pendingInbounds st1 !! k) as [p|]; [|auto].
  match goal with |- context [if ?b then _ else _] => destruct b end.
  - apply flushPending_same.
  - destruct (PendingInbound.timeout p); auto.
Qed.

(** A new stream extends the batch map: what was known stays known. *)
Lemma batch_known_insert (batches : gmap (list N) (list N)) (sid b key : jsstring) :
  batches !! sid = None ->
  (exists s, batches !! s = Some key) ->
  exists s, <[sid := b]> batches !! s = Some key.
Proof.
  intros Hnew [s Hs]. exists s. rewrite lookup_insert_ne; [exact Hs|].
  intros ->. congruence.
Qed.

Lemma conversations_known_addPendingMessage params rnd now st :
  conversations_known st -> fresh rnd st ->
  conversations_known (fst (addPendingMessage params rnd now st)).
Proof.
  intros Hk (_ & _ & Hnew & _). unfold addPendingMessage.
  assert (Hgrow : forall k key,
    batch_known st key -> batch_known (fst (newBatch params k rnd now st)) key).
  { intros k key Hkey. unfold batch_known. rewrite newBatch_batches.
    destruct (truthy_opt (Some k)); [|exact Hkey].
    apply batch_known_insert; assumption. }
  assert (Hnewkey : forall k, k <> [] ->
    batch_known (fst (newBatch params k rnd now st)) k).
  { intros k Hne. unfold batch_known. rewrite newBatch_batches.
    cbn [truthy_opt]. apply Utf8Facts.truthy_nonempty in Hne. rewrite Hne.
    exists (Buffer_toString_hex rnd). apply lookup_insert_eq. }
  destruct (conversationState st !! ap_conversationKey params) as [state|] eqn:Ecv.
  - destruct (mergeableActive _ state st) as [ap|].
    { cbn [fst]. destruct (mergeInto_pending params
                             (Conversation.activeBatchKey state) ap st)
        as (_ & Hc & _).
      exact (conversations_known_same _ _ Hc (mergeInto_batches _ _ _ _) Hk). }
    destruct (queuedPending state st) as [[q pq]|].
    { cbn [fst]. destruct (mergeInto_pending params q pq st) as (_ & Hc & _).
      exact (conversations_known_same _ _ Hc (mergeInto_batches _ _ _ _) Hk). }
    set (key := ap_conversationKey params ++ lit "#q"
                ++ String_of_N (Conversation.nextSeq state)).
    destruct (newBatch params key rnd now st) as [st1 sid] eqn:En.
    cbn [fst]. intros c conv.
    cbn [with_conversations conversationState streamIdToBatchKey].
    pose proof (newBatch_pending params key rnd now st) as (_ & _ & Hconv).
    rewrite En in Hconv. cbn [fst] in Hconv. rewrite Hconv.
    pose proof (Hgrow key) as Hgrow'. pose proof (Hnewkey key) as Hnewkey'.
    rewrite En in Hgrow', Hnewkey'. cbn [fst] in Hgrow', Hnewkey'.
    unfold batch_known in *. cbn [with_conversations streamIdToBatchKey].
    rewrite lookup_insert_Some. intros [[<- <-]|[Hne Hc]] Hc0.
    + cbn [Conversation.activeBatchKey Conversation.queue].
      destruct (Hk _ _ Ecv Hc0) as [Hact _]. split; [apply Hgrow'; exact Hact|].
      intros q Hq. apply list_elem_of_singleton in Hq as ->.
      apply Hnewkey'. unfold key. destruct (ap_conversationKey params); discriminate.
    + destruct (Hk _ _ Hc Hc0) as [Hact Hq].
      split; [apply Hgrow'; exact Hact|].
      intros q Hin. apply Hgrow'. apply Hq. exact Hin.
  - destruct (newBatch params (ap_conversationKey params) rnd now st)
      as [st1 sid] eqn:En.
    cbn [fst]. intros c conv.
    pose proof (newBatch_pending params (ap_conversationKey params) rnd now st)
      as (_ & _ & Hconv).
    rewrite En in Hconv. cbn [fst] in Hconv.
    pose proof (Hgrow (ap_conversationKey params)) as Hgrow'.
    pose proof (Hnewkey (ap_conversationKey params)) as Hnewkey'.
    rewrite En in Hgrow', Hnewkey'. cbn [fst] in Hgrow', Hnewkey'.
    unfold batch_known in *.
    cbn [with_conversations conversationState streamIdToBatchKey].
    rewrite Hconv, lookup_insert_Some. intros [[<- <-]|[Hne Hc]] Hc0.
    + cbn [Conversation.activeBatchKey Conversation.queue].
      split; [apply Hnewkey'; exact Hc0|].
      intros q Hq. apply elem_of_nil in Hq. contradiction.
    + destruct (Hk _ _ Hc Hc0) as [Hact Hq].
      split; [apply Hgrow'; exact Hact|].
      intros q Hin. apply Hgrow'. apply Hq. exact Hin.
Qed.

Lemma conversations_known_onStreamFinished streamId st :
  conversations_known st -> conversations_known (onStreamFinished streamId st).
Proof.
  intros Hk. unfold onStreamFinished.
  destruct (activeConversationOf streamId st) as [[c conv]|] eqn:Ea; [|exact Hk].
  apply activeConversationOf_Some in Ea.
  destruct (truthy_opt (head (Conversation.queue conv))) as [next|] eqn:En.
  - assert (Hstep : conversations_known
      (with_conversations
         (insert c {| Conversation.activeBatchKey := next;
                      Conversation.queue := tail (Conversation.queue conv);
                      Conversation.nextSeq := Conversation.nextSeq conv |}) st)).
    { intros c' conv'. unfold batch_known.
      cbn [with_conversations conversationState streamIdToBatchKey].
      rewrite lookup_insert_Some. intros [[<- <-]|[Hne Hc]] Hc0.
      - cbn [Conversation.activeBatchKey Conversation.queue].
        assert (Hconv : conversationState st !! c = Some conv) by apply Ea.
        destruct (Hk _ _ Hconv Hc0) as [_ Hq].
        destruct (Conversation.queue conv) as [|q0 qs]; [discriminate|].
        cbn [head truthy_opt] in En. destruct (truthy q0); [|discriminate].
        injection En as <-. cbn [tail]. split.
        + apply Hq. apply list_elem_of_here.
        + intros q Hin. apply Hq. apply list_elem_of_further. exact Hin.
      - exact (Hk _ _ Hc Hc0). }
    cbv zeta. cbn [with_conversations pendingInbounds].
    destruct (pendingInbounds st !! next) as [p|]; [|exact Hstep].
    destruct (PendingInbound.readyToFlush p); [|exact Hstep].
    match goal with |- conversations_known (flushPending next ?s) =>
      destruct (flushPending_same next s) as [Hc Hb];
      exact (conversations_known_same _ _ Hc Hb Hstep)
    end.
  - intros c' conv'. unfold batch_known.
    cbn [with_conversations conversationState streamIdToBatchKey].
    rewrite lookup_delete_Some. intros [_ Hc] Hc0. exact (Hk _ _ Hc Hc0).
Qed.

Lemma conversations_known_exec c st :
  conversations_known st -> draws_fresh c st -> conversations_known (exec c st).
Proof.
  intros Hk Hf. destruct c; cbn [exec draws_fresh] in *.
  - apply conversations_known_addPendingMessage; assumption.
  - destruct (fireTimer_same h st) as [Hc Hb].
    exact (conversations_known_same _ _ Hc Hb Hk).
  - apply conversations_known_onStreamFinished; assumption.
  - unfold updateStream. destruct (streams st !! streamId); exact Hk.
  - unfold createStream. cbn [cs_msgid cs_batchKey truthy_opt].
    destruct (truthy_opt msgid); exact Hk.
  - unfold setStreamIdForMsgId.
    match goal with |- conversations_known (if ?b then _ else _) => destruct b end;
      exact Hk.
  - unfold addAckStreamForBatch.
    match goal with |- conversations_known (if ?b then _ else _) => destruct b end;
      exact Hk.
  - unfold drainAckStreamsForBatch.
    match goal with |- conversations_known (fst (if ?b then _ else _)) =>
      destruct b end; exact Hk.
  - intros c conv. unfold prune, batch_known.
    cbn [conversationState streamIdToBatchKey].
    intros Hc Hc0. apply map_lookup_filter_Some in Hc as [Hc _].
    exact (Hk _ _ Hc Hc0).
Qed.

Lemma reachable_conversations_known st : reachable st -> conversations_known st.
Proof.
  induction 1 as [|c st _ IH Hf].
  - intros c conv. cbn. rewrite lookup_empty. discriminate.
  - apply conversations_known_exec; assumption.
Qed.

(** X15: pruning never removes a conversation entry.  In every state the
    store reaches, an entry under a non-empty conversation key is still there,
    unchanged, after prune, whatever the time: its active batch key is always
    the batch of some stream in the map from streams to batches, which prune
    leaves alone.  Only onStreamFinished removes conversation entries. *)
Theorem prune_keeps_conversations (st : StreamStore) (now : Z)
  (c : jsstring) (conv : Conversation.t) :
  reachable st ->
  conversationState st !! c = Some conv ->
  c <> [] ->
  conversationState (prune now st) !! c = Some conv.
Proof.
  intros Hr Hc Hc0.
  destruct (reachable_conversations_known st Hr c conv Hc Hc0) as [[sid Hsid] _].
  unfold prune. cbn [conversationState].
  apply map_lookup_filter_Some. split; [exact Hc|]. cbn [snd].
  assert (Hex : existsb
                  (fun kv => bool_decide (snd kv = Conversation.activeBatchKey conv))
                  (map_to_list (streamIdToBatchKey st)) = true).
  { apply existsb_exists. exists (sid, Conversation.activeBatchKey conv). split.
    - apply list_elem_of_In, elem_of_map_to_list. exact Hsid.
    - apply bool_decide_eq_true_2. reflexivity. }
  rewrite Hex, orb_true_r. reflexivity.
Qed.

Lemma prune_keeps_conversations_witness :
  let st := run StoreFacts.queued_entry_discarded Store.empty in
  let conv := {| Conversation.activeBatchKey := lit "a";
                 Conversation.queue := [lit "a#q1"];
                 Conversation.nextSeq := 2 |} in
  (reachable st /\ conversationState st !! lit "a" = Some conv /\ lit "a" <> [])
  /\ conversationState (prune 9000000 st) !! lit "a" = Some conv.
Proof.
  intros st conv.
  assert (Hr : reachable st).
  { apply (reachable_run queued_entry_discarded Store.empty reachable_empty).
    vm_compute. reflexivity. }
  assert (Hc : conversationState st !! lit "a" = Some conv)
    by (vm_compute; reflexivity).
  assert (Hne : lit "a" <> []) by discriminate.
  split; [exact (conj Hr (conj Hc Hne))|].
  exact (prune_keeps_conversations st 9000000 (lit "a") conv Hr Hc Hne).
Defined.

End StoreMore.

(** ** More on the Bot webhook handler (monitor.ts) *)

Module HandlerMore.
Import Store StoreRun StoreInvariants StoreFacts Monitor MonitorFacts.

(** A new batch maps the msg-id of its first message to its stream. *)
Lemma newBatch_msgid params k rnd now st m :
  Msg.msgid (ap_msg params) = Some m -> m <> [] ->
  msgidToStreamId (fst (newBatch params k rnd now st)) !! m
    = Some (Buffer_toString_hex rnd)
  /\ is_Some (streams (fst (newBatch params k rnd now st)) !! Buffer_toString_hex rnd).
Proof.
  intros Hm Hne. unfold newBatch, createStream, setTimeout.
  cbn [cs_msgid cs_batchKey]. rewrite Hm, (truthy_opt_Some_iff m Hne).
  destruct (truthy_opt (Some k)); cbn; rewrite !lookup_insert_eq; eauto.
Qed.

Lemma addPendingMessage_new params rnd now st sid status m :
  snd (addPendingMessage params rnd now st) = (sid, status) ->
  status = active_new \/ status = queued_new ->
  Msg.msgid (ap_msg params) = Some m -> m <> [] ->
  sid = Buffer_toString_hex rnd
  /\ msgidToStreamId (fst (addPendingMessage params rnd now st)) !! m = Some sid
  /\ is_Some (streams (fst (addPendingMessage params rnd now st)) !! sid).
Proof.
  intros Hres Hnew Hm Hne. unfold addPendingMessage in *.
  destruct (conversationState st !! ap_conversationKey params) as [state|].
  - destruct (mergeableActive _ state st) as [ap|].
    { cbn in Hres. injection Hres as _ <-. destruct Hnew; discriminate. }
    destruct (queuedPending state st) as [[q pq]|].
    { cbn in Hres. injection Hres as _ <-. destruct Hnew; discriminate. }
    match goal with
    | H : snd (let '(_, _) := newBatch ?p ?k ?r ?n ?s in _) = _ |- _ =>
        pose proof (newBatch_msgid p k r n s m Hm Hne) as [H1 H2];
        pose proof (newBatch_pending p k r n s) as (_ & Hs & _);
        destruct (newBatch p k r n s) as [st1 sid1]
    end.
    cbn [fst snd] in *. injection Hres as <- _. subst sid1.
    cbn [with_conversations msgidToStreamId streams]. auto.
  - match goal with
    | H : snd (let '(_, _) := newBatch ?p ?k ?r ?n ?s in _) = _ |- _ =>
        pose proof (newBatch_msgid p k r n s m Hm Hne) as [H1 H2];
        pose proof (newBatch_pending p k r n s) as (_ & Hs & _);
        destruct (newBatch p k r n s) as [st1 sid1]
    end.
    cbn [fst snd] in *. injection Hres as <- _. subst sid1.
    cbn [with_conversations msgidToStreamId streams]. auto.
Qed.

Section Retry.
Variable buildInboundBody : Msg.t -> jsstring.

Local Abbreviation handleBotPost := (handleBotPost buildInboundBody).
Local Abbreviation paramsOf := (paramsOf buildInboundBody).

(** The stream identifier of a stream reply. *)
Definition replyStreamId (r : response) : option jsstring :=
  match encrypted r with
  | StreamMessage s => Some (id s)
  | _ => None
  end.

(** X16: a message is admitted once.  The first POST of an ordinary
    message (neither event nor stream poll) with a msg-id that is not mapped
    yet is answered with a stream reply whose stream is new, exists in the
    store, and is what the msg-id is mapped to from then on; no agent is
    started by the handler.  A second POST of the same message on the
    state the first one left, at any time and with any nonce, is answered
    with the placeholder of that same stream and changes nothing. *)
Theorem retry_gets_the_same_stream
  (target : WebhookTarget.t) (msg : Msg.t)
  (nonce timestamp nonce' timestamp' : jsstring)
  (rnd rnd' : Buffer) (now now' : Z) (ms : MonitorState) (m : jsstring) :
  reachable (streamStore ms) ->
  fresh rnd (streamStore ms) ->
  toLowerCase (default [] (Msg.msgtype msg)) <> lit "event" ->
  toLowerCase (default [] (Msg.msgtype msg)) <> lit "stream" ->
  Msg.msgid msg = Some m -> m <> [] ->
  getStreamByMsgId m (streamStore ms) = None ->
  let first := handleBotPost target msg nonce timestamp rnd now ms in
  let ms1 := fst (fst first) in
  let sid := Buffer_toString_hex rnd in
  replyStreamId (snd (fst first)) = Some sid
  /\ snd first = []
  /\ streams (streamStore ms) !! sid = None
  /\ is_Some (streams (streamStore ms1) !! sid)
  /\ getStreamByMsgId m (streamStore ms1) = Some sid
  /\ handleBotPost target msg nonce' timestamp' rnd' now' ms1
     = (ms1,
        jsonOk (buildStreamPlaceholderReply sid
                  (WebhookTarget.streamPlaceholderContent target))
          nonce' timestamp',
        []).
Proof.
  intros Hr Hf Hev Hst Hm Hne Hnone first ms1 sid.
  pose proof (reachable_consistent _ Hr) as [[_ _ Hids _ _ _] _].
  destruct (hex_id_shape rnd (proj1 Hf)) as [Hsidt Hsidne]. fold sid in Hsidt, Hsidne.
  assert (Hnew : existingStreamOf msg (streamStore ms) = None).
  { unfold existingStreamOf. rewrite Hm, (truthy_opt_Some_iff m Hne).
    rewrite Hnone. reflexivity. }
  assert (Hfirst :
    replyStreamId (snd (fst first)) = Some sid /\ snd first = []
    /\ is_Some (streams (streamStore ms1) !! sid)
    /\ getStreamByMsgId m (streamStore ms1) = Some sid).
  { subst first ms1. unfold Monitor.handleBotPost, handleMessage.
    rewrite !bool_decide_eq_false_2 by assumption. rewrite Hnew.
    destruct (addPendingMessage (paramsOf target msg nonce timestamp) rnd now
                (streamStore ms)) as [st1 [sid' status]] eqn:Ea.
    assert (Hstore : forall ms2,
      ms2 = match truthy_opt (Msg.response_url msg) with
            | Some _ =>
                storeActiveReply sid' (Msg.response_url msg)
                  (WebhookTarget.egressProxyUrl target) now
                  (with_store (fun _ => st1) ms)
            | None => with_store (fun _ => st1) ms
            end -> streamStore ms2 = st1).
    { intros ms2 ->. destruct (truthy_opt (Msg.response_url msg));
        [apply storeActiveReply_store|reflexivity]. }
    assert (Hres : snd (addPendingMessage (paramsOf target msg nonce timestamp)
                          rnd now (streamStore ms)) = (sid', status))
      by (rewrite Ea; reflexivity).
    assert (Hst1 : fst (addPendingMessage (paramsOf target msg nonce timestamp)
                          rnd now (streamStore ms)) = st1)
      by (rewrite Ea; reflexivity).
    destruct status.
    - destruct (addPendingMessage_new _ rnd now _ sid' active_new m Hres
                  (or_introl eq_refl) Hm Hne) as (-> & Hmap & Hs).
      rewrite Hst1 in Hmap, Hs.
      cbn [fst snd replyStreamId encrypted jsonOk buildStreamPlaceholderReply id].
      rewrite (Hstore _ eq_refl). auto.
    - destruct (addPendingMessage_merged _ rnd now _ sid' active_merged Hres
                  (or_introl eq_refl)) as (k & p & Hp & Hsid & _).
      destruct (Hids k p Hp) as [Htrim Hpne]. rewrite Hsid in Htrim, Hpne.
      rewrite (Hstore _ eq_refl).
      pose proof (withAckStream_facts msg sid' rnd now st1 (proj1 Hf) Htrim Hpne)
        as (Hs & Hmap & _).
      unfold withAckStream in Hs, Hmap.
      destruct (createStream _ rnd now st1) as [st3 ackId] eqn:Ecs.
      assert (ackId = sid) as ->.
      { unfold createStream in Ecs. injection Ecs as _ <-. reflexivity. }
      cbn [fst snd replyStreamId encrypted jsonOk buildStreamTextPlaceholderReply
           id with_store streamStore].
      destruct Hs as (s & Hs & _). split; [reflexivity|]. split; [reflexivity|].
      split; [eauto|]. exact (Hmap m Hm Hne).
    - destruct (addPendingMessage_new _ rnd now _ sid' queued_new m Hres
                  (or_intror eq_refl) Hm Hne) as (-> & Hmap & Hs).
      rewrite Hst1 in Hmap, Hs.
      cbn [fst snd replyStreamId encrypted jsonOk buildStreamPlaceholderReply id].
      rewrite (Hstore _ eq_refl). auto.
    - destruct (addPendingMessage_merged _ rnd now _ sid' queued_merged Hres
                  (or_intror eq_refl)) as (k & p & Hp & Hsid & _).
      destruct (Hids k p Hp) as [Htrim Hpne]. rewrite Hsid in Htrim, Hpne.
      rewrite (Hstore _ eq_refl).
      pose proof (withAckStream_facts msg sid' rnd now st1 (proj1 Hf) Htrim Hpne)
        as (Hs & Hmap & _).
      unfold withAckStream in Hs, Hmap.
      destruct (createStream _ rnd now st1) as [st3 ackId] eqn:Ecs.
      assert (ackId = sid) as ->.
      { unfold createStream in Ecs. injection Ecs as _ <-. reflexivity. }
      cbn [fst snd replyStreamId encrypted jsonOk buildStreamTextPlaceholderReply
           id with_store streamStore].
      destruct Hs as (s & Hs & _). split; [reflexivity|]. split; [reflexivity|].
      split; [eauto|]. exact (Hmap m Hm Hne). }
  destruct Hfirst as (H1 & H2 & H3 & H4).
  split; [exact H1|]. split; [exact H2|].
  split; [exact (proj1 (proj2 Hf))|]. split; [exact H3|]. split; [exact H4|].
  unfold Monitor.handleBotPost, handleMessage.
  rewrite !bool_decide_eq_false_2 by assumption.
  assert (Hdup : existingStreamOf msg (streamStore ms1) = Some sid).
  { unfold existingStreamOf. rewrite Hm, (truthy_opt_Some_iff m Hne).
    rewrite H4. apply truthy_opt_Some_iff. exact Hsidne. }
  rewrite Hdup. reflexivity.
Qed.

End Retry.

Lemma retry_gets_the_same_stream_witness :
  let ms := after_messages ["M1"%string; "M2"%string] 1 idle in
  let msg := demo_msg "M3" in
  let rnd := demo_random 3 in
  let first := handleBotPost demo_body demo_target msg (lit "n") (lit "t") rnd 0 ms in
  let ms1 := fst (fst first) in
  let sid := Buffer_toString_hex rnd in
  (reachable (streamStore ms) /\ fresh rnd (streamStore ms)
   /\ toLowerCase (default [] (Msg.msgtype msg)) <> lit "event"
   /\ toLowerCase (default [] (Msg.msgtype msg)) <> lit "stream"
   /\ Msg.msgid msg = Some (lit "M3") /\ lit "M3" <> []
   /\ getStreamByMsgId (lit "M3") (streamStore ms) = None)
  /\ replyStreamId (snd (fst first)) = Some sid
  /\ snd first = []
  /\ streams (streamStore ms) !! sid = None
  /\ is_Some (streams (streamStore ms1) !! sid)
  /\ getStreamByMsgId (lit "M3") (streamStore ms1) = Some sid
  /\ handleBotPost demo_body demo_target msg (lit "n2") (lit "t2") (demo_random 4) 9 ms1
     = (ms1,
        jsonOk (buildStreamPlaceholderReply sid
                  (WebhookTarget.streamPlaceholderContent demo_target))
          (lit "n2") (lit "t2"),
        []).
Proof.
  intros ms msg rnd first ms1 sid.
  assert (Hst : streamStore ms = run two_admitted Store.empty)
    by (vm_compute; reflexivity).
  assert (Hr : reachable (streamStore ms)).
  { rewrite Hst. apply (reachable_run two_admitted Store.empty reachable_empty).
    vm_compute. reflexivity. }
  assert (Hf : fresh rnd (streamStore ms)).
  { apply freshb_fresh. vm_compute. reflexivity. }
  assert (H1 : toLowerCase (default [] (Msg.msgtype msg)) <> lit "event")
    by (vm_compute; discriminate).
  assert (H2 : toLowerCase (default [] (Msg.msgtype msg)) <> lit "stream")
    by (vm_compute; discriminate).
  assert (H3 : lit "M3" <> []) by (vm_compute; discriminate).
  assert (H4 : getStreamByMsgId (lit "M3") (streamStore ms) = None)
    by (vm_compute; reflexivity).
  split; [exact (conj Hr (conj Hf (conj H1 (conj H2 (conj eq_refl (conj H3 H4))))))|].
  exact (retry_gets_the_same_stream demo_body demo_target msg (lit "n") (lit "t")
           (lit "n2") (lit "t2") rnd (demo_random 4) 0 9 ms (lit "M3")
           Hr Hf H1 H2 eq_refl H3 H4).
Defined.

End HandlerMore.

(** ** The path a webhook target is registered and looked up under
    (monitor.ts) *)

Module WebhookPath.

(** [s.slice(0, -1)]. *)
Definition slice_0_minus1 (s : jsstring) : jsstring := take (length s - 1) s.

Definition normalizeWebhookPath (raw : jsstring) : jsstring :=
  let trimmed := trim raw in
  if negb (truthy trimmed) then lit "/" else
  let withSlash :=
    if startsWith trimmed (lit "/") then trimmed else lit "/" ++ trimmed in
  if Nat.ltb 1 (length withSlash) && endsWith withSlash (lit "/")
  then slice_0_minus1 withSlash
  else withSlash.

End WebhookPath.

Module WebhookPathFacts.
Import WebhookPath TrimFacts.

Lemma lit_slash : lit "/" = [47].
Proof. reflexivity. Qed.




Lemma startsWith_nil (s : jsstring) : startsWith s [] = true.
Proof. destruct s; reflexivity. Qed.

(** Whatever is configured, the path starts with a slash. *)
Lemma normalizeWebhookPath_slash (raw : jsstring) :
  startsWith (normalizeWebhookPath raw) (lit "/") = true.
Proof.
  unfold normalizeWebhookPath. rewrite lit_slash.
  destruct (trim raw) as [|u t] eqn:E; [reflexivity|]. cbn [truthy negb].
  set (w := if startsWith (u :: t) [47] then u :: t else [47] ++ u :: t).
  assert (Hw : exists r, w = 47 :: r).
  { subst w. cbn [startsWith]. destruct (N.eqb_spec u 47) as [->|_];
      cbn [andb]; [destruct t|]; eauto. }
  destruct Hw as [r ->].
  destruct (Nat.ltb 1 (length (47 :: r)) && endsWith (47 :: r) [47]) eqn:C;
    [|destruct r; reflexivity].
  apply andb_true_iff in C as [C _]. apply Nat.ltb_lt in C.
  unfold slice_0_minus1. destruct r as [|v r]; [cbn in C; lia|].
  cbn [length]. replace (S (S (length r)) - 1)%nat with (S (length r)) by lia.
  cbn [take startsWith]. change (47 =? 47) with true. cbn [andb].
  apply startsWith_nil.
Qed.



(** Only one slash is taken from the end, and blank input is the root. *)
Example normalizeWebhookPath_edges :
  normalizeWebhookPath (lit "  ") = lit "/"
  /\ normalizeWebhookPath (lit "//") = lit "/"
  /\ normalizeWebhookPath (lit "wecom//") = lit "/wecom/".
Proof. vm_compute. repeat split; reflexivity. Qed.

End WebhookPathFacts.

(** ** The identifier a target string resolves to (target.ts) *)

Module TargetMore.
Import Regex Target TargetSpec TargetFacts Utf8Facts TrimFacts.

(** The explicit type prefixes and the kind each one selects. *)
Definition explicit : list (string * kind) :=
  [("party:", Department); ("dept:", Department); ("tag:", Tag);
   ("group:", Chat); ("chat:", Chat); ("user:", User)]%string.

(** The target of one kind and one identifier. *)
Definition single (k : kind) (v : jsstring) : WecomTarget :=
  match k with
  | User => {| touser := Some v; toparty := None; totag := None; chatid := None |}
  | Department => {| touser := None; toparty := Some v; totag := None; chatid := None |}
  | Tag => {| touser := None; toparty := None; totag := Some v; chatid := None |}
  | Chat => {| touser := None; toparty := None; totag := None; chatid := Some v |}
  end.

Lemma replace_prefix (p : string) (s : jsstring) :
  replace (prefix_re p) s [] =
  if has_prefix_ci (lit p) s then skipn (length (lit p)) s else s.
Proof.
  unfold replace, prefix_re. rewrite search_bol, states_text.
  destruct (has_prefix_ci (lit p) s); reflexivity.
Qed.

Lemma lower_lower (c : N) : lower (lower c) = lower c.
Proof.
  unfold lower.
  destruct ((0x41 <=? c) && (c <=? 0x5A)) eqn:E; [|rewrite E; reflexivity].
  apply andb_true_iff in E as [E1 E2].
  apply N.leb_le in E1, E2.
  destruct (N.leb_spec 0x41 (c + 0x20)); cbn [andb]; [|reflexivity].
  destruct (N.leb_spec (c + 0x20) 0x5A); [lia|reflexivity].
Qed.

(** The match of a prefix does not see the letter case of the input. *)
Lemma has_prefix_ci_lower (q a s : jsstring) :
  has_prefix_ci q (a ++ s) = has_prefix_ci q (map lower a ++ s).
Proof.
  revert q. induction a as [|c a IH]; intros q; [reflexivity|].
  destruct q as [|x q]; [reflexivity|]. cbn. rewrite lower_lower, IH.
  reflexivity.
Qed.

(** White space has no other letter case. *)
Lemma white_space_lower (c : N) : is_white_space c = true -> lower c = c.
Proof.
  unfold lower. intros H.
  destruct (N.leb_spec 0x41 c); cbn [andb]; [|reflexivity].
  destruct (N.leb_spec c 0x5A); [|reflexivity].
  exfalso. unfold is_white_space in H.
  repeat match type of H with
  | context [(?a <=? ?b)] => destruct (N.leb_spec a b); cbn [andb orb] in H
  | context [(?a =? ?b)] => destruct (N.eqb_spec a b); cbn [andb orb] in H
  end; try discriminate; lia.
Qed.

Lemma lower_not_white_space (c x : N) :
  lower c = x -> is_white_space x = false -> is_white_space c = false.
Proof.
  intros E Hx. destruct (is_white_space c) eqn:Hc; [|reflexivity].
  rewrite (white_space_lower c Hc) in E. congruence.
Qed.

Lemma trimStart_snoc (l : jsstring) (d : N) :
  trimStart (l ++ [d]) =
  if truthy (trimStart l) then trimStart l ++ [d] else trimStart [d].
Proof.
  induction l as [|c l IH]; [reflexivity|]. cbn [app trimStart].
  destruct (is_white_space c); [exact IH|reflexivity].
Qed.

Lemma trimEnd_cons_any (d : N) (s : jsstring) :
  trimEnd (d :: s) =
  if truthy (trimEnd s) then d :: trimEnd s
  else if is_white_space d then [] else [d].
Proof.
  unfold trimEnd. rewrite reverse_cons, trimStart_snoc.
  destruct (trimStart (reverse s)) as [|c r] eqn:E.
  - cbn. destruct (is_white_space d); reflexivity.
  - cbn [truthy]. rewrite reverse_app. change (reverse [d]) with [d].
    cbn [app]. destruct (reverse (c :: r)) eqn:F; [|reflexivity].
    apply (f_equal reverse) in F. rewrite reverse_involutive in F. discriminate.
Qed.

(** White space is taken from both ends, in either order. *)
Lemma trimStart_trimEnd (s : jsstring) :
  trimStart (trimEnd s) = trimEnd (trimStart s).
Proof.
  induction s as [|d s IH]; [reflexivity|].
  rewrite trimEnd_cons_any. cbn [trimStart].
  destruct (is_white_space d) eqn:Hd.
  - destruct (trimEnd s) as [|c r] eqn:E; cbn [truthy].
    + rewrite <- IH. reflexivity.
    + cbn [trimStart]. rewrite Hd. exact IH.
  - rewrite trimEnd_cons_any.
    destruct (truthy (trimEnd s)); cbn [trimStart]; rewrite Hd; reflexivity.
Qed.

Lemma trim_trimEnd (s : jsstring) : trim (trimEnd s) = trim s.
Proof.
  unfold trim. rewrite trimStart_trimEnd. apply trimEnd_idem.
Qed.

(** Trimming a text whose first part has no white space at its ends. *)
Lemma trim_app (a b : jsstring) (u v : N) (a' a'' : jsstring) :
  a = u :: a' -> a = a'' ++ [v] ->
  is_white_space u = false -> is_white_space v = false ->
  trim (a ++ b) = a ++ trimEnd b.
Proof.
  intros E1 E2 Hu Hv. unfold trim.
  assert (Hs : trimStart (a ++ b) = a ++ b).
  { rewrite E1. cbn. rewrite Hu. reflexivity. }
  rewrite Hs. rewrite E2. clear -Hv. unfold trimEnd.
  rewrite !reverse_app. change (reverse [v]) with [v]. cbn [app].
  rewrite trimStart_app by exact Hv.
  rewrite reverse_app, reverse_cons, reverse_involutive. reflexivity.
Qed.

Lemma map_lower_length (a : jsstring) (n : jsstring) :
  map lower a = n -> length a = length n.
Proof. intros <-. symmetry. apply length_map. Qed.

Lemma skipn_prefix (a s : jsstring) (n : nat) :
  length a = n -> skipn n (a ++ s) = s.
Proof. intros <-. apply drop_app_length. Qed.

(** A text that reads [n] in lower case is not empty and has no white space
    at its ends when [n] has none. *)
Lemma lowered_ends (a n : jsstring) (x y : N) (n' n'' : jsstring) :
  map lower a = n -> n = x :: n' -> n = n'' ++ [y] ->
  is_white_space x = false -> is_white_space y = false ->
  exists u v a' a'', a = u :: a' /\ a = a'' ++ [v]
    /\ is_white_space u = false /\ is_white_space v = false.
Proof.
  intros Hm E1 E2 Hx Hy.
  destruct a as [|u a']; [subst n; discriminate|].
  destruct (exists_last (l := u :: a')) as (a'' & v & Ea); [discriminate|].
  exists u, v, a', a''. split; [reflexivity|]. split; [exact Ea|]. split.
  - rewrite E1 in Hm. cbn in Hm. injection Hm as Hu _.
    exact (lower_not_white_space u x Hu Hx).
  - rewrite Ea, E2, map_app in Hm. cbn in Hm.
    apply app_inj_tail in Hm as [_ Hv].
    exact (lower_not_white_space v y Hv Hy).
Qed.

(** X18: an explicit type prefix decides the kind of a target, whatever
    follows it.  For each of the prefixes [party:], [dept:], [tag:],
    [group:], [chat:] and [user:], written in any letter case, with or
    without one of the namespace prefixes in front (in any letter case,
    too), the resolver returns the target of that prefix's kind whose
    identifier is the rest of the text, trimmed: neither the chat nor the
    digits heuristic is applied to it, and it may be empty. *)
Theorem resolveWecomTarget_explicit_prefix
  (p : string) (k : kind) (ns pre id : jsstring) :
  In (p, k) explicit ->
  map lower pre = lit p ->
  ns = [] \/ In (map lower ns) namespaces ->
  resolveWecomTarget (Some (ns ++ pre ++ id)) = Some (single k (trim id)).
Proof.
  intros Hin Hpre Hns.
  assert (Hshape : exists x y n' n'', lit p = x :: n' /\ lit p = n'' ++ [y]
            /\ is_white_space x = false /\ y = 58).
  { exists (hd 0 (lit p)), (List.last (lit p) 0), (tl (lit p)), (List.removelast (lit p)).
    cbn in Hin. repeat destruct Hin as [[= <- <-]|Hin]; try contradiction;
      repeat split; vm_compute; reflexivity. }
  destruct Hshape as (x & y & n' & n'' & E1 & E2 & Hx & ->).
  destruct (lowered_ends pre (lit p) x 58 n' n'' Hpre E1 E2 Hx eq_refl)
    as (u & v & a' & a'' & Ea & Eb & Hu & Hv).
  assert (Hlen : length pre = length (lit p)) by (apply map_lower_length; exact Hpre).
  (* the trimmed input *)
  assert (Htrim : trim (ns ++ pre ++ id) = ns ++ pre ++ trimEnd id).
  { destruct Hns as [->|Hns].
    - cbn [app]. exact (trim_app pre id u v a' a'' Ea Eb Hu Hv).
    - assert (exists x0 n0 n1, map lower ns = x0 :: n0 /\ map lower ns = n1 ++ [58]
                /\ is_white_space x0 = false) as (x0 & n0 & n1 & F1 & F2 & Hx0).
      { exists (hd 0 (map lower ns)), (tl (map lower ns)), (List.removelast (map lower ns)).
        cbn in Hns. repeat destruct Hns as [Hns|Hns]; try contradiction;
          rewrite <- Hns; repeat split; vm_compute; reflexivity. }
      destruct (lowered_ends ns _ x0 58 n0 n1 eq_refl F1 F2 Hx0 eq_refl)
        as (u0 & v0 & b' & b'' & Ec & Ed & Hu0 & Hv0).
      rewrite !app_assoc.
      apply (trim_app (ns ++ pre) id u0 v (b' ++ pre) (ns ++ a'')).
      + rewrite Ec. reflexivity.
      + rewrite Eb at 1. apply app_assoc.
      + exact Hu0.
      + exact Hv. }
  assert (Hne : truthy (ns ++ pre ++ trimEnd id) = true).
  { rewrite Ea. destruct ns; reflexivity. }
  (* the namespace is taken off *)
  assert (Hstrip : strip_namespace (ns ++ pre ++ trimEnd id) = pre ++ trimEnd id).
  { unfold strip_namespace, namespaces. destruct Hns as [->|Hns].
    - cbn [app strip_first]. rewrite !(has_prefix_ci_lower _ pre), Hpre.
      cbn in Hin. repeat destruct Hin as [[= <- <-]|Hin]; try contradiction;
        reflexivity.
    - cbn [strip_first]. rewrite !(has_prefix_ci_lower _ ns).
      pose proof (map_lower_length ns _ eq_refl) as Hl.
      cbn in Hns. repeat destruct Hns as [Hns|Hns]; try contradiction;
        rewrite <- Hns in *; cbn [length] in Hl;
        cbn -[skipn]; apply skipn_prefix; exact Hl. }
  unfold resolveWecomTarget. rewrite Htrim, Hne. cbn [negb].
  rewrite replace_namespace, Hstrip, !test_prefix, !replace_prefix.
  rewrite !(has_prefix_ci_lower _ pre), Hpre.
  cbn in Hin. repeat destruct Hin as [[= <- <-]|Hin]; try contradiction;
    repeat match goal with
    | |- context [has_prefix_ci (lit ?q) (lit ?p ++ ?t)] =>
        let b := eval vm_compute in (has_prefix_ci (lit q) (lit p ++ t)) in
        change (has_prefix_ci (lit q) (lit p ++ t)) with b
    end; cbv iota;
    rewrite (skipn_prefix pre (trimEnd id) _ Hlen), trim_trimEnd; reflexivity.
Qed.

Lemma resolveWecomTarget_explicit_prefix_witness :
  (In ("user:"%string, User) explicit
   /\ map lower (lit "User:") = lit "user:"
   /\ (lit "WeCom:" = [] \/ In (map lower (lit "WeCom:")) namespaces))
  /\ resolveWecomTarget (Some (lit "WeCom:" ++ lit "User:" ++ lit " 1001 "))
     = Some (single User (trim (lit " 1001 "))).
Proof.
  assert (H1 : In ("user:"%string, User) explicit)
    by (do 5 right; left; reflexivity).
  assert (H2 : map lower (lit "User:") = lit "user:") by (vm_compute; reflexivity).
  assert (H3 : lit "WeCom:" = [] \/ In (map lower (lit "WeCom:")) namespaces)
    by (right; right; left; vm_compute; reflexivity).
  split; [exact (conj H1 (conj H2 H3))|].
  exact (resolveWecomTarget_explicit_prefix "user:" User (lit "WeCom:")
           (lit "User:") (lit " 1001 ") H1 H2 H3).
Defined.

(** A user whose identifier is all digits, or starts like a chat, is reached
    with the prefix; a prefix alone gives an empty identifier; only one
    namespace is taken off. *)
Example resolveWecomTarget_identifiers :
  resolveWecomTarget (Some (lit "user:1001")) = Some (single User (lit "1001"))
  /\ resolveWecomTarget (Some (lit "1001")) = Some (single Department (lit "1001"))
  /\ resolveWecomTarget (Some (lit "party:")) = Some (single Department [])
  /\ resolveWecomTarget (Some (lit "wecom:qywx:bob"))
     = Some (single User (lit "qywx:bob")).
Proof. vm_compute. repeat split; reflexivity. Qed.

End TargetMore.

(** ** The store of reply URLs (state.ts, ActiveReplyStore) *)

Module ActiveReplyStore.

Inductive Policy := once | multi.

Record ActiveReplyState := {
  response_url : jsstring;
  proxyUrl : option jsstring;
  createdAt : Z;
  usedAt : option Z;
  lastError : option jsstring
}.

Definition set_usedAt (v : Z) (o : ActiveReplyState) : ActiveReplyState :=
  {| response_url := response_url o; proxyUrl := proxyUrl o;
     createdAt := createdAt o; usedAt := Some v; lastError := lastError o |}.

Definition set_lastError (e : jsstring) (o : ActiveReplyState) : ActiveReplyState :=
  {| response_url := response_url o; proxyUrl := proxyUrl o;
     createdAt := createdAt o; usedAt := usedAt o; lastError := Some e |}.

(** The store: its policy, the state objects it has created, and the map
    from stream identifiers to them.  The map holds references: [use] keeps
    the object it has read across the call of [fn] and writes to that
    object afterwards, whatever the map holds by then. *)
Record t := {
  policy : Policy;
  objects : list ActiveReplyState;
  activeReplies : gmap (list N) nat
}.

Definition create (p : Policy) : t :=
  {| policy := p; objects := []; activeReplies := ∅ |}.

(** [store(streamId, responseUrl, proxyUrl)], at time [now]. *)
Definition store (streamId : jsstring) (responseUrl proxy : option jsstring)
  (now : Z) (s : t) : t :=
  match Store.truthy_opt (trim <$> responseUrl) with
  | None => s
  | Some url =>
      {| policy := policy s;
         objects := objects s ++
           [{| response_url := url; proxyUrl := proxy; createdAt := now;
               usedAt := None; lastError := None |}];
         activeReplies := <[streamId := length (objects s)]> (activeReplies s) |}
  end.

(** [this.activeReplies.get(streamId)]: the reference and the object. *)
Definition get (streamId : jsstring) (s : t) : option (nat * ActiveReplyState) :=
  r ← activeReplies s !! streamId; o ← objects s !! r; Some (r, o).

Definition getUrl (streamId : jsstring) (s : t) : option jsstring :=
  (fun x => response_url (snd x)) <$> get streamId s.

(** Truthiness of [state.usedAt], a number or [undefined]. *)
Definition truthy_time (v : option Z) : bool :=
  match v with
  | Some z => negb (z =? 0)%Z
  | None => false
  end.

(** [use(streamId, fn)] up to the call of [fn]: it returns without calling,
    throws because the URL has been used, or calls [fn], keeping the object
    it has read. *)
Inductive started :=
| Skipped
| AlreadyUsed
| Calls (ref : nat) (responseUrl : jsstring) (proxy : option jsstring).

Definition use_begin (streamId : jsstring) (s : t) : started :=
  match get streamId s with
  | None => Skipped
  | Some (r, state) =>
      if negb (truthy (response_url state)) then Skipped
      else if match policy s with once => true | multi => false end
              && truthy_time (usedAt state)
      then AlreadyUsed
      else Calls r (response_url state) (proxyUrl state)
  end.

(** [use] after [fn] has settled, at time [now]: fulfilled ([None]) or
    rejected with a message. *)
Definition use_end (ref : nat) (outcome : option jsstring) (now : Z) (s : t) : t :=
  {| policy := policy s;
     objects :=
       alter match outcome with
             | None => set_usedAt now
             | Some message => set_lastError message
             end ref (objects s);
     activeReplies := activeReplies s |}.

(** [prune(now)]. *)
Definition prune (now : Z) (s : t) : t :=
  let cutoff := (now - Limits.ACTIVE_REPLY_TTL_MS)%Z in
  {| policy := policy s;
     objects := objects s;
     activeReplies :=
       filter (fun kv =>
                 match objects s !! snd kv with
                 | Some state => (createdAt state <? cutoff)%Z
                 | None => false
                 end = false)
         (activeReplies s) |}.

(** What happens to a store, apart from the reads. *)
Inductive event :=
| StoreUrl (streamId : jsstring) (responseUrl proxy : option jsstring) (now : Z)
| UseEnd (ref : nat) (outcome : option jsstring) (now : Z)
| Prune (now : Z).

Definition step (e : event) (s : t) : t :=
  match e with
  | StoreUrl streamId responseUrl proxy now => store streamId responseUrl proxy now s
  | UseEnd ref outcome now => use_end ref outcome now s
  | Prune now => prune now s
  end.

Definition run (es : list event) (s : t) : t := fold_left (fun s e => step e s) es s.

(** The event stores no URL for [streamId], and its clock, if it reads
    one to mark a use, is past the epoch. *)
Definition leaves (streamId : jsstring) (e : event) : Prop :=
  match e with
  | StoreUrl streamId' _ _ _ => streamId' <> streamId
  | UseEnd _ _ now => now <> 0%Z
  | Prune _ => True
  end.

End ActiveReplyStore.

Module ActiveReplyStoreFacts.
Import ActiveReplyStore.

(** The URL of [streamId], if the store still has one, is marked used; and
    the reference the map holds for [streamId] is one of the objects. *)
Definition spent (streamId : jsstring) (s : t) : Prop :=
  (forall r, activeReplies s !! streamId = Some r -> (r < length (objects s))%nat)
  /\ forall r o, get streamId s = Some (r, o) ->
       truthy_time (usedAt o) = true /\ truthy (response_url o) = true.

Lemma get_Some streamId s r o :
  get streamId s = Some (r, o)
  <-> activeReplies s !! streamId = Some r /\ objects s !! r = Some o.
Proof.
  unfold get. destruct (activeReplies s !! streamId) as [r'|]; cbn.
  - destruct (objects s !! r') as [o'|] eqn:E; cbn.
    + split; [intros [= <- <-]; auto|]. intros [[= <-] H]. congruence.
    + split; [discriminate|]. intros [[= <-] H]. congruence.
  - split; [discriminate|]. intros [H _]. discriminate.
Qed.

Lemma policy_step e s : policy (step e s) = policy s.
Proof.
  destruct e; cbn; [|reflexivity|reflexivity].
  unfold store. destruct (Store.truthy_opt _); reflexivity.
Qed.

Lemma policy_run es s : policy (run es s) = policy s.
Proof.
  revert s. induction es as [|e es IH]; intros s; [reflexivity|].
  cbn. unfold run in IH. rewrite IH. apply policy_step.
Qed.

Lemma spent_step streamId e s :
  leaves streamId e -> spent streamId s -> spent streamId (step e s).
Proof.
  intros Hl [Hv Hs].
  destruct e as [sid url proxy now|ref outcome now|now]; cbn in *.
  - unfold store. destruct (Store.truthy_opt _) as [u|]; [|split; assumption].
    split; cbn.
    + intros r Hm. rewrite lookup_insert_ne in Hm by exact Hl.
      rewrite length_app. specialize (Hv r Hm). lia.
    + intros r o Hg. apply get_Some in Hg as [Hm Ho]. cbn in Hm, Ho.
      rewrite lookup_insert_ne in Hm by exact Hl.
      rewrite lookup_app_l in Ho by exact (Hv r Hm).
      apply (Hs r o). apply get_Some. auto.
  - split; cbn.
    + intros r Hm. rewrite length_alter. exact (Hv r Hm).
    + intros r o Hg. apply get_Some in Hg as [Hm Ho]. cbn in Hm, Ho.
      destruct (decide (ref = r)) as [->|Hr].
      * rewrite list_lookup_alter_eq in Ho.
        destruct (objects s !! r) as [o'|] eqn:E; [|discriminate].
        cbn in Ho. injection Ho as <-.
        assert (Hg : get streamId s = Some (r, o')) by (apply get_Some; auto).
        destruct (Hs r o' Hg) as [H1 H2].
        destruct outcome as [msg|]; cbn; [auto|].
        split; [|exact H2].
        destruct (Z.eqb_spec now 0); [contradiction|reflexivity].
      * rewrite list_lookup_alter_ne in Ho by exact Hr.
        apply (Hs r o). apply get_Some. auto.
  - split; cbn.
    + intros r Hm. apply map_lookup_filter_Some in Hm as [Hm _]. exact (Hv r Hm).
    + intros r o Hg. apply get_Some in Hg as [Hm Ho]. cbn in Hm, Ho.
      apply map_lookup_filter_Some in Hm as [Hm _].
      apply (Hs r o). apply get_Some. auto.
Qed.

Lemma spent_run streamId es s :
  Forall (leaves streamId) es -> spent streamId s -> spent streamId (run es s).
Proof.
  intros H. revert s. induction H as [|e es He _ IH]; intros s Hs; [exact Hs|].
  cbn. apply IH. apply spent_step; assumption.
Qed.

(** X19: with the policy [once], a reply URL that has been used with
    success is not handed out again.  When [use] has called [fn] for a
    stream and [fn] has succeeded, then, whatever happens to the store
    afterwards short of a new [store] for that stream (URLs stored for other
    streams, other calls of [fn] settling, pruning), a [use] for that stream
    that starts later does not call [fn]: it throws as long as the URL is in
    the store, and returns quietly once the URL is pruned.  The clock read
    after a success is taken not to be 0. *)
Theorem use_once (s : t) (streamId : jsstring) (r : nat) (url : jsstring)
  (proxy : option jsstring) (now : Z) (es : list event) :
  policy s = once ->
  use_begin streamId s = Calls r url proxy ->
  now <> 0%Z ->
  Forall (leaves streamId) es ->
  let s' := run es (use_end r None now s) in
  use_begin streamId s' =
  match getUrl streamId s' with
  | Some _ => AlreadyUsed
  | None => Skipped
  end.
Proof.
  intros Hp Hu Hnow Hes s'.
  assert (H0 : spent streamId (use_end r None now s)).
  { unfold use_begin in Hu.
    destruct (get streamId s) as [[r0 o0]|] eqn:Hg; [|discriminate].
    destruct (truthy (response_url o0)) eqn:Ht; cbn [negb] in Hu; [|discriminate].
    destruct (_ && _); [discriminate|]. injection Hu as -> _ _.
    apply get_Some in Hg as [Hm Ho].
    split; cbn.
    - intros r' Hm'. rewrite length_alter. rewrite Hm in Hm'. injection Hm' as <-.
      apply lookup_lt_Some in Ho. exact Ho.
    - intros r' o' Hg'. apply get_Some in Hg' as [Hm' Ho']. cbn in Hm', Ho'.
      rewrite Hm in Hm'. injection Hm' as <-.
      rewrite list_lookup_alter_eq, Ho in Ho'. cbn in Ho'. injection Ho' as <-.
      cbn. split; [|exact Ht].
      destruct (Z.eqb_spec now 0); [contradiction|reflexivity]. }
  pose proof (spent_run streamId es _ Hes H0) as [_ Hs]. fold s' in Hs.
  assert (Hp' : policy s' = once) by (subst s'; rewrite policy_run; exact Hp).
  unfold use_begin, getUrl.
  destruct (get streamId s') as [[r' o']|]; [|reflexivity].
  destruct (Hs r' o' eq_refl) as [H1 H2]. rewrite H1, H2, Hp'. reflexivity.
Qed.

(** A store with the policy [once] that holds a URL for stream [a]; and
    what happens after the use of that URL: a URL is stored for [b], a
    failed use of it is recorded, and the store is pruned. *)
Definition demo_url : jsstring := lit "https://example.invalid/reply".

Definition demo_store : t :=
  store (lit "a") (Some demo_url) None 1000 (create once).

Definition demo_events : list event :=
  [StoreUrl (lit "b") (Some demo_url) None 2000;
   UseEnd 1 (Some (lit "timeout")) 2500;
   Prune 3000].

Lemma use_once_witness :
  (policy demo_store = once
   /\ use_begin (lit "a") demo_store = Calls 0 demo_url None
   /\ 1500%Z <> 0%Z
   /\ Forall (leaves (lit "a")) demo_events)
  /\ let s' := run demo_events (use_end 0 None 1500 demo_store) in
     use_begin (lit "a") s' =
     match getUrl (lit "a") s' with
     | Some _ => AlreadyUsed
     | None => Skipped
     end.
Proof.
  assert (H1 : policy demo_store = once) by reflexivity.
  assert (H2 : use_begin (lit "a") demo_store = Calls 0 demo_url None)
    by (vm_compute; reflexivity).
  assert (H3 : 1500%Z <> 0%Z) by discriminate.
  assert (H4 : Forall (leaves (lit "a")) demo_events).
  { repeat constructor; cbn; vm_compute; discriminate. }
  split; [exact (conj H1 (conj H2 (conj H3 H4)))|].
  exact (use_once demo_store (lit "a") 0 demo_url None 1500 demo_events
           H1 H2 H3 H4).
Defined.

(** The cases around it: the second use throws, and returns quietly once
    the URL is pruned; a use that failed may be tried again; a URL stored
    while [fn] runs is not marked by its success; and with the policy
    [multi] a used URL is handed out again. *)
Example use_scenarios :
  let used := run demo_events (use_end 0 None 1500 demo_store) in
  use_begin (lit "a") used = AlreadyUsed
  /\ use_begin (lit "a") (prune (1000 + Limits.ACTIVE_REPLY_TTL_MS + 1) used) = Skipped
  /\ use_begin (lit "b") used = Calls 1 demo_url None
  /\ use_begin (lit "a")
       (use_end 0 None 1500
          (store (lit "a") (Some (lit "https://example.invalid/2")) None 1200
             demo_store))
     = Calls 1 (lit "https://example.invalid/2") None
  /\ use_begin (lit "a")
       (use_end 0 None 1500 (store (lit "a") (Some demo_url) None 1000 (create multi)))
     = Calls 0 demo_url None.
Proof. vm_compute. repeat split; reflexivity. Qed.

End ActiveReplyStoreFacts.
